(** * Numba CUDA tutorial notebooks: the kernels and ufuncs, embedded and verified

    The notebooks define a handful of small numeric functions: elementwise
    ufuncs ([rel_diff], [zero_suppress], [mandel]), CUDA kernels
    ([add_kernel], [cuda_histogram], [create_fractal_gpu], [compute_pi],
    the two thread counters), a reduction ([sum_reduce]) and their
    sequential counterparts ([cpu_histogram], [mandelbrot],
    [create_fractal]).  Each is translated below into a Rocq function over
    lists and integers; the floating-point operations of the NumPy / Numba
    run time are an interface ([Arith]) with an IEEE binary64 instance built
    on Rocq's primitive floats, so that every definition can be evaluated. *)

From Stdlib Require Import ZArith QArith Qround Qcanon Lia Lqa.
From Stdlib Require Import Floats.PrimFloat Floats.FloatOps Floats.SpecFloat.
From stdpp Require Import base tactics option list relations.

Local Open Scope Z_scope.

(** ** Fixed-width integers *)

Module Int.

(** Two's-complement wrap-around of width [w]: the value a NumPy integer
    dtype keeps after an arithmetic operation or a cast. *)
Definition wrap_signed (w : Z) (v : Z) : Z :=
  (v + 2 ^ (w - 1)) mod 2 ^ w - 2 ^ (w - 1).

Definition wrap_unsigned (w : Z) (v : Z) : Z := v mod 2 ^ w.

Definition int16 (v : Z) : Z := wrap_signed 16 v.
Definition int32 (v : Z) : Z := wrap_signed 32 v.
Definition int64 (v : Z) : Z := wrap_signed 64 v.
Definition uint8 (v : Z) : Z := wrap_unsigned 8 v.
Definition uint32 (v : Z) : Z := wrap_unsigned 32 v.

Definition is_int16 (v : Z) : Prop := - 2 ^ 15 <= v < 2 ^ 15.
Definition is_int32 (v : Z) : Prop := - 2 ^ 31 <= v < 2 ^ 31.
Definition is_int64 (v : Z) : Prop := - 2 ^ 63 <= v < 2 ^ 63.

End Int.

(** ** The arithmetic of the run time *)

(** [DType] is the [+] of an array's element type, the only operation
    [add_kernel] and [sum_reduce] use. *)
Class DType (T : Type) := dtype_add : T -> T -> T.

(** [Arith] collects the floating-point operations the notebooks' functions
    call.  The functions are written once over this interface, as the Python
    source is written once for every dtype. *)
Class Arith (F : Type) := {
  fadd : F -> F -> F;
  fsub : F -> F -> F;
  fmul : F -> F -> F;
  fdiv : F -> F -> F;
  fle : F -> F -> bool;
  of_int : Z -> F;        (* int -> float conversion, also numeric literals *)
  to_int32 : F -> Z;      (* the cast np.int32(v) *)
  to_float32 : F -> F     (* the cast np.float32(v) *)
}.

#[global] Instance Arith_DType {F} `{Arith F} : DType F := fadd.

(** The [>=] of two floats is [<=] with the operands exchanged. *)
Definition fge {F} `{Arith F} (a b : F) : bool := fle b a.

(** IEEE-754 binary64 (Python's [float], NumPy's [float64]). *)
Module Float64.

(** Truncation toward zero of a finite float; [None] on NaN and infinities. *)
Definition trunc (f : float) : option Z :=
  match Prim2SF f with
  | S754_zero _ => Some 0
  | S754_finite s m e =>
      Some (cond_Zopp s (if 0 <=? e then Z.pos m * 2 ^ e
                         else Z.pos m / 2 ^ (- e)))
  | _ => None
  end.

(** [np.int32(v)]: truncation; what does not fit (and NaN) becomes the
    "integer indefinite" value [-2^31] of the x86 conversion. *)
Definition to_int32 (f : float) : Z :=
  match trunc f with
  | Some z => if (- 2 ^ 31 <=? z) && (z <? 2 ^ 31) then z else - 2 ^ 31
  | None => - 2 ^ 31
  end.

(** [np.float32(v)]: round to 24 bits of precision, kept as a binary64. *)
Definition to_float32 (f : float) : float :=
  match Prim2SF f with
  | S754_finite s m e =>
      SF2Prim (binary_normalize 24 128 (cond_Zopp s (Z.pos m)) e s)
  | _ => f
  end.

(** Conversion of an integer, rounding to nearest even. *)
Definition of_int (z : Z) : float :=
  SF2Prim (binary_normalize 53 1024 z 0 false).

#[global] Instance arith : Arith float := {
  fadd := PrimFloat.add;
  fsub := PrimFloat.sub;
  fmul := PrimFloat.mul;
  fdiv := PrimFloat.div;
  fle := PrimFloat.leb;
  of_int := of_int;
  to_int32 := to_int32;
  to_float32 := to_float32
}.

End Float64.

(** Rationals with a rounding after every operation: floating-point
    arithmetic away from overflow, NaN and infinities.  [rnd] is the
    rounding of the binary64 operations and [rnd32] that of the cast to
    float32; an operation on float32 operands is the binary64 operation
    followed by the cast, so the two precisions of a kernel are kept
    apart. *)
Module Rounded.

Definition trunc (q : Q) : Z := Z.quot (Qnum q) (Z.pos (Qden q)).

Definition cast_int32 (q : Q) : Z :=
  let z := trunc q in
  if (- 2 ^ 31 <=? z) && (z <? 2 ^ 31) then z else - 2 ^ 31.

Definition arith (rnd rnd32 : Q -> Q) : Arith Q := {|
  fadd a b := rnd (a + b)%Q;
  fsub a b := rnd (a - b)%Q;
  fmul a b := rnd (a * b)%Q;
  fdiv a b := rnd (a / b)%Q;
  fle := Qle_bool;
  of_int z := rnd (inject_Z z);
  to_int32 := cast_int32;
  to_float32 := rnd32
|}.

(** What the proofs ask of a rounding rule, each a property of IEEE-754
    rounding to nearest: it is monotone, it keeps the small integers 0, 1
    and 4, and scaling a converted int64 by 4 (a power of the radix) is
    exact. *)
Record rounding_laws (rnd : Q -> Q) : Prop := {
  rnd_mono : forall p q : Q, (p <= q)%Q -> (rnd p <= rnd q)%Q;
  rnd_0 : (rnd 0 == 0)%Q;
  rnd_1 : (rnd 1 == 1)%Q;
  rnd_4 : (rnd 4 == 4)%Q;
  rnd_scale4 : forall n : Z,
      Int.is_int64 n ->
      (rnd (4 * rnd (inject_Z n)) == 4 * rnd (inject_Z n))%Q
}.

(** A rounding rule: down to the next multiple of [2^-bits]. *)
Definition round_down (bits : positive) (q : Q) : Q :=
  Qmake (Qfloor (q * inject_Z (Z.pos (2 ^ bits)))%Q) (2 ^ bits).

End Rounded.

(** NumPy's int64 under [+]: the sum wraps around. *)
#[global] Instance int64_dtype : DType Z := fun a b => Int.int64 (a + b).

(** ** Broadcasting a scalar function: [@vectorize] *)

Module Ufunc.

(** Modelled from the spec: Numba's [@vectorize] decorator, which turns a
    scalar function into a ufunc, is library code outside the repository.
    The specification describes a ufunc as "an elementwise function
    auto-broadcast across array inputs": applied to two one-dimensional
    arrays of equal length it combines them element by element, an array
    of length one is stretched to the other's length, and any other pair of
    shapes is a broadcasting error. *)
Definition vectorize {A B C} (f : A -> B -> C)
    (a : list A) (b : list B) : option (list C) :=
  if decide (length a = length b) then Some (zip_with f a b)
  else match a, b with
       | [x], _ => Some (map (f x) b)
       | _, [y] => Some (map (fun x => f x y) a)
       | _, _ => None
       end.

Section RelDiff.
Context {F : Type} `{Arith F}.

(** The scalar body: [2 * (x - y) / (x + y)]. *)
Definition rel_diff_scalar (x y : F) : F :=
  fdiv (fmul (of_int 2) (fsub x y)) (fadd x y).

(** [@vectorize def rel_diff(x, y)]. *)
Definition rel_diff (a b : list F) : option (list F) :=
  vectorize rel_diff_scalar a b.

(** The same body compiled for int64 arguments: the difference, the product
    by 2 and the sum are int64 (and wrap around), and [/] is true division
    of the two converted to floats. *)
Definition rel_diff_scalar_int64 (x y : Z) : F :=
  fdiv (of_int (Int.int64 (2 * Int.int64 (x - y))))
       (of_int (Int.int64 (x + y))).

Definition rel_diff_int64 (a b : list Z) : option (list F) :=
  vectorize rel_diff_scalar_int64 a b.
End RelDiff.

(** [@vectorize("int32(int16, int32)", target='cuda')]: the body compares
    and selects; the result is returned as an int32. *)
Definition zero_suppress_scalar (waveform_value threshold : Z) : Z :=
  let result :=
    if waveform_value <? threshold then 0 else waveform_value in
  Int.int32 result.

Definition zero_suppress (waveform : list Z) (threshold : list Z)
    : option (list Z) :=
  vectorize zero_suppress_scalar waveform threshold.

End Ufunc.

(** ** Python's [range] *)

Module Py.

(** [range(start, stop, step)] for a positive [step]: the indices
    [start + k * step] below [stop]; there are
    [ceil((stop - start) / step)] of them when [start < stop], none
    otherwise. *)
Definition range_len (start stop step : nat) : nat :=
  if (start <? stop)%nat then ((stop - start + step - 1) / step)%nat else 0%nat.

Definition range (start stop step : nat) : list nat :=
  map (fun k => start + k * step)%nat (seq 0 (range_len start stop step)).

End Py.

(** ** Launching a kernel *)

Module Cuda.

(** The absolute positions [cuda.grid(1)] of the threads of a
    one-dimensional launch [kernel[blocks, threads]]: thread [tx] of block
    [ty] sits at [tx + ty * threads]. *)
Definition grid1 (blocks threads : nat) : list nat :=
  flat_map (fun ty => map (fun tx => tx + ty * threads)%nat (seq 0 threads))
           (seq 0 blocks).

(** The threads of a one-dimensional launch, each named by
    [(threadIdx.x, blockIdx.x)]. *)
Definition threads1 (blocks threads : nat) : list (nat * nat) :=
  flat_map (fun ty => map (fun tx => (tx, ty)) (seq 0 threads)) (seq 0 blocks).

(** The positions [cuda.grid(2)] of a two-dimensional launch with
    [(bx, by)] blocks of [(tx, ty)] threads. *)
Definition grid2 (blocks threads : nat * nat) : list (nat * nat) :=
  flat_map (fun y => map (fun x => (x, y)) (grid1 blocks.1 threads.1))
           (grid1 blocks.2 threads.2).

(** [cuda.grid(1)] and [cuda.gridsize(1)] for the thread
    [(threadIdx.x, blockIdx.x)] of a launch with [block_size] threads in each
    of [grid_size] blocks. *)
Definition grid (block_size : nat) (thread : nat * nat) : nat :=
  (thread.1 + thread.2 * block_size)%nat.

Definition gridsize (block_size grid_size : nat) : nat :=
  (block_size * grid_size)%nat.

(** The threads of a launch seen as sequences of memory operations:
    [interleaving ts trace] holds when [trace] carries out the operations of
    every thread of [ts], each thread's in its own order, the threads'
    in any order relative to each other. *)
Inductive interleaving {A : Type} : list (list A) -> list A -> Prop :=
| interleaving_done (ts : list (list A)) :
    Forall (fun t => t = []) ts -> interleaving ts []
| interleaving_step (ts : list (list A)) (k : nat) (a : A) (t : list A)
    (trace : list A) :
    ts !! k = Some (a :: t) ->
    interleaving (<[k := t]> ts) trace ->
    interleaving ts (a :: trace).

(** A kernel whose threads do not synchronise, run one thread after the
    other in the order [schedule]. *)
Definition run {T S} (kernel : T -> S -> S) (schedule : list T) (s : S) : S :=
  foldl (fun s t => kernel t s) s schedule.

End Cuda.

(** ** The Mandelbrot renderers *)

Module Mandelbrot.

(** A two-dimensional uint8 array in NumPy's row-major layout: [image[y, x]]
    is the element [y * shape1 + x] of [data]. *)
Record ndarray := NdArray { shape0 : nat; shape1 : nat; data : list Z }.

Definition set_pixel (image : ndarray) (y x : nat) (color : Z) : ndarray :=
  NdArray (shape0 image) (shape1 image)
          (<[(y * shape1 image + x)%nat := Int.uint8 color]> (data image)).

Definition get_pixel (image : ndarray) (y x : nat) : option Z :=
  data image !! (y * shape1 image + x)%nat.

(** [pixels.reshape((rows, cols))] of a flat vector. *)
Definition reshape (pixels : list Z) (rows cols : nat) : option ndarray :=
  if decide (length pixels = (rows * cols)%nat)
  then Some (NdArray rows cols pixels) else None.

Section Generic.
Context {F : Type} `{Arith F}.

Record complex := Complex { real : F; imag : F }.

Definition cmul (a b : complex) : complex :=
  Complex (fsub (fmul (real a) (real b)) (fmul (imag a) (imag b)))
          (fadd (fmul (real a) (imag b)) (fmul (imag a) (real b))).

Definition cadd (a b : complex) : complex :=
  Complex (fadd (real a) (real b)) (fadd (imag a) (imag b)).

(** [0.0j] *)
Definition czero : complex := Complex (of_int 0) (of_int 0).

(** [z.real * z.real + z.imag * z.imag >= 4] *)
Definition escaped (z : complex) : bool :=
  fge (fadd (fmul (real z) (real z)) (fmul (imag z) (imag z))) (of_int 4).

(** The loop [for i in range(max_iters)], entered at index [i] with [n]
    indices left and the current iterate [z]. *)
Fixpoint mandelbrot_loop (c z : complex) (i : Z) (n : nat) : Z :=
  match n with
  | O => 255
  | S n' =>
      let z := cadd (cmul z z) c in
      if escaped z then i else mandelbrot_loop c z (i + 1) n'
  end.

Definition mandelbrot (x y : F) (max_iters : Z) : Z :=
  let c := Complex x y in
  let z := czero in
  mandelbrot_loop c z 0 (Z.to_nat max_iters).

(** [create_fractal]: the columns [x] in the outer loop, the rows [y] in
    the inner one.  Dividing by a zero width or height raises
    ZeroDivisionError ([None]). *)
Definition create_fractal (min_x max_x min_y max_y : F)
    (image : ndarray) (iters : Z) : option ndarray :=
  let height := shape0 image in
  let width := shape1 image in
  if decide (width = 0%nat) then None
  else if decide (height = 0%nat) then None
  else
    let pixel_size_x := fdiv (fsub max_x min_x) (of_int (Z.of_nat width)) in
    let pixel_size_y := fdiv (fsub max_y min_y) (of_int (Z.of_nat height)) in
    Some (foldl (fun image x =>
            let real := fadd min_x (fmul (of_int (Z.of_nat x)) pixel_size_x) in
            foldl (fun image y =>
                let imag :=
                  fadd min_y (fmul (of_int (Z.of_nat y)) pixel_size_y) in
                let color := mandelbrot real imag iters in
                set_pixel image y x color)
              image (seq 0 height))
          image (seq 0 width)).

(** [create_fractal_gpu], the body of the thread at [cuda.grid(2) = (x, y)].
    [mandelbrot_gpu] is [mandelbrot] compiled as a device function. *)
Definition create_fractal_gpu (min_x max_x min_y max_y : F) (iters : Z)
    (pos : nat * nat) (image : ndarray) : ndarray :=
  let height := shape0 image in
  let width := shape1 image in
  let pixel_size_x := fdiv (fsub max_x min_x) (of_int (Z.of_nat width)) in
  let pixel_size_y := fdiv (fsub max_y min_y) (of_int (Z.of_nat height)) in
  let '(x, y) := pos in
  if decide (x < width /\ y < height)%nat then
    let real := fadd min_x (fmul (of_int (Z.of_nat x)) pixel_size_x) in
    let imag := fadd min_y (fmul (of_int (Z.of_nat y)) pixel_size_y) in
    let color := mandelbrot real imag iters in
    set_pixel image y x color
  else image.

(** The ufunc [mandel], signature
    [uint8(uint32, f4, f4, f4, f4, uint32, uint32, uint32)]: the viewport
    is float32, so is the difference of two bounds; every other operation
    is promoted to float64.  [tid % width] is the integer remainder and
    [tid / width] the true (floating-point) quotient. *)
Definition mandel (tid : Z) (min_x max_x min_y max_y : F)
    (width height iters : Z) : Z :=
  let pixel_size_x := fdiv (to_float32 (fsub max_x min_x)) (of_int width) in
  let pixel_size_y := fdiv (to_float32 (fsub max_y min_y)) (of_int height) in
  let x := tid mod width in
  let y := fdiv (of_int tid) (of_int width) in
  let real := fadd min_x (fmul (of_int x) pixel_size_x) in
  let imag := fadd min_y (fmul y pixel_size_y) in
  let c := Complex real imag in
  let z := czero in
  Int.uint8 (mandelbrot_loop c z 0 (Z.to_nat iters)).

(** [create_fractal_ufunc]: one [tid] per pixel; note the order in which
    [height] and [width] are handed to [mandel]. *)
Definition create_fractal_ufunc (min_x max_x min_y max_y : F)
    (width height : nat) (iters : Z) : list Z :=
  let tids := map (fun t => Int.uint32 (Z.of_nat t)) (seq 0 (width * height)) in
  map (fun tid =>
         mandel tid
                (to_float32 min_x)
                (to_float32 max_x)
                (to_float32 min_y)
                (to_float32 max_y)
                (Int.uint32 (Z.of_nat height))
                (Int.uint32 (Z.of_nat width))
                (Int.uint32 iters))
      tids.

(** The iterate after [k] updates [z <- z*z + c], from [z = 0]. *)
Fixpoint iterate (c : complex) (k : nat) : complex :=
  match k with
  | O => czero
  | S k' => let z := iterate c k' in cadd (cmul z z) c
  end.

(** The colour both [create_fractal] and [create_fractal_gpu] compute for
    the pixel of column [x] and row [y] of a [height] x [width] image. *)
Definition pixel_color (min_x max_x min_y max_y : F) (height width : nat)
    (iters : Z) (x y : nat) : Z :=
  let pixel_size_x := fdiv (fsub max_x min_x) (of_int (Z.of_nat width)) in
  let pixel_size_y := fdiv (fsub max_y min_y) (of_int (Z.of_nat height)) in
  let real := fadd min_x (fmul (of_int (Z.of_nat x)) pixel_size_x) in
  let imag := fadd min_y (fmul (of_int (Z.of_nat y)) pixel_size_y) in
  mandelbrot real imag iters.
End Generic.

(** The stores [image[y, x] = color x y] for the positions [(x, y)] of
    [writes], in that order, on the flat data of an image [width] wide. *)
Definition paint (color : nat -> nat -> Z) (width : nat)
    (writes : list (nat * nat)) (data : list Z) : list Z :=
  foldl (fun d pos => <[(pos.2 * width + pos.1)%nat :=
                          Int.uint8 (color pos.1 pos.2)]> d) data writes.

(** The guard of the kernel: the thread's position is a pixel. *)
Definition in_image (height width : nat) (pos : nat * nat) : Prop :=
  (pos.1 < width /\ pos.2 < height)%nat.

(** The positions [create_fractal] visits: column by column. *)
Definition column_major (height width : nat) : list (nat * nat) :=
  flat_map (fun x => map (fun y => (x, y)) (seq 0 height)) (seq 0 width).

End Mandelbrot.

(** ** The vector-add kernel *)

Module AddKernel.

Section WithDType.
Context {T : Type} `{DType T}.

(** One trip of the loop, [out[i] = x[i] + y[i]]; an index outside one of
    the three arrays is an out-of-bounds access ([None]). *)
Definition add_body (x y : list T) (i : nat) (out : list T)
    : option (list T) :=
  xi ← x !! i;
  yi ← y !! i;
  if decide (i < length out)%nat
  then Some (<[i := dtype_add xi yi]> out) else None.

(** [add_kernel], the thread [threadIdx.x = tx] of block
    [blockIdx.x = ty] in a launch with [blockDim.x = block_size] and
    [gridDim.x = grid_size]. *)
Definition add_kernel (block_size grid_size : nat) (x y : list T)
    (thread : nat * nat) (out : list T) : option (list T) :=
  let tx := thread.1 in
  let ty := thread.2 in
  let start := (tx + ty * block_size)%nat in
  let stride := (block_size * grid_size)%nat in
  foldl (fun out i => out ≫= add_body x y i) (Some out)
        (Py.range start (length x) stride).

(** The second version of [add_kernel] in the notebook, written with
    [cuda.grid(1)] and [cuda.gridsize(1)]. *)
Definition add_kernel_grid (block_size grid_size : nat) (x y : list T)
    (thread : nat * nat) (out : list T) : option (list T) :=
  let start := Cuda.grid block_size thread in
  let stride := Cuda.gridsize block_size grid_size in
  foldl (fun out i => out ≫= add_body x y i) (Some out)
        (Py.range start (length x) stride).

(** The loop trips of the threads carried out in the order [trace] of the
    indices they store to. *)
Definition run_stores (x y : list T) (trace : list nat) (out : list T)
    : option (list T) :=
  foldl (fun out i => out ≫= add_body x y i) (Some out) trace.

(** The value [x[i] + y[i]], when both elements exist. *)
Definition sum_at (x y : list T) (i : nat) : option T :=
  xi ← x !! i; yi ← y !! i; Some (dtype_add xi yi).

(** The whole launch, one thread after the other in the order
    [schedule]; an out-of-bounds access of any thread makes it fail. *)
Definition launch (block_size grid_size : nat) (x y : list T)
    (schedule : list (nat * nat)) (out : list T) : option (list T) :=
  Cuda.run (fun thread out => out ≫= add_kernel block_size grid_size x y thread)
           schedule (Some out).
End WithDType.

(** The output indices the thread [(tx, ty)] stores to. *)
Definition writes (block_size grid_size n : nat) (thread : nat * nat)
    : list nat :=
  Py.range (thread.1 + thread.2 * block_size) n (block_size * grid_size).

End AddKernel.

(** ** The two thread counters *)

Module Counter.

(** What a thread does to global memory, one indivisible step at a time.
    [cuda.atomic.add(a, offset, v)] is a single read-modify-write;
    [a[offset] += v] is a load into a register of the thread followed, at a
    later step, by the store of the register plus [v]. *)
Inductive instr :=
| AtomicAdd (offset : nat) (v : Z)
| Load (offset : nat)
| AddStore (offset : nat) (v : Z).

Record thread := Thread { code : list instr; reg : Z }.

(** One step of one thread on an int32 array; [None] when [offset] is out
    of bounds. *)
Definition exec (i : instr) (r : Z) (mem : list Z) : option (Z * list Z) :=
  match i with
  | AtomicAdd offset v =>
      old ← mem !! offset; Some (r, <[offset := Int.int32 (old + v)]> mem)
  | Load offset =>
      old ← mem !! offset; Some (old, mem)
  | AddStore offset v =>
      _ ← mem !! offset; Some (r, <[offset := Int.int32 (r + v)]> mem)
  end.

(** [thread_counter_race_condition]: [global_counter[0] += 1]. *)
Definition thread_counter_race_condition : list instr :=
  [Load 0; AddStore 0 1].

(** [thread_counter_safe]: [cuda.atomic.add(global_counter, 0, 1)]. *)
Definition thread_counter_safe : list instr := [AtomicAdd 0 1].

(** The machine: global memory and the threads of the launch.  A step runs
    the next instruction of any thread that has one left. *)
Definition machine : Type := list Z * list thread.

Inductive step : machine -> machine -> Prop :=
| step_thread mem ts (k : nat) i rest r r' mem' :
    ts !! k = Some (Thread (i :: rest) r) ->
    exec i r mem = Some (r', mem') ->
    step (mem, ts) (mem', <[k := Thread rest r']> ts).

Definition finished (m : machine) : Prop :=
  Forall (fun t => code t = []) m.2.

(** [kernel[blocks, threads](global_counter)] *)
Definition launch (blocks threads : nat) (kernel : list instr)
    (global_counter : list Z) : machine :=
  (global_counter, replicate (blocks * threads) (Thread kernel 0)).

(** Instructions still to run. *)
Fixpoint remaining (ts : list thread) : nat :=
  match ts with
  | [] => 0%nat
  | t :: ts => (length (code t) + remaining ts)%nat
  end.

(** The invariant of a launch of [thread_counter_safe] on a counter that
    starts at zero: the counter plus the increments still to come is the
    number of threads. *)
Definition safe_inv (n : nat) (m : machine) : Prop :=
  exists c : Z,
    m.1 = [c] /\
    Forall (fun t => code t = [] \/ code t = thread_counter_safe) m.2 /\
    c + Z.of_nat (remaining m.2) = Z.of_nat n /\
    0 <= c.

End Counter.

(** ** The histogram, sequential and as a kernel *)

Module Histogram.

(** [histogram_out[bin_number] += 1] on an int32 array, which is also what
    [cuda.atomic.add(histogram_out, bin_number, 1)] does in one step. *)
Definition incr (count : Z) : Z := Int.int32 (count + 1).

(** [bin_number >= 0 and bin_number < histogram_out.shape[0]] *)
Definition in_range (nbins : nat) (bin_number : Z) : bool :=
  (0 <=? bin_number) && (bin_number <? Z.of_nat nbins).

(** The guarded increment both versions end with. *)
Definition count_in (bin_number : Z) (histogram_out : list Z) : list Z :=
  if in_range (length histogram_out) bin_number
  then alter incr (Z.to_nat bin_number) histogram_out
  else histogram_out.

Section WithArith.
Context {F : Type} `{Arith F}.

(** [bin_width = (xmax - xmin) / nbins] *)
Definition bin_width (xmin xmax : F) (nbins : nat) : F :=
  fdiv (fsub xmax xmin) (of_int (Z.of_nat nbins)).

(** [np.int32((element - xmin) / bin_width)] *)
Definition bin_of (xmin bin_width element : F) : Z :=
  to_int32 (fdiv (fsub element xmin) bin_width).

(** [cpu_histogram]; the result is the contents of the two arrays [x] and
    [histogram_out] when the call returns. *)
Definition cpu_histogram (x : list F) (xmin xmax : F)
    (histogram_out : list Z) : list F * list Z :=
  let nbins := length histogram_out in
  let bin_width := bin_width xmin xmax nbins in
  (x,
   foldl (fun histogram_out element =>
            let bin_number := bin_of xmin bin_width element in
            count_in bin_number histogram_out)
         histogram_out x).

(** [cuda_histogram], the thread at [cuda.grid(1) = x_idx].  The lookup
    [x !! x_idx] succeeds exactly when [x_idx < x.shape[0]].  The
    operations are those of the arithmetic the kernel is compiled for, which
    need not be the host's: for float32 arguments Numba divides in float64
    ([Float32.numba]) where NumPy keeps float32 ([Float32.arith]). *)
Definition cuda_histogram (x : list F) (xmin xmax : F)
    (x_idx : nat) (histogram_out : list Z) : list Z :=
  let nbins := length histogram_out in
  let bin_width := bin_width xmin xmax nbins in
  match x !! x_idx with
  | Some element =>
      let bin_number := bin_of xmin bin_width element in
      count_in bin_number histogram_out
  | None => histogram_out
  end.

(** The bin numbers computed for the elements of [x], in order. *)
Definition bins_of (x : list F) (xmin xmax : F) (nbins : nat) : list Z :=
  map (bin_of xmin (bin_width xmin xmax nbins)) x.
End WithArith.

(** How many of [bins] are the bin [j]. *)
Definition count_bin (j : nat) (bins : list Z) : nat :=
  length (filter (fun b => b = Z.of_nat j) bins).

(** How many of [bins] pass the guard of a histogram of [nbins] bins. *)
Definition count_in_range (nbins : nat) (bins : list Z) : nat :=
  length (filter (fun b => in_range nbins b = true) bins).

(** The guarded increments for a sequence of bin numbers, in order. *)
Definition tally (bins : list Z) (histogram_out : list Z) : list Z :=
  foldl (fun h b => count_in b h) histogram_out bins.

(** The sum of all bins. *)
Definition total (histogram : list Z) : Z := foldr Z.add 0 histogram.

End Histogram.

(** ** The sum reduction *)

Module Reduce.

(** [@cuda.reduce def sum_reduce(a, b): return a + b], the [+] being that of
    the array's element type. *)
Definition sum_reduce {T : Type} `{DType T} (a b : T) : T := dtype_add a b.

(** Modelled from the spec: the kernel that [@cuda.reduce] generates is
    Numba's and outside the repository.  The specification speaks of "how
    the reduction tree groups or orders the operands": a reduction combines
    the values it is given by some binary tree with the values at its
    leaves. *)
Inductive tree (T : Type) : Type :=
| Leaf (v : T)
| Node (l r : tree T).
Arguments Leaf {T} v.
Arguments Node {T} l r.

Fixpoint eval {T : Type} (op : T -> T -> T) (t : tree T) : T :=
  match t with
  | Leaf v => v
  | Node l r => op (eval op l) (eval op r)
  end.

Fixpoint leaves {T : Type} (t : tree T) : list T :=
  match t with
  | Leaf v => [v]
  | Node l r => leaves l ++ leaves r
  end.

(** The sequential left-to-right sum of an array,
    [((init op a0) op a1) op ...], from the initial value [init] of the
    reduction ([0] in [sum_reduce(A)]); for an empty array it is [init]. *)
Definition sequential {T : Type} (op : T -> T -> T) (init : T)
    (arr : list T) : T :=
  foldl op init arr.

(** Modelled from the spec: the values reducing [arr] may return.  An empty
    array gives [init]; otherwise some tree is evaluated whose leaves are the
    elements in some order, with [init] among them or left out. *)
Definition reduces {T : Type} (op : T -> T -> T) (init : T)
    (arr : list T) (v : T) : Prop :=
  (arr = [] /\ v = init) \/
  exists t : tree T,
    (leaves t ≡ₚ arr \/ leaves t ≡ₚ init :: arr) /\ v = eval op t.

(** The [+] of NumPy's integer dtypes, [w] bits wide, signed or unsigned:
    the sum wraps around. *)
Definition int_dtype (signed : bool) (w : Z) : DType Z :=
  fun a b =>
    if signed then Int.wrap_signed w (a + b) else Int.wrap_unsigned w (a + b).

(** The values of such a dtype. *)
Definition is_int (signed : bool) (w : Z) (v : Z) : Prop :=
  if signed then - 2 ^ (w - 1) <= v < 2 ^ (w - 1) else 0 <= v < 2 ^ w.

End Reduce.

(** ** Monte Carlo pi *)

Module MonteCarloPi.

Section WithArith.
Context {F : Type} `{Arith F}.

(** The generator: the state of one thread's xoroshiro128+ stream and the
    step that draws a uniform float32 from it. *)
Context {rng_state : Type} (next_float32 : rng_state -> rng_state * F).

(** [xoroshiro128p_uniform_float32(states, index)]: draws from the stream of
    thread [index] and advances it in place. *)
Definition xoroshiro128p_uniform_float32 (states : list rng_state)
    (index : nat) : option (F * list rng_state) :=
  s ← states !! index;
  let '(s', v) := next_float32 s in
  Some (v, <[index := s']> states).

(** [x**2 + y**2 <= 1.0].  The draws [x] and [y] are float32, so the two
    squares and their sum are float32 operations: each is the operation of
    the interface followed by the cast [np.float32], which rounds to the
    float32 nearest the exact result.  The comparison with the float64
    literal [1.0] converts its float32 operand exactly. *)
Definition in_circle (x y : F) : bool :=
  fle (to_float32 (fadd (to_float32 (fmul x x)) (to_float32 (fmul y y))))
      (of_int 1).

(** The loop [for i in range(iterations)], with [n] trips left. *)
Fixpoint pi_loop (n : nat) (tid : nat) (rng_states : list rng_state)
    (inside : Z) : option (Z * list rng_state) :=
  match n with
  | O => Some (inside, rng_states)
  | S n' =>
      '(x, rng_states) ← xoroshiro128p_uniform_float32 rng_states tid;
      '(y, rng_states) ← xoroshiro128p_uniform_float32 rng_states tid;
      let inside := if in_circle x y then inside + 1 else inside in
      pi_loop n' tid rng_states inside
  end.

(** [compute_pi], the thread at [cuda.grid(1) = tid]; [out] is a float32
    array.  The result is the two arrays after the thread has run, [None]
    when [tid] is outside one of them. *)
Definition compute_pi (rng_states : list rng_state) (iterations : Z)
    (tid : nat) (out : list F) : option (list rng_state * list F) :=
  '(inside, rng_states) ← pi_loop (Z.to_nat iterations) tid rng_states 0;
  if decide (tid < length out)%nat
  then Some (rng_states,
             <[tid := to_float32 (fdiv (fmul (of_int 4) (of_int inside))
                                       (of_int iterations))]> out)
  else None.

(** The first [n] pairs a stream yields, and the state it is left in. *)
Fixpoint draw_pairs (s : rng_state) (n : nat) : list (F * F) * rng_state :=
  match n with
  | O => ([], s)
  | S n' =>
      let '(s1, x) := next_float32 s in
      let '(s2, y) := next_float32 s1 in
      let '(pairs, s') := draw_pairs s2 n' in
      ((x, y) :: pairs, s')
  end.

(** How many of the pairs lie inside the unit circle. *)
Definition count_inside (pairs : list (F * F)) : Z :=
  Z.of_nat (length (filter (fun p => in_circle p.1 p.2 = true) pairs)).
End WithArith.

(** A toy generator to run [compute_pi] with: a linear congruential stream
    over sixteen states, each yielding a multiple of 1/16 in [0, 1). *)
Definition lcg_next (s : Z) : Z * Q :=
  ((5 * s + 3) mod 16, Qmake (s mod 16) 16).

(** The same stream yielding binary64 floats. *)
Definition lcg_next_float (s : Z) : Z * float :=
  ((5 * s + 3) mod 16, PrimFloat.div (Float64.of_int (s mod 16)) 16%float).

End MonteCarloPi.

(** ** The racy counter: what is still to be stored *)

Module CounterRace.
Import Counter.

(** The threads that have not finished: each still owes its store. *)
Fixpoint stores_left (ts : list thread) : nat :=
  match ts with
  | [] => 0%nat
  | t :: ts =>
      ((match code t with [] => 0 | _ :: _ => 1 end) + stores_left ts)%nat
  end.

(** The invariant of a launch of [n] threads of
    [thread_counter_race_condition] on a counter that starts at zero: the
    counter, and every value a thread has loaded, is at most the number of
    stores already done, and the counter is at least 1 once a store has
    been done. *)
Definition race_inv (n : nat) (m : machine) : Prop :=
  exists c : Z,
    m.1 = [c] /\
    0 <= c /\
    c + Z.of_nat (stores_left m.2) <= Z.of_nat n /\
    ((stores_left m.2 < n)%nat -> 1 <= c) /\
    Forall (fun t =>
              code t = [] \/
              (code t = thread_counter_race_condition /\ reg t = 0) \/
              (code t = [AddStore 0 1] /\
               0 <= reg t /\
               reg t + Z.of_nat (stores_left m.2) <= Z.of_nat n))
           m.2.

End CounterRace.

(** ** The histogram kernel of the debugging notebook *)

Module DebugHistogram.

Section WithArith.
Context {F : Type} `{Arith F}.

(** [np.int32((x[i] + xmin) / bin_width)], with the [+] the notebook then
    tracks down in the debugger. *)
Definition bin_plus (xmin bin_width element : F) : Z :=
  to_int32 (fdiv (fadd element xmin) bin_width).

(** One trip of the kernel's loop, for the index [i]. *)
Definition histogram_body (x : list F) (xmin bin_width : F)
    (histogram_out : list Z) (i : nat) : list Z :=
  match x !! i with
  | Some element =>
      let bin_number := bin_plus xmin bin_width element in
      Histogram.count_in bin_number histogram_out
  | None => histogram_out
  end.

(** [histogram], the thread [(threadIdx.x, blockIdx.x)]: a grid-stride
    loop of guarded atomic increments.  (The [set_trace()] of the first
    thread stops in the debugger and changes nothing.) *)
Definition histogram (block_size grid_size : nat) (x : list F)
    (xmin xmax : F) (thread : nat * nat) (histogram_out : list Z) : list Z :=
  let nbins := length histogram_out in
  let bin_width := Histogram.bin_width xmin xmax nbins in
  let start := Cuda.grid block_size thread in
  let stride := Cuda.gridsize block_size grid_size in
  foldl (histogram_body x xmin bin_width) histogram_out
        (Py.range start (length x) stride).
End WithArith.

End DebugHistogram.

(** ** The small kernels of the porting notebook *)

Module Porting.

(** [increment_kernel], the thread at [i = cuda.grid(1)]:
    [g_data[i] = g_data[i] + inc_value] on an int32 array.  The Python int
    [inc_value] is an int64, the sum is an int64 and the store casts it back
    to int32.  There is no guard: a thread beyond the array makes an
    out-of-bounds access ([None]). *)
Definition increment_kernel (inc_value : Z) (i : nat) (g_data : list Z)
    : option (list Z) :=
  v ← g_data !! i;
  Some (<[i := Int.int32 (Int.int64 (v + inc_value))]> g_data).

(** [increment_kernel[nblocks, nthreads](d_a, inc_value)], the threads one
    after the other in the order [schedule]. *)
Definition increment_launch (inc_value : Z) (schedule : list nat)
    (g_data : list Z) : option (list Z) :=
  Cuda.run (fun i d => d ≫= increment_kernel inc_value i) schedule
           (Some g_data).

(** [add_one], the thread at [i = cuda.grid(1)], on an int64 array:
    [if i < len(x): x[i] += 1]. *)
Definition add_one (i : nat) (x : list Z) : list Z :=
  if (i <? length x)%nat then
    match x !! i with
    | Some v => <[i := Int.int64 (v + 1)]> x
    | None => x
    end
  else x.

End Porting.

(** ** Generalized ufuncs: [@guvectorize] with layout [(n),()->(n)] *)

Module Gufunc.

(** One trip of the loop of [g]: [res[i] = x[i] + y[0]], on int64 arrays. *)
Definition g_body (x y : list Z) (res : option (list Z)) (i : nat)
    : option (list Z) :=
  res ← res;
  xi ← x !! i;
  y0 ← y !! 0%nat;
  if decide (i < length res)%nat
  then Some (<[i := Int.int64 (xi + y0)]> res) else None.

(** [g(x, y, res)], [for i in range(x.shape[0])]; the scalar [y] arrives as
    an array of one element. *)
Definition g (x y res : list Z) : option (list Z) :=
  foldl (g_body x y) (Some res) (seq 0 (length x)).

Section MoveMean.
Context {F : Type} `{Arith F}.

(** The local variables [asum] and [count] and the output array. *)
Definition mean_state : Type := F * Z * list F.

(** The first loop, [for i in range(window_width)]:
    [asum += a[i]; count += 1; out[i] = asum / count]. *)
Definition fill_body (a : list F) (st : option mean_state) (i : nat)
    : option mean_state :=
  '(asum, count, out) ← st;
  ai ← a !! i;
  let asum := fadd asum ai in
  let count := Int.int64 (count + 1) in
  if decide (i < length out)%nat
  then Some (asum, count, <[i := fdiv asum (of_int count)]> out) else None.

(** The second loop, [for i in range(window_width, len(a))]:
    [asum += a[i] - a[i - window_width]; out[i] = asum / count]. *)
Definition slide_body (a : list F) (window_width : nat)
    (st : option mean_state) (i : nat) : option mean_state :=
  '(asum, count, out) ← st;
  ai ← a !! i;
  aw ← a !! (i - window_width)%nat;
  let asum := fadd asum (fsub ai aw) in
  if decide (i < length out)%nat
  then Some (asum, count, <[i := fdiv asum (of_int count)]> out) else None.

(** [move_mean(a, window_arr, out)] for a window of [window_width >= 1]
    elements; an index outside [a] or [out] is an out-of-bounds access
    ([None]). *)
Definition move_mean (a : list F) (window_width : nat) (out : list F)
    : option (list F) :=
  let st := foldl (fill_body a) (Some (of_int 0, 0, out))
                  (seq 0 window_width) in
  let st := foldl (slide_body a window_width) st
                  (seq window_width (length a - window_width)) in
  '(_, _, out) ← st; Some out.

(** The sum [((0.0 + v0) + v1) + ...], added up from the left as the loops
    do. *)
Definition sum_left (values : list F) : F := foldl fadd (of_int 0) values.
End MoveMean.

(** The sum of integers and the sum of their magnitudes. *)
Definition zsum (values : list Z) : Z := foldr Z.add 0 values.

Definition abs_sum (values : list Z) : Z :=
  foldr (fun v s => Z.abs v + s) 0 values.

(** What a floating-point arithmetic does on integers of small magnitude:
    their sums and differences are computed without error as long as they
    stay within [bound] (in binary64, for every bound up to [2^53]). *)
Definition exact_on_integers {F : Type} (A : Arith F) (bound : Z) : Prop :=
  forall m n : Z,
    Z.abs m <= bound -> Z.abs n <= bound ->
    (Z.abs (m + n) <= bound -> fadd (of_int m) (of_int n) = of_int (m + n)) /\
    (Z.abs (m - n) <= bound -> fsub (of_int m) (of_int n) = of_int (m - n)).

End Gufunc.

(** The rationals, without rounding. *)
Module Exact.

Definition arith : Arith Qc := {|
  fadd := Qcplus;
  fsub := Qcminus;
  fmul := Qcmult;
  fdiv := Qcdiv;
  fle a b := Qle_bool a b;
  of_int z := Q2Qc (inject_Z z);
  to_int32 q := Rounded.cast_int32 q;
  to_float32 q := q
|}.

End Exact.

(** ** Rounding to the nearest integer *)

(** [math.floor] on floats, as the device function [rint] uses it: the
    result is again a float. *)
Class Floor (F : Type) := ffloor : F -> F.

Module Rounding.

(** [floor] of a binary64: a float with a non-negative exponent is an
    integer already; otherwise the integer part, rounded down, is below
    [2^53] in magnitude and converts exactly.  Zeros, NaN and infinities are
    returned as they are. *)
Definition float64_floor (f : float) : float :=
  match Prim2SF f with
  | S754_finite s m e =>
      if 0 <=? e then f
      else Float64.of_int (cond_Zopp s (Z.pos m) / 2 ^ (- e))
  | _ => f
  end.

#[global] Instance floor64 : Floor float := float64_floor.

(** [floor] of a rational. *)
Definition exact_floor : Floor Qc := fun q => Q2Qc (inject_Z (Qfloor q)).

Section WithArith.
Context {F : Type} `{Arith F} `{Floor F}.

(** [a > b] and [a == b] in terms of [<=]; like the comparisons of IEEE
    floats, both are false when [a] and [b] are unordered. *)
Definition fgt (a b : F) : bool := fle b a && negb (fle a b).
Definition feq (a b : F) : bool := fle a b && fle b a.

(** The literal [0.5]. *)
Definition half : F := fdiv (of_int 1) (of_int 2).

(** [rint(x)]: round to the nearest integer, as a float. *)
Definition rint (x : F) : F :=
  let y := ffloor x in
  let r := fsub x y in
  let y := if fgt r half then fadd y (of_int 1) else y in
  if feq r half then
    let r := fsub y (fmul (of_int 2) (ffloor (fmul half y))) in
    if feq r (of_int 1) then fadd y (of_int 1) else y
  else y.
End WithArith.

End Rounding.

(** ** The launch of [compute_pi] *)

Module MonteCarloPiLaunch.
Import MonteCarloPi.

Section WithArith.
Context {F : Type} `{Arith F}.
Context {rng_state : Type} (next_float32 : rng_state -> rng_state * F).

(** [compute_pi[nblocks, nthreads](rng_states, iterations, out)], the
    threads one after the other in the order [schedule], all on the same two
    arrays. *)
Definition launch (rng_states : list rng_state) (iterations : Z)
    (schedule : list nat) (out : list F)
    : option (list rng_state * list F) :=
  Cuda.run (fun tid arrays =>
              '(rng_states, out) ← arrays;
              compute_pi next_float32 rng_states iterations tid out)
           schedule (Some (rng_states, out)).

(** The estimate a thread computes from the stream that starts in the state
    [s]. *)
Definition estimate (iterations : Z) (s : rng_state) : F :=
  let pairs := (draw_pairs next_float32 s (Z.to_nat iterations)).1 in
  to_float32 (fdiv (fmul (of_int 4) (of_int (count_inside pairs)))
                   (of_int iterations)).
End WithArith.

End MonteCarloPiLaunch.

(** ** The escape count, as the specification words it *)

Module MandelbrotSpec.

Section Generic.
Context {F : Type} `{Arith F}.

(** The iterates of the specification by their real and imaginary parts:
    [z_0 = 0] and [z_(k+1) = z_k * z_k + c] for [c = cr + ci i], the
    product and the sum of complex numbers written out. *)
Fixpoint orbit (cr ci : F) (k : nat) : F * F :=
  match k with
  | O => (of_int 0, of_int 0)
  | S k' =>
      let '(zr, zi) := orbit cr ci k' in
      (fadd (fsub (fmul zr zr) (fmul zi zi)) cr,
       fadd (fadd (fmul zr zi) (fmul zi zr)) ci)
  end.
End Generic.

End MandelbrotSpec.

(** ** float32 inputs under NumPy and under Numba *)

Module Float32.

(** NumPy on float32 scalars, keeping the precision of its operands: every
    operation rounds to float32, and so does the conversion of an integer
    operand. *)
Definition arith : Arith float := {|
  fadd a b := Float64.to_float32 (PrimFloat.add a b);
  fsub a b := Float64.to_float32 (PrimFloat.sub a b);
  fmul a b := Float64.to_float32 (PrimFloat.mul a b);
  fdiv a b := Float64.to_float32 (PrimFloat.div a b);
  fle := PrimFloat.leb;
  of_int z := Float64.to_float32 (Float64.of_int z);
  to_int32 := Float64.to_int32;
  to_float32 := Float64.to_float32
|}.


End Float32.

(** * Properties *)

(** ** Fixed-width integers *)

Module IntFacts.
Import Int.

Lemma int32_id v : is_int32 v -> int32 v = v.
Proof.
  unfold is_int32, int32, wrap_signed. intros Hv.
  change (2 ^ (32 - 1)) with 2147483648 in *.
  change (2 ^ 31) with 2147483648 in *.
  change (2 ^ 32) with 4294967296.
  rewrite Z.mod_small; lia.
Qed.

Lemma int16_is_int32 v : is_int16 v -> is_int32 v.
Proof. unfold is_int16, is_int32. lia. Qed.

Lemma int32_range v : is_int32 (int32 v).
Proof.
  unfold is_int32, int32, wrap_signed.
  change (2 ^ (32 - 1)) with 2147483648.
  change (2 ^ 31) with 2147483648.
  change (2 ^ 32) with 4294967296.
  pose proof (Z.mod_pos_bound (v + 2147483648) 4294967296). lia.
Qed.

(** Adding through the wrap: the wrap of a sum only depends on the wraps. *)
Lemma int32_add_l a b : int32 (int32 a + b) = int32 (a + b).
Proof.
  unfold int32, wrap_signed.
  change (2 ^ (32 - 1)) with 2147483648.
  change (2 ^ 32) with 4294967296.
  f_equal.
  replace ((a + 2147483648) mod 4294967296 - 2147483648 + b + 2147483648)
    with ((a + 2147483648) mod 4294967296 + b) by lia.
  rewrite Zplus_mod_idemp_l. f_equal. lia.
Qed.

Lemma int64_add_l a b : int64 (int64 a + b) = int64 (a + b).
Proof.
  unfold int64, wrap_signed.
  change (2 ^ (64 - 1)) with 9223372036854775808.
  change (2 ^ 64) with 18446744073709551616.
  f_equal.
  replace ((a + 9223372036854775808) mod 18446744073709551616
           - 9223372036854775808 + b + 9223372036854775808)
    with ((a + 9223372036854775808) mod 18446744073709551616 + b) by lia.
  rewrite Zplus_mod_idemp_l. f_equal. lia.
Qed.

Lemma int64_add_r a b : int64 (a + int64 b) = int64 (a + b).
Proof. rewrite (Z.add_comm a), int64_add_l. f_equal. lia. Qed.

End IntFacts.

(** ** Ufuncs *)

Module UfuncProofs.
Import Ufunc.

Lemma vectorize_same_length {A B C} (f : A -> B -> C) a b :
  length a = length b -> vectorize f a b = Some (zip_with f a b).
Proof. intros Hl. unfold vectorize. case_decide; [done | contradiction]. Qed.

(** C8: on arrays of equal length the ufunc [rel_diff] returns an array of
    that length whose i-th element is the scalar body applied to the i-th
    elements of the inputs, [2 * (a[i] - b[i]) / (a[i] + b[i])]: for arrays
    of floats in the arithmetic of their dtype, and for int64 arrays with
    the int64 difference, product and sum divided as floats. *)
Theorem rel_diff_elementwise {F} `{Arith F} (a b : list F) (m n : list Z) :
  length a = length b -> length m = length n ->
  (exists out,
      rel_diff a b = Some out /\
      length out = length a /\
      forall (i : nat) (x y : F),
        a !! i = Some x -> b !! i = Some y ->
        out !! i = Some (fdiv (fmul (of_int 2) (fsub x y)) (fadd x y))) /\
  (exists out,
      rel_diff_int64 m n = Some out /\
      length out = length m /\
      forall (i : nat) (x y : Z),
        m !! i = Some x -> n !! i = Some y ->
        out !! i = Some (fdiv (of_int (Int.int64 (2 * Int.int64 (x - y))))
                              (of_int (Int.int64 (x + y))))).
Proof.
  intros Hl Hl'. split.
  - exists (zip_with rel_diff_scalar a b). split; [|split].
    + by apply vectorize_same_length.
    + rewrite length_zip_with. lia.
    + intros i x y Ha Hb. rewrite lookup_zip_with, Ha. simpl.
      rewrite Hb. done.
  - exists (zip_with rel_diff_scalar_int64 m n). split; [|split].
    + by apply vectorize_same_length.
    + rewrite length_zip_with. lia.
    + intros i x y Hm Hn. rewrite lookup_zip_with, Hm. simpl.
      rewrite Hn. done.
Qed.

Lemma zero_suppress_scalar_spec w t :
  Int.is_int16 w ->
  zero_suppress_scalar w t = if w <? t then 0 else w.
Proof.
  intros Hw. unfold zero_suppress_scalar.
  destruct (w <? t); apply IntFacts.int32_id.
  - unfold Int.is_int32. lia.
  - by apply IntFacts.int16_is_int32.
Qed.

(** C9: for an int16 sample and an int32 threshold, [zero_suppress] returns
    0 below the threshold and the sample itself otherwise; so every output
    is 0 or at least the threshold, and a sample above the threshold is
    never altered. *)
Theorem zero_suppress_spec (waveform_value threshold : Z) :
  Int.is_int16 waveform_value -> Int.is_int32 threshold ->
  (waveform_value < threshold ->
     zero_suppress_scalar waveform_value threshold = 0) /\
  (threshold <= waveform_value ->
     zero_suppress_scalar waveform_value threshold = waveform_value) /\
  (zero_suppress_scalar waveform_value threshold = 0 \/
   threshold <= zero_suppress_scalar waveform_value threshold) /\
  (threshold < waveform_value ->
     zero_suppress_scalar waveform_value threshold = waveform_value).
Proof.
  intros Hw _. rewrite zero_suppress_scalar_spec by done.
  destruct (Z.ltb_spec waveform_value threshold); repeat split; try lia.
Qed.

Lemma rel_diff_elementwise_witness :
  (exists out,
      rel_diff [0; 1; 2]%float [1; 3; 5]%float = Some out /\
      length out = length [0; 1; 2]%float /\
      forall (i : nat) (x y : float),
        [0; 1; 2]%float !! i = Some x -> [1; 3; 5]%float !! i = Some y ->
        out !! i = Some (fdiv (fmul (of_int 2) (fsub x y)) (fadd x y))) /\
  (exists out : list float,
      rel_diff_int64 [0; 1; 2] [1; 3; 5] = Some out /\
      length out = length [0; 1; 2] /\
      forall (i : nat) (x y : Z),
        [0; 1; 2] !! i = Some x -> [1; 3; 5] !! i = Some y ->
        out !! i = Some (fdiv (of_int (Int.int64 (2 * Int.int64 (x - y))))
                              (of_int (Int.int64 (x + y))))).
Proof.
  apply (rel_diff_elementwise [0; 1; 2]%float [1; 3; 5]%float
           [0; 1; 2] [1; 3; 5]); reflexivity.
Defined.

Lemma zero_suppress_spec_witness :
  (20 < 15 -> zero_suppress_scalar 20 15 = 0) /\
  (15 <= 20 -> zero_suppress_scalar 20 15 = 20) /\
  (zero_suppress_scalar 20 15 = 0 \/ 15 <= zero_suppress_scalar 20 15) /\
  (15 < 20 -> zero_suppress_scalar 20 15 = 20).
Proof.
  apply (zero_suppress_spec 20 15).
  - unfold Int.is_int16. lia.
  - unfold Int.is_int32. lia.
Defined.

End UfuncProofs.

(** ** The Mandelbrot escape count *)

Module MandelbrotProofs.
Import Mandelbrot.

Section Generic.
Context {F : Type} `{Arith F}.

(** What the escape loop returns when it is entered at index [k] with the
    [k]-th iterate: the first index from [k] on whose update escapes, or 255
    when none of the [n] remaining indices does. *)
Lemma mandelbrot_loop_first (c : complex) (n k : nat) :
  (exists j : nat,
      (k <= j < k + n)%nat /\
      escaped (iterate c (S j)) = true /\
      (forall j' : nat, (k <= j' < j)%nat ->
                        escaped (iterate c (S j')) = false) /\
      mandelbrot_loop c (iterate c k) (Z.of_nat k) n = Z.of_nat j)
  \/
  ((forall j : nat, (k <= j < k + n)%nat ->
                    escaped (iterate c (S j)) = false) /\
   mandelbrot_loop c (iterate c k) (Z.of_nat k) n = 255).
Proof.
  revert k. induction n as [|n IH]; intros k.
  - right. split; [intros j Hj; lia | reflexivity].
  - cbn [mandelbrot_loop].
    change (cadd (cmul (iterate c k) (iterate c k)) c) with (iterate c (S k)).
    destruct (escaped (iterate c (S k))) eqn:Hesc.
    + left. exists k. repeat split; try lia; try done.
    + replace (Z.of_nat k + 1) with (Z.of_nat (S k)) by lia.
      destruct (IH (S k)) as [(j & Hj & Hej & Hbefore & Hret) | [Hnone Hret]].
      * left. exists j. repeat split; try lia; try done.
        intros j' Hj'. destruct (decide (j' = k)) as [->|Hne]; [done|].
        apply Hbefore. lia.
      * right. split; [|done].
        intros j Hj. destruct (decide (j = k)) as [->|Hne]; [done|].
        apply Hnone. lia.
Qed.

(** The iterates of the loop are those of the specification. *)
Lemma iterate_orbit (x y : F) (k : nat) :
  iterate (Complex x y) k
  = Complex (MandelbrotSpec.orbit x y k).1 (MandelbrotSpec.orbit x y k).2.
Proof.
  induction k as [|k IH]; [done|].
  cbn [iterate MandelbrotSpec.orbit]. rewrite IH.
  by destruct (MandelbrotSpec.orbit x y k) as [zr zi].
Qed.

Lemma escaped_orbit (x y : F) (k : nat) :
  escaped (iterate (Complex x y) k)
  = fle (of_int 4)
        (fadd (fmul (MandelbrotSpec.orbit x y k).1
                    (MandelbrotSpec.orbit x y k).1)
              (fmul (MandelbrotSpec.orbit x y k).2
                    (MandelbrotSpec.orbit x y k).2)).
Proof. by rewrite iterate_orbit. Qed.

(** C3: [mandelbrot x y max_iters] is the first loop index [i < max_iters]
    at which the iterate [z], started at 0 and updated by [z <- z*z + c]
    with [c = complex(x, y)], has [4 <= z.real^2 + z.imag^2] right after the
    update, and 255 when there is no such index below [max_iters].  The
    iterates and the escape test are written out here, apart from the
    definitions the loop is built from. *)
Theorem mandelbrot_escape_count (x y : F) (max_iters : Z) :
  let z := fun i : Z => MandelbrotSpec.orbit x y (Z.to_nat (i + 1)) in
  let escapes := fun i : Z =>
    fle (of_int 4) (fadd (fmul (z i).1 (z i).1) (fmul (z i).2 (z i).2)) in
  (exists i : Z,
      0 <= i < max_iters /\
      escapes i = true /\
      (forall j : Z, 0 <= j < i -> escapes j = false) /\
      mandelbrot x y max_iters = i)
  \/
  ((forall i : Z, 0 <= i < max_iters -> escapes i = false) /\
   mandelbrot x y max_iters = 255).
Proof.
  intros z escapes. unfold mandelbrot.
  assert (Hesc : forall k : nat,
             escaped (iterate (Complex x y) (S k)) = escapes (Z.of_nat k)).
  { intros k. rewrite escaped_orbit. unfold escapes, z.
    by replace (Z.to_nat (Z.of_nat k + 1)) with (S k) by lia. }
  destruct (mandelbrot_loop_first (Complex x y) (Z.to_nat max_iters) 0)
    as [(j & Hj & Hej & Hbefore & Hret) | [Hnone Hret]].
  - left. exists (Z.of_nat j). split; [lia|]. split; [by rewrite <- Hesc|].
    split; [|exact Hret].
    intros j' Hj'. rewrite <- (Z2Nat.id j') by lia. rewrite <- Hesc.
    apply Hbefore. lia.
  - right. split; [|exact Hret].
    intros i Hi. rewrite <- (Z2Nat.id i) by lia. rewrite <- Hesc.
    apply Hnone. lia.
Qed.
End Generic.

End MandelbrotProofs.

(** ** The sequential and the kernel renderer agree *)

Module RendererProofs.
Import Mandelbrot.

Lemma paint_cons color width pos writes data :
  paint color width (pos :: writes) data =
    paint color width writes
          (<[(pos.2 * width + pos.1)%nat := Int.uint8 (color pos.1 pos.2)]> data).
Proof. reflexivity. Qed.

Lemma paint_lookup color width writes data (p : nat) :
  Forall (fun pos : nat * nat => (pos.1 < width)%nat) writes ->
  paint color width writes data !! p =
    if decide ((p < length data)%nat /\
               (p mod width, p / width)%nat ∈ writes)
    then Some (Int.uint8 (color (p mod width) (p / width))%nat)
    else data !! p.
Proof.
  intros Hws. revert data. induction Hws as [|[x y] ws Hx Hws IH]; intros data.
  - cbn. case_decide as Hd; [|done]. destruct Hd as [_ Hd]. inversion Hd.
  - rewrite paint_cons, IH.
    rewrite length_insert. cbn [fst snd] in *.
    assert (Hpos : forall q : nat, (q = y * width + x)%nat <->
                     ((q mod width)%nat, (q / width)%nat) = (x, y)).
    { intros q. split.
      - intros ->. f_equal.
        + rewrite Nat.add_comm, Nat.Div0.mod_add. by apply Nat.mod_small.
        + rewrite Nat.add_comm, Nat.div_add by lia.
          rewrite Nat.div_small by done. done.
      - intros [= <- <-]. rewrite (Nat.div_mod_eq q width) at 1. lia. }
    destruct (decide (p = y * width + x)%nat) as [Heq|Hne].
    + pose proof (proj1 (Hpos p) Heq) as Hpair.
      destruct (decide (p < length data)%nat) as [Hlt|Hge].
      * rewrite (decide_True (P := _ /\ _ ∈ (x, y) :: ws)).
        2:{ split; [done|]. rewrite Hpair. left. }
        destruct (decide (_ /\ _ ∈ ws)) as [Hd|Hd]; [done|].
        subst p. rewrite list_lookup_insert_eq by done.
        by injection Hpair as -> ->.
      * rewrite !decide_False by (intros [? _]; lia).
        subst p. rewrite list_insert_ge by lia. done.
    + rewrite list_lookup_insert_ne by done.
      apply decide_ext. split; intros [Hl Hin]; (split; [done|]).
      * by right.
      * apply elem_of_cons in Hin as [Hin|Hin]; [|done].
        apply Hpos in Hin. contradiction.
Qed.

Lemma paint_ext color width ws1 ws2 data :
  Forall (fun pos : nat * nat => (pos.1 < width)%nat) ws1 ->
  Forall (fun pos : nat * nat => (pos.1 < width)%nat) ws2 ->
  (forall pos, pos ∈ ws1 <-> pos ∈ ws2) ->
  paint color width ws1 data = paint color width ws2 data.
Proof.
  intros H1 H2 Hsame. apply list_eq. intros p.
  rewrite !paint_lookup by done.
  apply decide_ext.
  split; intros [? ?]; (split; [done|]); by apply Hsame.
Qed.

Lemma foldl_nested {A B C} (g : A -> B -> C -> A) (xs : list B) (ys : list C) a :
  foldl (fun a x => foldl (fun a y => g a x y) a ys) a xs =
  foldl (fun a p => g a p.1 p.2) a (flat_map (fun x => map (fun y => (x, y)) ys) xs).
Proof.
  revert a. induction xs as [|x xs IH]; intros a; [done|].
  cbn [foldl flat_map]. rewrite foldl_app, IH. f_equal.
  generalize a. clear. induction ys as [|y ys IHy]; intros a; [done|].
  cbn. by rewrite IHy.
Qed.

Lemma foldl_set_pixel color (ws : list (nat * nat)) image :
  foldl (fun im pos => set_pixel im pos.2 pos.1 (color pos.1 pos.2)) image ws =
  NdArray (shape0 image) (shape1 image)
          (paint color (shape1 image) ws (data image)).
Proof.
  revert image. induction ws as [|pos ws IH]; intros image.
  - by destruct image.
  - cbn [foldl]. rewrite IH. by rewrite paint_cons.
Qed.

Lemma column_major_elem height width (x y : nat) :
  (x, y) ∈ column_major height width <-> (x < width /\ y < height)%nat.
Proof.
  unfold column_major. rewrite list_elem_of_In, in_flat_map. split.
  - intros (x' & Hx' & Hin). apply in_map_iff in Hin as (y' & [= <- <-] & Hy').
    apply in_seq in Hx', Hy'. lia.
  - intros [Hx Hy]. exists x. split; [apply in_seq; lia|].
    apply in_map_iff. exists y. split; [done|apply in_seq; lia].
Qed.

Lemma column_major_in_width height width :
  Forall (fun pos : nat * nat => (pos.1 < width)%nat) (column_major height width).
Proof.
  apply Forall_forall. intros [x y] Hin.
  apply column_major_elem in Hin. cbn. lia.
Qed.

Section Generic.
Context {F : Type} `{Arith F}.
Variables (min_x max_x min_y max_y : F) (iters : Z).

Lemma create_fractal_paint image :
  shape1 image <> 0%nat -> shape0 image <> 0%nat ->
  create_fractal min_x max_x min_y max_y image iters =
    Some (NdArray (shape0 image) (shape1 image)
            (paint (pixel_color min_x max_x min_y max_y
                                (shape0 image) (shape1 image) iters)
                   (shape1 image)
                   (column_major (shape0 image) (shape1 image))
                   (data image))).
Proof.
  intros Hw Hh. unfold create_fractal.
  rewrite !decide_False by done. f_equal.
  rewrite <- foldl_set_pixel. unfold column_major.
  rewrite <- (foldl_nested
                (fun im x y =>
                   set_pixel im y x
                     (pixel_color min_x max_x min_y max_y
                                  (shape0 image) (shape1 image) iters x y))).
  reflexivity.
Qed.

Lemma create_fractal_gpu_thread x y image :
  create_fractal_gpu min_x max_x min_y max_y iters (x, y) image =
    if decide (in_image (shape0 image) (shape1 image) (x, y))
    then set_pixel image y x
           (pixel_color min_x max_x min_y max_y
                        (shape0 image) (shape1 image) iters x y)
    else image.
Proof. reflexivity. Qed.

Lemma create_fractal_gpu_paint (schedule : list (nat * nat)) image :
  Cuda.run (create_fractal_gpu min_x max_x min_y max_y iters) schedule image =
    NdArray (shape0 image) (shape1 image)
      (paint (pixel_color min_x max_x min_y max_y
                          (shape0 image) (shape1 image) iters)
             (shape1 image)
             (filter (in_image (shape0 image) (shape1 image)) schedule)
             (data image)).
Proof.
  unfold Cuda.run. revert image.
  induction schedule as [|[x y] sched IH]; intros image.
  - by destruct image.
  - cbn [foldl]. rewrite IH, create_fractal_gpu_thread, filter_cons.
    destruct (decide (in_image (shape0 image) (shape1 image) (x, y)));
      [rewrite paint_cons|]; reflexivity.
Qed.

(** The sequential renderer and the kernel, run by any schedule of
    threads that reaches every pixel, produce the same image. *)
Lemma create_fractal_gpu_agrees (schedule : list (nat * nat)) image :
  shape1 image <> 0%nat -> shape0 image <> 0%nat ->
  (forall x y : nat, (x < shape1 image)%nat -> (y < shape0 image)%nat ->
                     (x, y) ∈ schedule) ->
  create_fractal min_x max_x min_y max_y image iters =
    Some (Cuda.run (create_fractal_gpu min_x max_x min_y max_y iters)
                   schedule image).
Proof.
  intros Hw Hh Hcover.
  rewrite create_fractal_paint, create_fractal_gpu_paint by done.
  do 2 f_equal. apply paint_ext.
  - apply column_major_in_width.
  - apply Forall_forall. intros pos Hin.
    apply list_elem_of_filter in Hin as [[Hx _] _]. exact Hx.
  - intros [x y]. rewrite column_major_elem, list_elem_of_filter.
    unfold in_image. cbn. split; [|tauto].
    intros [Hx Hy]. split; [done|]. by apply Hcover.
Qed.
End Generic.


(** C5 (the code departs from the claim): on a 2 x 2 image of the viewport
    [-2, 1] x [-1, 1] with 20 iterations the sequential renderer and the
    kernel produce the same pixels, while the ufunc renderer, whose row
    coordinate [tid / width] is a true division, colours pixel [0, 1]
    differently. *)
Theorem ufunc_renderer_differs :
  let image := NdArray 2 2 [0; 0; 0; 0] in
  create_fractal (-2)%float 1%float (-1)%float 1%float image 20
    = Some (NdArray 2 2 [0; 3; 0; 255]) /\
  Cuda.run (create_fractal_gpu (-2)%float 1%float (-1)%float 1%float 20)
           (Cuda.grid2 (1, 1)%nat (32, 32)%nat) image
    = NdArray 2 2 [0; 3; 0; 255] /\
  reshape (create_fractal_ufunc (-2)%float 1%float (-1)%float 1%float 2 2 20) 2 2
    = Some (NdArray 2 2 [0; 255; 0; 255]).
Proof. vm_compute. repeat split; reflexivity. Qed.

End RendererProofs.

(** ** [range] and the launch grid *)

Module PyFacts.
Import Py.

Lemma range_len_spec (start stop step k : nat) :
  (1 <= step)%nat ->
  (k < range_len start stop step)%nat <-> (start + k * step < stop)%nat.
Proof.
  intros Hstep. unfold range_len.
  destruct (Nat.ltb_spec start stop) as [Hlt|Hge]; [|nia].
  split.
  - intros Hk.
    assert (Hq : (S k <= (stop - start + step - 1) / step)%nat) by lia.
    pose proof (Nat.Div0.mul_div_le (stop - start + step - 1) step). nia.
  - intros Hk. apply Nat.div_le_lower_bound with (q := S k); lia.
Qed.

Lemma range_elem (start stop step i : nat) :
  (1 <= step)%nat ->
  i ∈ range start stop step <->
  exists k : nat, i = (start + k * step)%nat /\ (i < stop)%nat.
Proof.
  intros Hstep. unfold range. rewrite list_elem_of_fmap. split.
  - intros (k & -> & Hk). exists k. split; [done|].
    apply elem_of_seq in Hk. apply range_len_spec; lia.
  - intros (k & -> & Hk). exists k. split; [done|].
    apply elem_of_seq. apply range_len_spec in Hk; lia.
Qed.

(** A grid-stride loop: the thread that starts below the stride visits
    exactly the indices congruent to its start. *)
Lemma range_stride (start stop stride i : nat) :
  (start < stride)%nat ->
  i ∈ range start stop stride <-> (i < stop /\ i mod stride = start)%nat.
Proof.
  intros Hstart. rewrite range_elem by lia. split.
  - intros (k & -> & Hk). split; [done|].
    rewrite Nat.Div0.mod_add. by apply Nat.mod_small.
  - intros [Hi Hmod]. exists (i / stride)%nat. split; [|done].
    rewrite <- Hmod. rewrite (Nat.div_mod_eq i stride) at 1. lia.
Qed.

End PyFacts.

Module CudaFacts.
Import Cuda.

Lemma grid1_elem (blocks threads i : nat) :
  i ∈ grid1 blocks threads <-> (i < blocks * threads)%nat.
Proof.
  unfold grid1. rewrite list_elem_of_In, in_flat_map. split.
  - intros (ty & Hty & Hin). apply in_map_iff in Hin as (tx & <- & Htx).
    apply in_seq in Hty, Htx. nia.
  - intros Hi. assert (Ht : (0 < threads)%nat) by nia.
    exists (i / threads)%nat. split.
    + apply in_seq. split; [lia|]. cbn.
      apply Nat.Div0.div_lt_upper_bound. lia.
    + apply in_map_iff. exists (i mod threads)%nat. split.
      * rewrite (Nat.div_mod_eq i threads) at 3. lia.
      * apply in_seq. pose proof (Nat.mod_upper_bound i threads). lia.
Qed.

(** The grid positions of a one-dimensional launch are [0, 1, ...,
    blocks * threads - 1], block after block. *)
Lemma grid1_seq (blocks threads : nat) :
  grid1 blocks threads = seq 0 (blocks * threads).
Proof.
  unfold grid1. induction blocks as [|b IH]; [done|].
  rewrite seq_S, flat_map_app, IH. cbn [flat_map]. rewrite app_nil_r.
  replace (S b * threads)%nat with (b * threads + threads)%nat by lia.
  rewrite seq_app. f_equal. cbn [Nat.add].
  pose proof (fmap_add_seq (b * threads) 0 threads) as Hseq.
  rewrite Nat.add_0_r in Hseq. rewrite <- Hseq.
  apply map_ext. intros tx. lia.
Qed.

Lemma threads1_elem (blocks threads tx ty : nat) :
  (tx, ty) ∈ threads1 blocks threads <-> (tx < threads /\ ty < blocks)%nat.
Proof.
  unfold threads1. rewrite list_elem_of_In, in_flat_map. split.
  - intros (ty' & Hty' & Hin). apply in_map_iff in Hin as (tx' & [= <- <-] & Htx').
    apply in_seq in Hty', Htx'. lia.
  - intros [Htx Hty]. exists ty. split; [apply in_seq; lia|].
    apply in_map_iff. exists tx. split; [done|apply in_seq; lia].
Qed.

Lemma grid2_elem (blocks threads : nat * nat) (x y : nat) :
  (x, y) ∈ grid2 blocks threads <->
  (x < blocks.1 * threads.1 /\ y < blocks.2 * threads.2)%nat.
Proof.
  unfold grid2. rewrite list_elem_of_In, in_flat_map. split.
  - intros (y' & Hy' & Hin). apply in_map_iff in Hin as (x' & [= <- <-] & Hx').
    rewrite <- list_elem_of_In in Hy', Hx'.
    apply grid1_elem in Hy', Hx'. done.
  - intros [Hx Hy]. exists y. split.
    + by apply list_elem_of_In, grid1_elem.
    + apply in_map_iff. exists x. split; [done|].
      by apply list_elem_of_In, grid1_elem.
Qed.

(** An interleaving carries out the operations of the threads and nothing
    else. *)
Lemma interleaving_elem {A : Type} (ts : list (list A)) (trace : list A) :
  interleaving ts trace ->
  forall a : A, a ∈ trace <-> exists t, t ∈ ts /\ a ∈ t.
Proof.
  induction 1 as [ts Hnil|ts k a t trace Hk _ IH]; intros b.
  - split.
    + intros Hb. by apply not_elem_of_nil in Hb.
    + intros (t & Ht & Hb). rewrite Forall_forall in Hnil.
      rewrite (Hnil t Ht) in Hb. by apply not_elem_of_nil in Hb.
  - pose proof (lookup_lt_Some _ _ _ Hk) as Hlt.
    rewrite elem_of_cons, IH. split.
    + intros [->|(t' & Ht' & Hb)].
      * exists (a :: t). split; [by eapply list_elem_of_lookup_2|left].
      * apply list_elem_of_lookup in Ht' as [j Hj].
        destruct (decide (k = j)) as [->|Hne].
        -- rewrite list_lookup_insert_eq in Hj by done. injection Hj as <-.
           exists (a :: t). split; [by eapply list_elem_of_lookup_2|by right].
        -- rewrite list_lookup_insert_ne in Hj by done.
           exists t'. split; [by eapply list_elem_of_lookup_2|done].
    + intros (t' & Ht' & Hb).
      apply list_elem_of_lookup in Ht' as [j Hj].
      destruct (decide (k = j)) as [->|Hne].
      * rewrite Hk in Hj. injection Hj as <-.
        apply elem_of_cons in Hb as [->|Hb]; [by left|right].
        exists t. split; [|done].
        eapply list_elem_of_lookup_2. by apply list_lookup_insert_eq.
      * right. exists t'. split; [|done].
        eapply list_elem_of_lookup_2. by rewrite list_lookup_insert_ne.
Qed.

Lemma interleaving_cons_nil {A : Type} (ts : list (list A)) (trace : list A) :
  interleaving ts trace -> interleaving ([] :: ts) trace.
Proof.
  induction 1 as [ts Hnil|ts k a t trace Hk _ IH].
  - apply interleaving_done. by constructor.
  - by apply (interleaving_step _ (S k) a t).
Qed.

(** Running the threads one after the other is one of the interleavings. *)
Lemma interleaving_concat {A : Type} (ts : list (list A)) :
  interleaving ts (concat ts).
Proof.
  induction ts as [|t ts IH].
  - apply interleaving_done. constructor.
  - cbn [concat]. induction t as [|a t IHt].
    + by apply interleaving_cons_nil.
    + by apply (interleaving_step _ 0%nat a t).
Qed.

End CudaFacts.

(** ** The vector-add kernel *)

Module AddKernelProofs.
Import AddKernel.

Section WithDType.
Context {T : Type} `{DType T}.
Variables (x y : list T).

Lemma foldl_add_body_None (idxs : list nat) :
  foldl (fun out i => out ≫= add_body x y i) None idxs = None.
Proof. induction idxs as [|i idxs IH]; [done|]. cbn. exact IH. Qed.

(** A sequence of loop trips over indices inside the three arrays
    succeeds, keeps the length of [out] and leaves the sum at each index
    it visited. *)
Lemma foldl_add_body (idxs : list nat) (out : list T) :
  length y = length x -> (length x <= length out)%nat ->
  Forall (fun i => (i < length x)%nat) idxs ->
  exists out',
    foldl (fun out i => out ≫= add_body x y i) (Some out) idxs = Some out' /\
    length out' = length out /\
    forall j : nat,
      out' !! j = if decide (j ∈ idxs) then sum_at x y j else out !! j.
Proof.
  intros Hy Hout Hidx. revert out Hout.
  induction Hidx as [|i idxs Hi Hidx IH]; intros out Hout.
  - exists out. repeat split.
  - destruct (lookup_lt_is_Some_2 x i Hi) as [xi Hxi].
    destruct (lookup_lt_is_Some_2 y i ltac:(lia)) as [yi Hyi].
    cbn [foldl]. cbn [mbind option_bind]. unfold add_body at 2.
    rewrite Hxi, Hyi. cbn [mbind option_bind].
    rewrite decide_True by lia.
    destruct (IH (<[i := dtype_add xi yi]> out)) as (out' & Hrun & Hlen & Hget).
    { rewrite length_insert. lia. }
    exists out'. split; [exact Hrun|]. split.
    { rewrite Hlen. apply length_insert. }
    intros j. rewrite Hget.
    destruct (decide (j = i)) as [->|Hne].
    + rewrite (decide_True (P := i ∈ i :: idxs)) by left.
      case_decide; [done|].
      rewrite list_lookup_insert_eq by lia.
      unfold sum_at. by rewrite Hxi, Hyi.
    + rewrite list_lookup_insert_ne by done.
      apply decide_ext. rewrite elem_of_cons. tauto.
Qed.

(** The launch is one long sequence of loop trips: those of the first
    scheduled thread, then those of the second, and so on. *)
Lemma launch_flat (block_size grid_size : nat)
    (schedule : list (nat * nat)) (out : option (list T)) :
  Cuda.run (fun thread out =>
              out ≫= add_kernel block_size grid_size x y thread)
           schedule out =
  foldl (fun out i => out ≫= add_body x y i) out
        (flat_map (writes block_size grid_size (length x)) schedule).
Proof.
  unfold Cuda.run. revert out.
  induction schedule as [|t sched IH]; intros out; [done|].
  cbn [foldl flat_map]. rewrite foldl_app, IH. f_equal.
  destruct out as [out|]; [reflexivity|].
  cbn. by rewrite foldl_add_body_None.
Qed.
(** The result of a sequence of loop trips depends only on which indices
    it visits. *)
Lemma run_stores_same (idxs1 idxs2 : list nat) (out : list T) :
  length y = length x -> (length x <= length out)%nat ->
  Forall (fun i => (i < length x)%nat) idxs1 ->
  (forall i : nat, i ∈ idxs1 <-> i ∈ idxs2) ->
  run_stores x y idxs1 out = run_stores x y idxs2 out.
Proof.
  intros Hy Hout Hidx Hsame. unfold run_stores.
  assert (Hidx2 : Forall (fun i => (i < length x)%nat) idxs2).
  { rewrite Forall_forall in Hidx. apply Forall_forall.
    intros i Hi. apply Hidx. by apply Hsame. }
  destruct (foldl_add_body idxs1 out Hy Hout Hidx) as (o1 & -> & Hl1 & Hg1).
  destruct (foldl_add_body idxs2 out Hy Hout Hidx2) as (o2 & -> & Hl2 & Hg2).
  f_equal. apply list_eq. intros j. rewrite Hg1, Hg2.
  by apply decide_ext.
Qed.

Lemma add_kernel_grid_same (block_size grid_size : nat)
    (thread : nat * nat) (out : list T) :
  add_kernel_grid block_size grid_size x y thread out
  = add_kernel block_size grid_size x y thread out.
Proof. reflexivity. Qed.
End WithDType.

(** The thread of the launch whose start is a given residue. *)
Lemma thread_of_start (block_size grid_size s : nat) :
  (s < block_size * grid_size)%nat ->
  ((s mod block_size) < block_size /\ (s / block_size) < grid_size /\
   (s mod block_size) + (s / block_size) * block_size = s)%nat.
Proof.
  intros Hs. assert (0 < block_size)%nat by nia. repeat split.
  - apply Nat.mod_upper_bound. lia.
  - apply Nat.Div0.div_lt_upper_bound. lia.
  - rewrite (Nat.div_mod_eq s block_size) at 3. lia.
Qed.

Lemma start_below_stride (block_size grid_size tx ty : nat) :
  (tx < block_size)%nat -> (ty < grid_size)%nat ->
  (tx + ty * block_size < block_size * grid_size)%nat.
Proof. nia. Qed.

Lemma start_injective (block_size tx1 ty1 tx2 ty2 : nat) :
  (tx1 < block_size)%nat -> (tx2 < block_size)%nat ->
  (tx1 + ty1 * block_size = tx2 + ty2 * block_size)%nat ->
  (tx1, ty1) = (tx2, ty2).
Proof.
  intros H1 H2 Heq.
  assert (ty1 = ty2) by nia. subst. f_equal. lia.
Qed.

Lemma writes_elem (block_size grid_size n tx ty i : nat) :
  (tx < block_size)%nat -> (ty < grid_size)%nat ->
  i ∈ writes block_size grid_size n (tx, ty) <->
  (i < n /\ i mod (block_size * grid_size) = tx + ty * block_size)%nat.
Proof.
  intros Htx Hty. unfold writes. cbn [fst snd].
  apply PyFacts.range_stride. by apply start_below_stride.
Qed.

(** C2: for arrays [x] and [y] of equal length (and an [out] that can hold
    the result), a launch with [stride = block_size * grid_size >= 1] whose
    threads run in any order ends with [out[i] = x[i] + y[i]] for every
    [i < x.shape[0]]; the thread [(tx, ty)] stores to index [i] exactly when
    its start [tx + ty * block_size] is [i mod stride]; so each index is
    stored to by one thread of the grid and by no other, and every
    interleaving of the threads' stores ends with the same [out]. *)
Theorem add_kernel_correct {T : Type} `{DType T}
    (block_size grid_size : nat) (x y out : list T)
    (schedule : list (nat * nat)) :
  length y = length x ->
  (length x <= length out)%nat ->
  (1 <= block_size * grid_size)%nat ->
  (forall tx ty : nat,
      (tx, ty) ∈ schedule <-> (tx < block_size /\ ty < grid_size)%nat) ->
  (exists out',
      launch block_size grid_size x y schedule out = Some out' /\
      length out' = length out /\
      (forall (i : nat) (xi yi : T),
          x !! i = Some xi -> y !! i = Some yi ->
          out' !! i = Some (dtype_add xi yi)) /\
      (forall i : nat, (length x <= i)%nat -> out' !! i = out !! i)) /\
  (forall i tx ty : nat,
      (i < length x)%nat -> (tx < block_size)%nat -> (ty < grid_size)%nat ->
      (i ∈ writes block_size grid_size (length x) (tx, ty) <->
       (tx + ty * block_size = i mod (block_size * grid_size))%nat)) /\
  (forall i : nat,
      (i < length x)%nat ->
      exists tx ty : nat,
        (tx < block_size /\ ty < grid_size)%nat /\
        i ∈ writes block_size grid_size (length x) (tx, ty) /\
        forall tx' ty' : nat,
          (tx' < block_size)%nat -> (ty' < grid_size)%nat ->
          i ∈ writes block_size grid_size (length x) (tx', ty') ->
          (tx', ty') = (tx, ty)) /\
  (forall (i j tx1 ty1 tx2 ty2 : nat),
      (tx1 < block_size)%nat -> (ty1 < grid_size)%nat ->
      (tx2 < block_size)%nat -> (ty2 < grid_size)%nat ->
      (tx1, ty1) <> (tx2, ty2) ->
      i ∈ writes block_size grid_size (length x) (tx1, ty1) ->
      j ∈ writes block_size grid_size (length x) (tx2, ty2) ->
      i <> j) /\
  (forall trace : list nat,
      Cuda.interleaving
        (writes block_size grid_size (length x) <$> schedule) trace ->
      run_stores x y trace out
      = launch block_size grid_size x y schedule out).
Proof.
  intros Hy Hout Hstride Hsched.
  assert (Hunique : forall i tx1 ty1 tx2 ty2 : nat,
             (tx1 < block_size)%nat -> (ty1 < grid_size)%nat ->
             (tx2 < block_size)%nat -> (ty2 < grid_size)%nat ->
             i ∈ writes block_size grid_size (length x) (tx1, ty1) ->
             i ∈ writes block_size grid_size (length x) (tx2, ty2) ->
             (tx1, ty1) = (tx2, ty2)).
  { intros i tx1 ty1 tx2 ty2 H1 H2 H3 H4 Hi1 Hi2.
    apply writes_elem in Hi1 as [_ Hi1]; [|done..].
    apply writes_elem in Hi2 as [_ Hi2]; [|done..].
    apply (start_injective block_size); [done..|]. lia. }
  assert (Hwriter : forall i : nat, (i < length x)%nat ->
             exists tx ty : nat,
               (tx < block_size /\ ty < grid_size)%nat /\
               i ∈ writes block_size grid_size (length x) (tx, ty)).
  { intros i Hi.
    pose proof (Nat.mod_upper_bound i (block_size * grid_size) ltac:(lia)) as Hs.
    destruct (thread_of_start _ _ _ Hs) as (Htx & Hty & Hstart).
    eexists _, _. split; [split; [exact Htx|exact Hty]|].
    apply writes_elem; [done..|]. split; [done|]. by rewrite Hstart. }
  assert (Hbound : Forall (fun i => (i < length x)%nat)
                     (flat_map (writes block_size grid_size (length x))
                               schedule)).
  { apply Forall_forall. intros i Hi.
    apply list_elem_of_In, in_flat_map in Hi as ([tx ty] & Hin & Hi).
    apply list_elem_of_In, Hsched in Hin as [Htx Hty].
    apply list_elem_of_In, writes_elem in Hi as [Hi _]; done. }
  split; [|split; [|split; [|split]]].
  - unfold launch. rewrite launch_flat.
    destruct (foldl_add_body x y
                (flat_map (writes block_size grid_size (length x)) schedule) out)
      as (out' & Hrun & Hlen & Hget); [done..|].
    exists out'. split; [exact Hrun|]. split; [exact Hlen|]. split.
    + intros i xi yi Hxi Hyi. rewrite Hget.
      rewrite decide_True.
      * unfold sum_at. by rewrite Hxi, Hyi.
      * apply lookup_lt_Some in Hxi.
        destruct (Hwriter i Hxi) as (tx & ty & Hin & Hi).
        apply list_elem_of_In, in_flat_map. exists (tx, ty). split.
        -- by apply list_elem_of_In, Hsched.
        -- by apply list_elem_of_In.
    + intros i Hi. rewrite Hget. rewrite decide_False; [done|].
      intros Hin.
      apply list_elem_of_In, in_flat_map in Hin as ([tx ty] & Hin & Hw).
      apply list_elem_of_In, Hsched in Hin as [Htx Hty].
      apply list_elem_of_In, writes_elem in Hw as [Hw _]; [lia|done..].
  - intros i tx ty Hi Htx Hty. rewrite writes_elem by done. split.
    + intros [_ Hmod]. by rewrite Hmod.
    + intros Hmod. split; [done|]. by rewrite <- Hmod.
  - intros i Hi. destruct (Hwriter i Hi) as (tx & ty & [Htx Hty] & Hw).
    exists tx, ty. split; [done|]. split; [done|].
    intros tx' ty' Htx' Hty' Hw'. by apply (Hunique i).
  - intros i j tx1 ty1 tx2 ty2 H1 H2 H3 H4 Hne Hi Hj ->.
    apply Hne. by apply (Hunique j).
  - intros trace Htrace. unfold launch. rewrite launch_flat.
    symmetry. apply run_stores_same; [done..|].
    intros i. rewrite (CudaFacts.interleaving_elem _ _ Htrace).
    rewrite list_elem_of_In, in_flat_map. split.
    + intros (t & Ht & Hi). exists (writes block_size grid_size (length x) t).
      split; [|by apply list_elem_of_In].
      apply list_elem_of_fmap. exists t. by rewrite list_elem_of_In.
    + intros (w & Hw & Hi). apply list_elem_of_fmap in Hw as (t & -> & Ht).
      exists t. by rewrite <- !list_elem_of_In.
Qed.

Lemma add_kernel_correct_witness :
  let x := [1; 2; 3; 4; 5] in
  let y := [10; 20; 30; 40; 50] in
  let out := [0; 0; 0; 0; 0] in
  (exists out',
      launch 2 2 x y (Cuda.threads1 2 2) out = Some out' /\
      length out' = length out /\
      (forall (i : nat) (xi yi : Z),
          x !! i = Some xi -> y !! i = Some yi ->
          out' !! i = Some (dtype_add xi yi)) /\
      (forall i : nat, (length x <= i)%nat -> out' !! i = out !! i)) /\
  (forall i tx ty : nat,
      (i < length x)%nat -> (tx < 2)%nat -> (ty < 2)%nat ->
      (i ∈ writes 2 2 (length x) (tx, ty) <->
       (tx + ty * 2 = i mod (2 * 2))%nat)) /\
  (forall i : nat,
      (i < length x)%nat ->
      exists tx ty : nat,
        (tx < 2 /\ ty < 2)%nat /\
        i ∈ writes 2 2 (length x) (tx, ty) /\
        forall tx' ty' : nat,
          (tx' < 2)%nat -> (ty' < 2)%nat ->
          i ∈ writes 2 2 (length x) (tx', ty') ->
          (tx', ty') = (tx, ty)) /\
  (forall (i j tx1 ty1 tx2 ty2 : nat),
      (tx1 < 2)%nat -> (ty1 < 2)%nat ->
      (tx2 < 2)%nat -> (ty2 < 2)%nat ->
      (tx1, ty1) <> (tx2, ty2) ->
      i ∈ writes 2 2 (length x) (tx1, ty1) ->
      j ∈ writes 2 2 (length x) (tx2, ty2) ->
      i <> j) /\
  (forall trace : list nat,
      Cuda.interleaving (writes 2 2 (length x) <$> Cuda.threads1 2 2) trace ->
      run_stores x y trace out = launch 2 2 x y (Cuda.threads1 2 2) out).
Proof.
  apply (add_kernel_correct 2 2 [1; 2; 3; 4; 5] [10; 20; 30; 40; 50]
           [0; 0; 0; 0; 0] (Cuda.threads1 2 2)).
  - reflexivity.
  - simpl. lia.
  - lia.
  - intros tx ty. apply CudaFacts.threads1_elem.
Defined.

End AddKernelProofs.

(** ** Atomic and racy increments of a shared counter *)

Module CounterProofs.
Import Counter.

Lemma remaining_insert (ts : list thread) (k : nat) (t t' : thread) :
  ts !! k = Some t ->
  (remaining (<[k := t']> ts) + length (code t)
   = remaining ts + length (code t'))%nat.
Proof.
  revert k. induction ts as [|a ts IH]; intros [|k] Hk; try discriminate.
  - injection Hk as ->. cbn. lia.
  - specialize (IH k Hk).
    change (<[S k := t']> (a :: ts)) with (a :: <[k := t']> ts).
    cbn [remaining]. lia.
Qed.

(** Running the same instruction in every thread, from the first thread to
    the last, while memory goes through [memf 0], [memf 1], ... *)
Lemma sweep (i : instr) (rest : list instr) (r r' : Z)
    (memf : nat -> list Z) (n : nat) :
  (forall k : nat, (k < n)%nat -> exec i r (memf k) = Some (r', memf (S k))) ->
  rtc step (memf 0%nat, replicate n (Thread (i :: rest) r))
           (memf n, replicate n (Thread rest r')).
Proof.
  intros Hexec.
  assert (Hk : forall k : nat, (k <= n)%nat ->
             rtc step (memf 0%nat, replicate n (Thread (i :: rest) r))
                      (memf k, replicate k (Thread rest r')
                               ++ replicate (n - k) (Thread (i :: rest) r))).
  { induction k as [|k IH]; intros Hle.
    - rewrite Nat.sub_0_r. apply rtc_refl.
    - eapply rtc_r; [apply IH; lia|].
      replace (replicate (S k) (Thread rest r')
               ++ replicate (n - S k) (Thread (i :: rest) r))
        with (<[k := Thread rest r']>
                (replicate k (Thread rest r')
                 ++ replicate (n - k) (Thread (i :: rest) r))).
      + eapply step_thread with (i := i) (r := r).
        * rewrite lookup_app_r by (rewrite length_replicate; lia).
          rewrite length_replicate, Nat.sub_diag.
          replace (n - k)%nat with (S (n - S k)) by lia. reflexivity.
        * apply Hexec. lia.
      + rewrite insert_app_r_alt by (rewrite length_replicate; lia).
        rewrite length_replicate, Nat.sub_diag.
        replace (n - k)%nat with (S (n - S k)) by lia.
        rewrite (replicate_S_end k), <- app_assoc. reflexivity. }
  specialize (Hk n (Nat.le_refl n)).
  rewrite Nat.sub_diag, app_nil_r in Hk. exact Hk.
Qed.

Lemma safe_inv_step (n : nat) (m m' : machine) :
  Z.of_nat n < 2 ^ 31 ->
  safe_inv n m -> step m m' -> safe_inv n m'.
Proof.
  intros Hn (c & Hmem & Hcode & Hsum & Hc) Hstep.
  destruct Hstep as [mem ts k i rest r r' mem' Hk Hexec]. cbn [fst snd] in *.
  subst mem.
  pose proof (proj1 (Forall_lookup _ _) Hcode k _ Hk) as Ht. cbn in Ht.
  destruct Ht as [Ht|Ht]; [discriminate|].
  injection Ht as -> ->. cbn in Hexec. injection Hexec as <- <-.
  pose proof (remaining_insert ts k _ (Thread [] r) Hk) as Hrem. cbn in Hrem.
  exists (c + 1). cbn [fst snd]. split; [|split; [|split]].
  - f_equal. apply IntFacts.int32_id. unfold Int.is_int32. lia.
  - apply Forall_insert; [done|]. by left.
  - lia.
  - lia.
Qed.

Lemma safe_inv_steps (n : nat) (m m' : machine) :
  Z.of_nat n < 2 ^ 31 ->
  safe_inv n m -> rtc step m m' -> safe_inv n m'.
Proof.
  intros Hn Hinv Hsteps. induction Hsteps as [|m1 m2 m3 Hstep _ IH]; [done|].
  apply IH. by apply (safe_inv_step n m1).
Qed.

Lemma remaining_finished (ts : list thread) :
  Forall (fun t => code t = []) ts -> remaining ts = 0%nat.
Proof.
  induction 1 as [|t ts Ht _ IH]; [done|].
  cbn. rewrite Ht, IH. done.
Qed.

Lemma remaining_replicate (n : nat) (t : thread) :
  remaining (replicate n t) = (n * length (code t))%nat.
Proof. induction n as [|n IH]; [done|]. cbn in *. lia. Qed.

Lemma finished_replicate (n : nat) (r : Z) (mem : list Z) :
  finished (mem, replicate n (Thread [] r)).
Proof. unfold finished. cbn. by apply Forall_replicate. Qed.

(** Every complete run of [n] threads of [thread_counter_safe] leaves
    [n] in the counter. *)
Lemma safe_counts (blocks threads : nat) (m : machine) :
  Z.of_nat (blocks * threads) < 2 ^ 31 ->
  rtc step (launch blocks threads thread_counter_safe [0]) m ->
  finished m -> m.1 = [Z.of_nat (blocks * threads)].
Proof.
  intros Hn Hsteps Hfin.
  assert (Hinit : safe_inv (blocks * threads)
                    (launch blocks threads thread_counter_safe [0])).
  { exists 0. unfold launch. cbn [fst snd]. split; [done|]. split; [|split].
    - apply Forall_replicate. by right.
    - rewrite remaining_replicate. cbn. lia.
    - lia. }
  destruct (safe_inv_steps _ _ _ Hn Hinit Hsteps) as (c & Hmem & _ & Hsum & _).
  rewrite (remaining_finished _ Hfin) in Hsum. rewrite Hmem. f_equal. lia.
Qed.

(** A complete run of [n] threads of [thread_counter_safe] exists. *)
Lemma safe_completes (blocks threads : nat) :
  Z.of_nat (blocks * threads) < 2 ^ 31 ->
  exists m, rtc step (launch blocks threads thread_counter_safe [0]) m /\
            finished m.
Proof.
  intros Hn. eexists. split.
  - unfold launch, thread_counter_safe.
    apply (sweep (AtomicAdd 0 1) [] 0 0 (fun k => [Z.of_nat k])).
    intros k Hk. cbn. do 3 f_equal.
    rewrite IntFacts.int32_id; [lia|]. unfold Int.is_int32. lia.
  - apply finished_replicate.
Qed.

(** The run of [thread_counter_race_condition] in which every thread loads
    the counter before any thread stores: all but one increment are lost. *)
Lemma race_loses_updates (blocks threads : nat) :
  (1 <= blocks * threads)%nat ->
  exists m, rtc step (launch blocks threads thread_counter_race_condition [0]) m /\
            finished m /\ m.1 = [1].
Proof.
  intros Hn. exists ([1], replicate (blocks * threads) (Thread [] 0)).
  split; [|split; [apply finished_replicate|done]].
  unfold launch, thread_counter_race_condition.
  etrans.
  - apply (sweep (Load 0) [AddStore 0 1] 0 0 (fun _ => [0])).
    intros k Hk. reflexivity.
  - pose proof (sweep (AddStore 0 1) [] 0 0
                  (fun k => match k with O => [0] | S _ => [1] end)
                  (blocks * threads)) as Hsw.
    destruct (blocks * threads)%nat as [|n] eqn:Hbt; [lia|].
    apply Hsw. intros [|k] Hk; reflexivity.
Qed.

(** C4: with 64 x 64 threads and a counter that starts at zero, every
    interleaving of [thread_counter_safe] runs to completion with exactly
    4096 in the counter, each increment being one indivisible step; the
    load-then-store increments of [thread_counter_race_condition] have an
    interleaving that completes with another value. *)
Theorem atomic_counter_exact_race_lossy :
  (forall m : machine,
      rtc step (launch 64 64 thread_counter_safe [0]) m ->
      finished m -> m.1 = [4096]) /\
  (exists m : machine,
      rtc step (launch 64 64 thread_counter_safe [0]) m /\ finished m) /\
  (exists m : machine,
      rtc step (launch 64 64 thread_counter_race_condition [0]) m /\
      finished m /\ m.1 <> [4096]).
Proof.
  assert (Hn : Z.of_nat (64 * 64) < 2 ^ 31) by lia.
  split; [|split].
  - intros m Hsteps Hfin.
    rewrite (safe_counts 64 64 m Hn Hsteps Hfin). f_equal.
  - exact (safe_completes 64 64 Hn).
  - destruct (race_loses_updates 64 64) as (m & Hsteps & Hfin & Hmem); [lia|].
    exists m. split; [done|]. split; [done|]. rewrite Hmem. discriminate.
Qed.

End CounterProofs.

(** ** The histogram *)

Module HistogramProofs.
Import Histogram.

Lemma in_range_spec (nbins : nat) (b : Z) :
  in_range nbins b = true <-> 0 <= b < Z.of_nat nbins.
Proof. unfold in_range. rewrite andb_true_iff, Z.leb_le, Z.ltb_lt. done. Qed.

Lemma count_in_length (b : Z) (h : list Z) :
  length (count_in b h) = length h.
Proof. unfold count_in. destruct (in_range _ _); [apply length_alter|done]. Qed.

(** The guarded increment touches the bin [b] and no other. *)
Lemma count_in_lookup (b : Z) (h : list Z) (j : nat) (c : Z) :
  h !! j = Some c ->
  count_in b h !! j = Some (if decide (b = Z.of_nat j) then incr c else c).
Proof.
  intros Hj. pose proof (lookup_lt_Some _ _ _ Hj) as Hlt. unfold count_in.
  destruct (in_range (length h) b) eqn:Hr.
  - apply in_range_spec in Hr. case_decide as Hb.
    + subst b. rewrite Nat2Z.id, list_lookup_alter_eq, Hj. done.
    + rewrite list_lookup_alter_ne by lia. done.
  - rewrite decide_False; [done|]. intros ->.
    assert (in_range (length h) (Z.of_nat j) = true) as Hr'
        by (apply in_range_spec; lia).
    congruence.
Qed.

Lemma tally_cons (b : Z) (bins h : list Z) :
  tally (b :: bins) h = tally bins (count_in b h).
Proof. reflexivity. Qed.

Lemma tally_length (bins h : list Z) : length (tally bins h) = length h.
Proof.
  revert h. induction bins as [|b bins IH]; intros h; [done|].
  rewrite tally_cons, IH. apply count_in_length.
Qed.

Lemma count_bin_cons (j : nat) (b : Z) (bins : list Z) :
  count_bin j (b :: bins) =
    ((if decide (b = Z.of_nat j) then 1 else 0) + count_bin j bins)%nat.
Proof. unfold count_bin. rewrite filter_cons. by case_decide. Qed.

(** After the tally the bin [j] has been incremented once for every
    occurrence of [j] among the bin numbers. *)
Lemma tally_lookup (bins h : list Z) (j : nat) (c : Z) :
  h !! j = Some c ->
  tally bins h !! j = Some (Nat.iter (count_bin j bins) incr c).
Proof.
  revert h c. induction bins as [|b bins IH]; intros h c Hj; [done|].
  rewrite tally_cons, count_bin_cons.
  rewrite (IH _ _ (count_in_lookup b h j c Hj)).
  case_decide; [|done]. cbn [Nat.add]. by rewrite Nat.iter_succ_r.
Qed.

Lemma count_in_range_cons (nbins : nat) (b : Z) (bins : list Z) :
  count_in_range nbins (b :: bins) =
    ((if in_range nbins b then 1 else 0) + count_in_range nbins bins)%nat.
Proof.
  unfold count_in_range. rewrite filter_cons.
  destruct (in_range nbins b); by case_decide.
Qed.

(** A bin number is the index of one bin when it passes the guard, of none
    otherwise. *)
Lemma indicator_sum (nbins : nat) (b : Z) :
  sum_list_with (fun j : nat => if decide (b = Z.of_nat j) then 1 else 0)%nat
                (seq 0 nbins)
  = (if in_range nbins b then 1 else 0)%nat.
Proof.
  induction nbins as [|n IH].
  - cbn. destruct (in_range 0 b) eqn:Hr; [|done].
    apply in_range_spec in Hr. lia.
  - rewrite seq_S, sum_list_with_app, IH. cbn [sum_list_with Nat.add].
    assert (HS : in_range (S n) b = true
                 <-> in_range n b = true \/ b = Z.of_nat n).
    { rewrite !in_range_spec. lia. }
    destruct (in_range n b) eqn:Hn.
    + apply in_range_spec in Hn. rewrite decide_False by lia.
      rewrite (proj2 HS) by (by left). done.
    + case_decide as Hb.
      * rewrite (proj2 HS) by (by right). done.
      * destruct (in_range (S n) b); [|done].
        destruct (proj1 HS eq_refl); [discriminate|contradiction].
Qed.

(** The increments received by all the bins together are as many as the bin
    numbers that pass the guard. *)
Lemma count_bin_sum (nbins : nat) (bins : list Z) :
  sum_list_with (fun j => count_bin j bins) (seq 0 nbins)
  = count_in_range nbins bins.
Proof.
  induction bins as [|b bins IH].
  - unfold count_bin, count_in_range. cbn.
    induction (seq 0 nbins) as [|? ? IHl]; [done|]. cbn. exact IHl.
  - rewrite count_in_range_cons, <- IH, <- indicator_sum.
    generalize (seq 0 nbins). intros l.
    induction l as [|j l IHl]; [done|].
    cbn [sum_list_with]. rewrite IHl, count_bin_cons. lia.
Qed.

Lemma total_alter (f : Z -> Z) (k : nat) (h : list Z) (c : Z) :
  h !! k = Some c -> total (alter f k h) = total h - c + f c.
Proof.
  revert k. induction h as [|a h IH]; intros [|k] Hk; try discriminate.
  - injection Hk as ->. cbn. lia.
  - change (alter f (S k) (a :: h)) with (a :: alter f k h).
    cbn [total foldr]. fold (total h). fold (total (alter f k h)).
    rewrite (IH k Hk). lia.
Qed.

(** While no bin can reach the top of the int32 range, the bins sum up to
    what they summed up to before plus the number of increments. *)
Lemma tally_total (bins h : list Z) :
  Forall (fun c => - 2 ^ 31 <= c /\ c + Z.of_nat (length bins) < 2 ^ 31) h ->
  total (tally bins h) = total h + Z.of_nat (count_in_range (length h) bins).
Proof.
  revert h. induction bins as [|b bins IH]; intros h Hh.
  - change (tally [] h) with h.
    change (count_in_range (length h) []) with 0%nat. lia.
  - rewrite tally_cons, count_in_range_cons.
    assert (Hstep : total (count_in b h)
                    = total h + (if in_range (length h) b then 1 else 0)
            /\ Forall (fun c => - 2 ^ 31 <= c
                                /\ c + Z.of_nat (length bins) < 2 ^ 31)
                      (count_in b h)).
    { unfold count_in. destruct (in_range (length h) b) eqn:Hr.
      - apply in_range_spec in Hr.
        destruct (lookup_lt_is_Some_2 h (Z.to_nat b) ltac:(lia)) as [c Hc].
        pose proof (proj1 (Forall_lookup _ _) Hh _ _ Hc) as Hcb.
        cbn [length] in Hcb.
        assert (Hincr : incr c = c + 1).
        { apply IntFacts.int32_id. unfold Int.is_int32. lia. }
        split.
        + rewrite (total_alter incr _ _ _ Hc), Hincr. lia.
        + apply Forall_lookup. intros j c' Hj.
          destruct (decide (j = Z.to_nat b)) as [->|Hne].
          * rewrite list_lookup_alter_eq, Hc in Hj. injection Hj as <-.
            rewrite Hincr. lia.
          * rewrite list_lookup_alter_ne in Hj by done.
            pose proof (proj1 (Forall_lookup _ _) Hh _ _ Hj) as Hb'.
            cbn [length] in Hb'. lia.
      - split; [lia|]. eapply Forall_impl; [exact Hh|].
        intros c Hc. cbn [length] in Hc. lia. }
    destruct Hstep as [Htot Hbound].
    rewrite (IH _ Hbound), count_in_length, Htot.
    destruct (in_range (length h) b); lia.
Qed.

Lemma iter_incr (k : nat) (c : Z) :
  Int.is_int32 c -> Nat.iter k incr c = Int.int32 (c + Z.of_nat k).
Proof.
  intros Hc. induction k as [|k IH].
  - cbn. rewrite Z.add_0_r. symmetry. by apply IntFacts.int32_id.
  - cbn [Nat.iter nat_rect]. fold (Nat.iter k incr c). rewrite IH. unfold incr.
    rewrite IntFacts.int32_add_l. f_equal. lia.
Qed.

Lemma tally_perm (bins1 bins2 h : list Z) :
  bins1 ≡ₚ bins2 -> tally bins1 h = tally bins2 h.
Proof.
  intros Hperm. apply list_eq. intros j.
  destruct (h !! j) as [c|] eqn:Hj.
  - rewrite !(tally_lookup _ _ _ _ Hj). do 2 f_equal.
    unfold count_bin. by rewrite Hperm.
  - apply lookup_ge_None in Hj.
    rewrite !(proj2 (lookup_ge_None _ _)); [done|rewrite tally_length; lia..].
Qed.

Lemma omap_ext_in {A B} (f g : A -> option B) (l : list A) :
  (forall a, a ∈ l -> f a = g a) -> omap f l = omap g l.
Proof.
  induction l as [|a l IH]; intros Hfg; [done|].
  cbn. rewrite (Hfg a) by left.
  rewrite IH; [done|]. intros a' Ha'. apply Hfg. by right.
Qed.

(** Reading an array at the positions [0, 1, ..., G - 1] of a grid that is at
    least as long as the array yields its elements, in order. *)
Lemma omap_lookup_seq {A B} (g : A -> B) (x : list A) (s G : nat) :
  (length x <= G)%nat ->
  omap (fun i => g <$> x !! (i - s)%nat) (seq s G) = g <$> x.
Proof.
  revert s G. induction x as [|a x IH]; intros s G Hlen.
  - clear Hlen. generalize (seq s G). intros l.
    induction l as [|i l IHl]; [done|].
    cbn [omap list_omap]. by rewrite lookup_nil.
  - destruct G as [|G]; [cbn in Hlen; lia|].
    cbn [seq omap list_omap]. rewrite Nat.sub_diag. cbn. f_equal.
    rewrite <- (IH (S s) G) by (cbn in Hlen; lia).
    apply omap_ext_in. intros i Hi. apply elem_of_seq in Hi.
    replace (i - s)%nat with (S (i - S s)) by lia. done.
Qed.

Section WithArith.
Context {F : Type} `{Arith F}.
Variables (x : list F) (xmin xmax : F).

Lemma cpu_histogram_tally (h : list Z) :
  (cpu_histogram x xmin xmax h).2 = tally (bins_of x xmin xmax (length h)) h.
Proof.
  unfold cpu_histogram, tally, bins_of. cbn [snd].
  change (map ?f ?l) with (f <$> l). by rewrite foldl_fmap.
Qed.

Lemma cpu_histogram_snoc (element : F) (h : list Z) :
  (cpu_histogram (x ++ [element]) xmin xmax h).2 =
    count_in (bin_of xmin (bin_width xmin xmax (length h)) element)
             (cpu_histogram x xmin xmax h).2.
Proof. unfold cpu_histogram. cbn [snd]. by rewrite foldl_app. Qed.

Lemma cuda_histogram_run (schedule : list nat) (n : nat) (h : list Z) :
  length h = n ->
  Cuda.run (cuda_histogram x xmin xmax) schedule h =
    tally (omap (fun i => bin_of xmin (bin_width xmin xmax n) <$> x !! i)
                schedule) h.
Proof.
  unfold Cuda.run. revert h. induction schedule as [|i sched IH]; intros h Hn.
  - done.
  - cbn [foldl omap list_omap]. unfold cuda_histogram at 2. rewrite Hn.
    destruct (x !! i) as [e|] eqn:He; cbn [fmap option_fmap option_map].
    + rewrite tally_cons. apply IH. by rewrite count_in_length.
    + by apply IH.
Qed.
End WithArith.

(** C1: [cpu_histogram] never modifies [x] and keeps the number of bins;
    each element increments exactly the bin whose index is
    [int32((element - xmin) / bin_width)] when that index lies in
    [0, nbins), and leaves the histogram as it is otherwise; on return each
    bin has been incremented once per element that fell into it, the
    increments of all bins together are as many as the in-range elements,
    and (short of an int32 overflow) the bins sum up to that many more. *)
Theorem cpu_histogram_counts {F : Type} `{Arith F}
    (x : list F) (xmin xmax : F) (histogram_out : list Z) :
  let nbins := length histogram_out in
  let bins := bins_of x xmin xmax nbins in
  let result := cpu_histogram x xmin xmax histogram_out in
  result.1 = x /\
  length result.2 = nbins /\
  (forall element : F,
      let bin_number :=
        to_int32 (fdiv (fsub element xmin)
                       (fdiv (fsub xmax xmin) (of_int (Z.of_nat nbins)))) in
      (cpu_histogram (x ++ [element]) xmin xmax histogram_out).2 =
        if decide (0 <= bin_number < Z.of_nat nbins)
        then alter incr (Z.to_nat bin_number) result.2
        else result.2) /\
  (forall (j : nat) (c : Z),
      histogram_out !! j = Some c ->
      result.2 !! j = Some (Nat.iter (count_bin j bins) incr c)) /\
  sum_list_with (fun j => count_bin j bins) (seq 0 nbins)
    = count_in_range nbins bins /\
  (Forall (fun c => - 2 ^ 31 <= c /\ c + Z.of_nat (length x) < 2 ^ 31)
          histogram_out ->
   total result.2 = total histogram_out + Z.of_nat (count_in_range nbins bins)).
Proof.
  intros nbins bins result. subst result.
  split; [done|]. split; [|split; [|split; [|split]]].
  - rewrite cpu_histogram_tally. apply tally_length.
  - intros element bin_number.
    rewrite cpu_histogram_snoc. unfold count_in.
    rewrite cpu_histogram_tally, tally_length. fold nbins.
    change (bin_of xmin (bin_width xmin xmax nbins) element) with bin_number.
    destruct (in_range nbins bin_number) eqn:Hr.
    + apply in_range_spec in Hr. by rewrite decide_True.
    + rewrite decide_False; [done|]. intros Hin.
      apply in_range_spec in Hin. congruence.
  - intros j c Hj. rewrite cpu_histogram_tally. by apply tally_lookup.
  - apply count_bin_sum.
  - intros Hbound. rewrite cpu_histogram_tally. apply tally_total.
    unfold bins, bins_of. by rewrite length_map.
Qed.

(** A launch whose grid covers [x], its threads scheduled in any order,
    tallies the bin numbers of the elements of [x]. *)
Lemma cuda_histogram_launch {F : Type} `{Arith F}
    (x : list F) (xmin xmax : F) (histogram_out : list Z)
    (blocks threads : nat) (schedule : list nat) :
  (length x <= blocks * threads)%nat ->
  schedule ≡ₚ Cuda.grid1 blocks threads ->
  Cuda.run (cuda_histogram x xmin xmax) schedule histogram_out
    = tally (bins_of x xmin xmax (length histogram_out)) histogram_out.
Proof.
  intros Hgrid Hsched.
  rewrite (cuda_histogram_run x xmin xmax schedule (length histogram_out))
    by done.
  unfold bins_of. rewrite CudaFacts.grid1_seq in Hsched.
  rewrite (tally_perm _ _ _ (omap_Permutation _ _ _ Hsched)).
  f_equal.
  rewrite <- (omap_lookup_seq _ x 0 (blocks * threads) Hgrid).
  apply omap_ext_in. intros i _. by rewrite Nat.sub_0_r.
Qed.

(** The kernel and the sequential loop may be run by different arithmetics
    (a GPU and a CPU): they leave the same histogram as soon as the two
    compute the same bin numbers for the elements of [x]. *)
Lemma cuda_cpu_same_bins {F : Type} (gpu cpu : Arith F)
    (x : list F) (xmin xmax : F) (histogram_out : list Z)
    (blocks threads : nat) (schedule : list nat) :
  (length x <= blocks * threads)%nat ->
  schedule ≡ₚ Cuda.grid1 blocks threads ->
  bins_of (H := gpu) x xmin xmax (length histogram_out)
    = bins_of (H := cpu) x xmin xmax (length histogram_out) ->
  Cuda.run (cuda_histogram (H := gpu) x xmin xmax) schedule histogram_out
    = (cpu_histogram (H := cpu) x xmin xmax histogram_out).2.
Proof.
  intros Hgrid Hsched Hbins.
  rewrite (cuda_histogram_launch (H := gpu) x xmin xmax histogram_out
             blocks threads schedule Hgrid Hsched).
  by rewrite cpu_histogram_tally, Hbins.
Qed.



End HistogramProofs.

(** ** The sum reduction *)

Module ReduceProofs.
Import Reduce.

Section Generic.
Context {T : Type} (op : T -> T -> T).
Hypothesis op_assoc : forall a b c : T, op (op a b) c = op a (op b c).
Hypothesis op_comm : forall a b : T, op a b = op b a.

Lemma foldl_op_shift (u b : T) (r : list T) :
  foldl op (op u b) r = op u (foldl op b r).
Proof.
  revert b. induction r as [|c r IH]; intros b; [done|].
  cbn [foldl]. by rewrite <- IH, op_assoc.
Qed.

Lemma foldl_op_perm (a : T) (l l' : list T) :
  l ≡ₚ l' -> foldl op a l = foldl op a l'.
Proof.
  intros Hperm. revert a.
  induction Hperm as [|x l l' _ IH|x y l|l1 l2 l3 _ IH1 _ IH2]; intros a.
  - done.
  - cbn. apply IH.
  - cbn. f_equal. by rewrite !op_assoc, (op_comm y x).
  - by rewrite IH1.
Qed.

(** The left-to-right combination does not depend on the order of the
    elements, the first one included. *)
Lemma foldl_op_perm_cons (a a' : T) (r r' : list T) :
  a :: r ≡ₚ a' :: r' -> foldl op a r = foldl op a' r'.
Proof.
  intros Hperm.
  assert (Hin : a ∈ a' :: r') by (rewrite <- Hperm; left).
  apply elem_of_cons in Hin as [->|Hin].
  - apply foldl_op_perm. by apply Permutation_cons_inv in Hperm.
  - apply elem_of_Permutation in Hin as [r'' Hr'].
    assert (Hr : r ≡ₚ a' :: r'').
    { apply (Permutation_cons_inv (a := a)).
      rewrite Hperm, Hr'. apply Permutation_swap. }
    rewrite (foldl_op_perm a _ _ Hr), (foldl_op_perm a' _ _ Hr').
    cbn. by rewrite (op_comm a a').
Qed.

(** A tree combines its leaves as the left-to-right loop does. *)
Lemma eval_foldl (t : tree T) :
  exists (a : T) (r : list T), leaves t = a :: r /\ eval op t = foldl op a r.
Proof.
  induction t as [v|l (a & ll & Hl & IHl) r (b & rr & Hr & IHr)].
  - by exists v, [].
  - exists a, (ll ++ b :: rr). cbn [leaves eval]. rewrite Hl, Hr.
    split; [done|]. rewrite foldl_app. cbn [foldl].
    by rewrite foldl_op_shift, IHl, IHr.
Qed.

Lemma eval_any_tree (t : tree T) (a : T) (r : list T) :
  leaves t ≡ₚ a :: r -> eval op t = foldl op a r.
Proof.
  intros Hperm. destruct (eval_foldl t) as (b & l & Hl & ->).
  apply foldl_op_perm_cons. by rewrite <- Hl.
Qed.

(** Every value a reduction may return is the sequential sum, when [init]
    is neutral for the elements of the array. *)
Lemma reduces_sequential (init : T) (arr : list T) (v : T) :
  Forall (fun a => op init a = a) arr ->
  reduces op init arr v -> v = sequential op init arr.
Proof.
  intros Hneutral [[-> ->]|(t & [Hperm|Hperm] & ->)]; [done| |].
  - destruct arr as [|a r].
    + destruct (eval_foldl t) as (b & l & Hl & _). rewrite Hl in Hperm.
      symmetry in Hperm. by apply Permutation_nil_cons in Hperm.
    + rewrite (eval_any_tree t a r Hperm). unfold sequential. cbn [foldl].
      apply Forall_cons in Hneutral as [-> _]. done.
  - by apply eval_any_tree.
Qed.
End Generic.

Lemma wrap_signed_add_l (w a b : Z) :
  Int.wrap_signed w (Int.wrap_signed w a + b) = Int.wrap_signed w (a + b).
Proof.
  unfold Int.wrap_signed. f_equal.
  replace ((a + 2 ^ (w - 1)) mod 2 ^ w - 2 ^ (w - 1) + b + 2 ^ (w - 1))
    with ((a + 2 ^ (w - 1)) mod 2 ^ w + b) by lia.
  rewrite Zplus_mod_idemp_l. f_equal. lia.
Qed.

Lemma wrap_unsigned_add_l (w a b : Z) :
  Int.wrap_unsigned w (Int.wrap_unsigned w a + b)
  = Int.wrap_unsigned w (a + b).
Proof. unfold Int.wrap_unsigned. apply Zplus_mod_idemp_l. Qed.

Lemma int_add_assoc (signed : bool) (w a b c : Z) :
  @sum_reduce Z (int_dtype signed w) (@sum_reduce Z (int_dtype signed w) a b) c
  = @sum_reduce Z (int_dtype signed w) a (@sum_reduce Z (int_dtype signed w) b c).
Proof.
  unfold sum_reduce, dtype_add, int_dtype. destruct signed.
  - rewrite wrap_signed_add_l.
    rewrite (Z.add_comm a (Int.wrap_signed w (b + c))), wrap_signed_add_l.
    f_equal. lia.
  - rewrite wrap_unsigned_add_l.
    rewrite (Z.add_comm a (Int.wrap_unsigned w (b + c))), wrap_unsigned_add_l.
    f_equal. lia.
Qed.

Lemma int_add_comm (signed : bool) (w a b : Z) :
  @sum_reduce Z (int_dtype signed w) a b
  = @sum_reduce Z (int_dtype signed w) b a.
Proof. unfold sum_reduce, dtype_add, int_dtype. by rewrite Z.add_comm. Qed.

(** Adding a value of the dtype to 0 gives it back. *)
Lemma int_add_0_l (signed : bool) (w v : Z) :
  1 <= w -> is_int signed w v ->
  @sum_reduce Z (int_dtype signed w) 0 v = v.
Proof.
  intros Hw Hv. unfold sum_reduce, dtype_add, int_dtype, is_int in *.
  rewrite Z.add_0_l. destruct signed.
  - unfold Int.wrap_signed.
    assert (Hpow : 2 ^ w = 2 * 2 ^ (w - 1)).
    { replace w with (Z.succ (w - 1)) at 1 by lia.
      apply Z.pow_succ_r. lia. }
    rewrite Z.mod_small by lia. lia.
  - unfold Int.wrap_unsigned. by apply Z.mod_small.
Qed.

(** C7, as stated, fails for the float64 arrays the notebook reduces: the
    [+] of floats is not associative, and reducing the array [1e16, 1, 1] by
    the tree [1e16 + (1 + 1)] gives another value than the left-to-right
    sum [((0 + 1e16) + 1) + 1]. *)
Lemma sum_reduce_float64_grouping :
  (sum_reduce (sum_reduce 1e16 1) 1 <> sum_reduce 1e16 (sum_reduce 1 1) /\
   reduces sum_reduce 0 [1e16; 1; 1]
     (eval sum_reduce (Node (Leaf 1e16) (Node (Leaf 1) (Leaf 1)))) /\
   eval sum_reduce (Node (Leaf 1e16) (Node (Leaf 1) (Leaf 1)))
     <> sequential sum_reduce 0 [1e16; 1; 1])%float.
Proof.
  split; [vm_compute; discriminate|]. split.
  - right. exists (Node (Leaf 1e16) (Node (Leaf 1) (Leaf 1)))%float.
    split; [left; reflexivity|reflexivity].
  - vm_compute. discriminate.
Qed.

(** C7, amended: on an integer dtype ([w] bits, signed or unsigned, with
    wrap-around) [sum_reduce] is associative and commutative, so every
    value that reducing an array of that dtype may return, by whatever tree
    over whatever ordering of the elements, and [init = 0] for an empty
    array, is the sequential left-to-right sum. *)
Theorem sum_reduce_int_any_tree (signed : bool) (w : Z) :
  1 <= w ->
  let add := @sum_reduce Z (int_dtype signed w) in
  (forall a b c : Z, add (add a b) c = add a (add b c)) /\
  (forall a b : Z, add a b = add b a) /\
  (forall (arr : list Z) (v : Z),
      Forall (is_int signed w) arr ->
      reduces add 0 arr v -> v = sequential add 0 arr).
Proof.
  intros Hw add. split; [apply int_add_assoc|]. split; [apply int_add_comm|].
  intros arr v Harr Hred.
  apply (reduces_sequential add (int_add_assoc signed w)
           (int_add_comm signed w) 0 arr v); [|exact Hred].
  eapply Forall_impl; [exact Harr|]. intros a Ha. by apply int_add_0_l.
Qed.

Lemma sum_reduce_int_any_tree_witness :
  let add := @sum_reduce Z (int_dtype true 64) in
  (forall a b c : Z, add (add a b) c = add a (add b c)) /\
  (forall a b : Z, add a b = add b a) /\
  (forall (arr : list Z) (v : Z),
      Forall (is_int true 64) arr ->
      reduces add 0 arr v -> v = sequential add 0 arr).
Proof. apply (sum_reduce_int_any_tree true 64). lia. Defined.

End ReduceProofs.

(** ** Monte Carlo pi *)

Module MonteCarloPiProofs.
Import MonteCarloPi.

Section WithArith.
Context {F : Type} `{Arith F}.
Context {rng_state : Type} (next_float32 : rng_state -> rng_state * F).

Lemma draw_one (states : list rng_state) (tid : nat) (s : rng_state) :
  states !! tid = Some s ->
  xoroshiro128p_uniform_float32 next_float32 states tid =
    Some ((next_float32 s).2, <[tid := (next_float32 s).1]> states).
Proof.
  intros Hs. unfold xoroshiro128p_uniform_float32. rewrite Hs. cbn.
  by destruct (next_float32 s).
Qed.

Lemma draw_pairs_S (s : rng_state) (n : nat) :
  draw_pairs next_float32 s (S n) =
    let s1 := (next_float32 s).1 in
    let s2 := (next_float32 s1).1 in
    (((next_float32 s).2, (next_float32 s1).2)
       :: (draw_pairs next_float32 s2 n).1,
     (draw_pairs next_float32 s2 n).2).
Proof.
  cbn [draw_pairs]. destruct (next_float32 s) as [s1 x]. cbn.
  destruct (next_float32 s1) as [s2 y]. cbn.
  by destruct (draw_pairs next_float32 s2 n).
Qed.

Lemma count_inside_cons (x y : F) (pairs : list (F * F)) :
  count_inside ((x, y) :: pairs) =
    (if in_circle x y then 1 else 0) + count_inside pairs.
Proof.
  unfold count_inside. rewrite filter_cons. cbn [fst snd].
  destruct (in_circle x y); case_decide; try done; cbn [length]; lia.
Qed.

(** The loop counts the pairs of the thread's stream that fall inside the
    circle, and leaves the stream advanced by that many pairs. *)
Lemma pi_loop_counts (n tid : nat) (states : list rng_state)
    (s : rng_state) (inside : Z) :
  states !! tid = Some s ->
  pi_loop next_float32 n tid states inside =
    Some (inside + count_inside (draw_pairs next_float32 s n).1,
          <[tid := (draw_pairs next_float32 s n).2]> states).
Proof.
  revert states s inside. induction n as [|n IH]; intros states s inside Hs.
  - cbn. rewrite (list_insert_id _ _ _ Hs). do 2 f_equal.
    unfold count_inside. cbn. lia.
  - pose proof (lookup_lt_Some _ _ _ Hs) as Hlt.
    cbn [pi_loop]. rewrite (draw_one _ _ _ Hs). cbn [mbind option_bind].
    rewrite (draw_one _ _ (next_float32 s).1)
      by (by apply list_lookup_insert_eq).
    cbn [mbind option_bind]. rewrite list_insert_insert_eq.
    rewrite (IH _ (next_float32 (next_float32 s).1).1)
      by (by apply list_lookup_insert_eq).
    rewrite list_insert_insert_eq, draw_pairs_S. cbn [fst snd].
    rewrite count_inside_cons. do 2 f_equal.
    destruct (in_circle _ _); lia.
Qed.

Lemma count_inside_bounds (s : rng_state) (n : nat) :
  0 <= count_inside (draw_pairs next_float32 s n).1 <= Z.of_nat n.
Proof.
  revert s. induction n as [|n IH]; intros s.
  - cbn. unfold count_inside. cbn. lia.
  - rewrite draw_pairs_S. cbn [fst]. rewrite count_inside_cons.
    specialize (IH (next_float32 (next_float32 s).1).1).
    destruct (in_circle _ _); lia.
Qed.

Lemma draw_pairs_length (s : rng_state) (n : nat) :
  length (draw_pairs next_float32 s n).1 = n.
Proof.
  revert s. induction n as [|n IH]; intros s; [done|].
  rewrite draw_pairs_S. cbn [fst length]. by rewrite IH.
Qed.

(** What [compute_pi] leaves in the two arrays. *)
Lemma compute_pi_runs (rng_states : list rng_state) (iterations : Z)
    (tid : nat) (out : list F) (s : rng_state) :
  rng_states !! tid = Some s -> (tid < length out)%nat ->
  let n := Z.to_nat iterations in
  let inside := count_inside (draw_pairs next_float32 s n).1 in
  compute_pi next_float32 rng_states iterations tid out =
    Some (<[tid := (draw_pairs next_float32 s n).2]> rng_states,
          <[tid := to_float32 (fdiv (fmul (of_int 4) (of_int inside))
                                    (of_int iterations))]> out).
Proof.
  intros Hs Hout n inside. unfold compute_pi.
  rewrite (pi_loop_counts _ _ _ s 0 Hs). cbn [mbind option_bind].
  rewrite decide_True by done. rewrite Z.add_0_l. reflexivity.
Qed.
End WithArith.

(** Rounding down to a multiple of [2^-bits] obeys the laws. *)
Lemma scaled_back (m : Z) (d : positive) :
  (Qmake m d * inject_Z (Z.pos d) == inject_Z m)%Q.
Proof.
  unfold Qeq, Qmult, inject_Z. cbn [Qnum Qden].
  rewrite Pos2Z.inj_mul. lia.
Qed.

Lemma round_down_int (bits : positive) (n : Z) :
  (Rounded.round_down bits (inject_Z n) == inject_Z n)%Q.
Proof.
  unfold Rounded.round_down.
  rewrite <- inject_Z_mult, Qfloor_Z.
  unfold Qeq, inject_Z. cbn [Qnum Qden]. lia.
Qed.

Lemma round_down_laws (bits : positive) :
  Rounded.rounding_laws (Rounded.round_down bits).
Proof.
  split.
  - intros p q Hpq. unfold Rounded.round_down.
    assert (Hfl : (Qfloor (p * inject_Z (Z.pos (2 ^ bits)))
                   <= Qfloor (q * inject_Z (Z.pos (2 ^ bits))))%Z).
    { apply Qfloor_resp_le. apply Qmult_le_compat_r; [done|].
      unfold Qle, inject_Z. cbn. lia. }
    unfold Qle. cbn [Qnum Qden]. nia.
  - apply (round_down_int bits 0).
  - apply (round_down_int bits 1).
  - apply (round_down_int bits 4).
  - intros n _. generalize (inject_Z n). intros q.
    unfold Rounded.round_down at 1.
    set (m := Qfloor (q * inject_Z (Z.pos (2 ^ bits)))).
    assert (Hfl : Qfloor (4 * Rounded.round_down bits q
                          * inject_Z (Z.pos (2 ^ bits))) = (4 * m)%Z).
    { rewrite <- (Qfloor_Z (4 * m)). apply Qfloor_comp.
      unfold Rounded.round_down. fold m.
      rewrite <- Qmult_assoc, scaled_back, inject_Z_mult. reflexivity. }
    rewrite Hfl. unfold Rounded.round_down. fold m.
    unfold Qeq, Qmult. cbn [Qnum Qden]. lia.
Qed.

Section RoundedArith.
Variables (rnd rnd32 : Q -> Q).
Hypothesis rnd_laws : Rounded.rounding_laws rnd.
Hypothesis rnd32_laws : Rounded.rounding_laws rnd32.

Lemma rnd_proper (r : Q -> Q) (p q : Q) :
  Rounded.rounding_laws r -> (p == q)%Q -> (r p == r q)%Q.
Proof.
  intros Hr Hpq.
  pose proof (Rounded.rnd_mono r Hr p q ltac:(lra)).
  pose proof (Rounded.rnd_mono r Hr q p ltac:(lra)). lra.
Qed.

Lemma rnd_within (r : Q -> Q) (q : Q) :
  Rounded.rounding_laws r -> (0 <= q <= 4)%Q -> (0 <= r q <= 4)%Q.
Proof.
  intros Hr [Hlo Hhi].
  pose proof (Rounded.rnd_0 r Hr). pose proof (Rounded.rnd_4 r Hr).
  pose proof (Rounded.rnd_mono r Hr 0 q Hlo).
  pose proof (Rounded.rnd_mono r Hr q 4 Hhi). lra.
Qed.

(** The estimate of one thread, [4.0 * inside / iterations] stored as a
    float32, lies between 0 and 4 whenever [0 <= inside <= iterations]. *)
Lemma estimate_within (inside iterations : Z) :
  0 <= inside <= iterations -> 1 <= iterations < 2 ^ 63 ->
  (0 <= rnd32 (rnd (rnd (rnd (inject_Z 4) * rnd (inject_Z inside))
                    / rnd (inject_Z iterations)))
     <= 4)%Q.
Proof.
  intros [Hlo Hhi] Hit.
  pose proof (Rounded.rnd_mono rnd rnd_laws) as Hmono.
  pose proof (Rounded.rnd_0 rnd rnd_laws) as H0.
  pose proof (Rounded.rnd_1 rnd rnd_laws) as H1.
  pose proof (Rounded.rnd_4 rnd rnd_laws) as H4.
  assert (Hscale : (rnd (4 * rnd (inject_Z inside))
                    == 4 * rnd (inject_Z inside))%Q).
  { apply (Rounded.rnd_scale4 rnd rnd_laws). unfold Int.is_int64. lia. }
  assert (Ha : (rnd 0 <= rnd (inject_Z inside))%Q).
  { apply Hmono. change 0%Q with (inject_Z 0). by rewrite <- Zle_Qle. }
  assert (Had : (rnd (inject_Z inside) <= rnd (inject_Z iterations))%Q)
    by (apply Hmono; by rewrite <- Zle_Qle).
  assert (Hd : (rnd 1 <= rnd (inject_Z iterations))%Q).
  { apply Hmono. change 1%Q with (inject_Z 1). rewrite <- Zle_Qle. lia. }
  assert (Hn : (rnd (rnd (inject_Z 4) * rnd (inject_Z inside))
                == rnd (4 * rnd (inject_Z inside)))%Q).
  { apply rnd_proper; [done|]. change (inject_Z 4) with 4%Q.
    generalize (rnd (inject_Z inside)). intros a.
    apply Qmult_comp; [exact H4|reflexivity]. }
  revert Hn Hscale Ha Had Hd.
  generalize (rnd (rnd (inject_Z 4) * rnd (inject_Z inside))).
  generalize (rnd (4 * rnd (inject_Z inside))).
  generalize (rnd (inject_Z inside)). generalize (rnd (inject_Z iterations)).
  intros d a n' n Hn Hscale Ha Had Hd.
  apply rnd_within; [done|]. apply rnd_within; [done|]. split.
  - apply Qle_shift_div_l; lra.
  - apply Qle_shift_div_r; lra.
Qed.
End RoundedArith.

(** C6: for a thread [tid] of the grid (it has a stream in [rng_states]
    and an entry in [out]) and an int64 [iterations >= 1], [compute_pi] stores
    [4.0 * inside / iterations] in [out[tid]], [inside] being the number of
    the [iterations] pairs drawn from the thread's stream with
    [x^2 + y^2 <= 1.0]; as [0 <= inside <= iterations], the stored entry
    lies in [0, 4].  The circle test and the estimate are written out with
    their roundings: the squares and their sum are float32 operations
    ([rnd32] after [rnd]), the product and the quotient of the estimate are
    float64 operations ([rnd]), and the store into the float32 array [out]
    casts ([rnd32]); [rnd] and [rnd32] are any rules that satisfy
    [rounding_laws]. *)
Theorem compute_pi_estimate (rnd rnd32 : Q -> Q) {rng_state : Type}
    (next_float32 : rng_state -> rng_state * Q)
    (rng_states : list rng_state) (iterations : Z) (tid : nat)
    (out : list Q) (s : rng_state) :
  Rounded.rounding_laws rnd -> Rounded.rounding_laws rnd32 ->
  1 <= iterations < 2 ^ 63 ->
  rng_states !! tid = Some s -> (tid < length out)%nat ->
  let pairs := (draw_pairs next_float32 s (Z.to_nat iterations)).1 in
  let in_unit_circle := fun p : Q * Q =>
    Qle_bool (rnd32 (rnd (rnd32 (rnd (p.1 * p.1))
                          + rnd32 (rnd (p.2 * p.2)))))%Q
             (rnd 1%Q) in
  let inside :=
    Z.of_nat (length (filter (fun p => in_unit_circle p = true) pairs)) in
  exists (rng_states' : list rng_state) (out' : list Q),
    @compute_pi Q (Rounded.arith rnd rnd32) rng_state next_float32
      rng_states iterations tid out
      = Some (rng_states', out') /\
    length pairs = Z.to_nat iterations /\
    0 <= inside <= iterations /\
    out' !! tid
    = Some (rnd32 (rnd (rnd (rnd 4 * rnd (inject_Z inside))
                        / rnd (inject_Z iterations))))%Q /\
    (forall j : nat, j <> tid -> out' !! j = out !! j) /\
    (forall v : Q, out' !! tid = Some v -> (0 <= v <= 4)%Q).
Proof.
  intros Hrnd Hrnd32 Hit Hs Hout pairs in_unit_circle inside.
  pose (arith := Rounded.arith rnd rnd32).
  assert (Hcount : inside = @count_inside Q arith pairs) by reflexivity.
  assert (Hinside : 0 <= inside <= iterations).
  { pose proof (@count_inside_bounds Q arith rng_state next_float32 s
                  (Z.to_nat iterations)) as Hb.
    fold pairs in Hb. rewrite <- Hcount in Hb. lia. }
  eexists _, _. split.
  { apply (@compute_pi_runs Q arith); [exact Hs|exact Hout]. }
  split; [apply draw_pairs_length|]. split; [exact Hinside|].
  fold pairs. rewrite <- Hcount. split; [|split].
  - by apply list_lookup_insert_eq.
  - intros j Hj. by apply list_lookup_insert_ne.
  - intros v Hv. rewrite list_lookup_insert_eq in Hv by done.
    injection Hv as <-. by apply estimate_within.
Qed.

End MonteCarloPiProofs.

(** ** The theorems at concrete inputs *)

Module Instances.


Lemma compute_pi_estimate_witness :
  let rnd := Rounded.round_down 53 in
  let rnd32 := Rounded.round_down 24 in
  let pairs := (MonteCarloPi.draw_pairs MonteCarloPi.lcg_next 7 (Z.to_nat 4)).1 in
  let in_unit_circle := fun p : Q * Q =>
    Qle_bool (rnd32 (rnd (rnd32 (rnd (p.1 * p.1))
                          + rnd32 (rnd (p.2 * p.2)))))%Q
             (rnd 1%Q) in
  let inside :=
    Z.of_nat (length (filter (fun p => in_unit_circle p = true) pairs)) in
  exists (rng_states' : list Z) (out' : list Q),
    @MonteCarloPi.compute_pi Q (Rounded.arith rnd rnd32) Z
      MonteCarloPi.lcg_next [1; 7] 4 1 [0%Q; 0%Q]
      = Some (rng_states', out') /\
    length pairs = Z.to_nat 4 /\
    0 <= inside <= 4 /\
    out' !! 1%nat
    = Some (rnd32 (rnd (rnd (rnd 4 * rnd (inject_Z inside))
                        / rnd (inject_Z 4))))%Q /\
    (forall j : nat, j <> 1%nat -> out' !! j = [0%Q; 0%Q] !! j) /\
    (forall v : Q, out' !! 1%nat = Some v -> (0 <= v <= 4)%Q).
Proof.
  apply (MonteCarloPiProofs.compute_pi_estimate
           (Rounded.round_down 53) (Rounded.round_down 24)
           MonteCarloPi.lcg_next [1; 7] 4 1 [0%Q; 0%Q] 7).
  - apply MonteCarloPiProofs.round_down_laws.
  - apply MonteCarloPiProofs.round_down_laws.
  - lia.
  - reflexivity.
  - simpl. lia.
Defined.

(** The definitions run: a few calls of the notebooks, evaluated. *)

Example zero_suppress_waveform :
  Ufunc.zero_suppress [3; 20; -7; 15; 14] [15] = Some [0; 20; 0; 15; 0].
Proof. reflexivity. Qed.

Example rel_diff_arrays :
  (Ufunc.rel_diff [1; 3] [1; 1] = Some [0; 1])%float /\
  (Ufunc.rel_diff [0; 1; 2] [1; 3] = None)%float.
Proof. split; vm_compute; reflexivity. Qed.

Example mandelbrot_points :
  Mandelbrot.mandelbrot 0%float 0%float 20 = 255 /\
  Mandelbrot.mandelbrot 1%float 1%float 20 = 1 /\
  Mandelbrot.mandelbrot 0.5%float 0.5%float 20 = 4 /\
  Mandelbrot.mandelbrot 1%float 1%float (-3) = 255.
Proof. repeat split; vm_compute; reflexivity. Qed.

Example add_kernel_launch :
  AddKernel.launch 2 2 [1; 2; 3; 4; 5] [10; 20; 30; 40; 50]
                   (Cuda.threads1 2 2) [0; 0; 0; 0; 0]
    = Some [11; 22; 33; 44; 55] /\
  AddKernel.launch 2 2 [1; 2; 3; 4; 5] [10; 20; 30; 40; 50]
                   (Cuda.threads1 2 2) [0; 0; 0; 0]
    = None /\
  AddKernel.writes 2 2 5 (0, 0)%nat = [0; 4]%nat.
Proof. repeat split; vm_compute; reflexivity. Qed.

Example cpu_histogram_run :
  (Histogram.cpu_histogram
     [-3.5; 0.125; 0.25; 3.75; 4.0; -4.5; 1e20]%float (-4)%float 4%float
     [0; 0; 0; 0; 0; 0; 0; 0; 0; 0]).2
  = [2; 0; 0; 0; 0; 2; 0; 0; 0; 1].
Proof. vm_compute. reflexivity. Qed.

(** At the top of the int32 range the increment wraps around. *)
Example cpu_histogram_wraps :
  (Histogram.cpu_histogram [0.5]%float 0%float 1%float [2147483647]).2
  = [-2147483648].
Proof. vm_compute. reflexivity. Qed.

Example compute_pi_run :
  MonteCarloPi.compute_pi
    (H := Rounded.arith (Rounded.round_down 20) (Rounded.round_down 10))
    MonteCarloPi.lcg_next [1; 7] 4 1 [0%Q; 0%Q]
  = Some ([1; 15], [0%Q; Qmake 4096 1024]).
Proof. vm_compute. reflexivity. Qed.

Example compute_pi_run_float64 :
  MonteCarloPi.compute_pi MonteCarloPi.lcg_next_float [1; 7] 4 1
                          [0; 0]%float
  = Some ([1; 15], [0; 4]%float) /\
  MonteCarloPi.compute_pi MonteCarloPi.lcg_next_float [1; 13] 6 1
                          [0; 0]%float
  = Some ([1; 9], [0; 0x1.aaaaaap+1]%float) /\
  MonteCarloPi.compute_pi MonteCarloPi.lcg_next_float [1; 7] 4 2
                          [0; 0]%float
  = None.
Proof. repeat split; vm_compute; reflexivity. Qed.

Example sum_reduce_int64_wraps :
  Reduce.sequential Reduce.sum_reduce 0 [9223372036854775807; 1; -5]
    = 9223372036854775803 /\
  Reduce.eval Reduce.sum_reduce
    (Reduce.Node (Reduce.Leaf (-5))
       (Reduce.Node (Reduce.Leaf 9223372036854775807) (Reduce.Leaf 1)))
    = 9223372036854775803.
Proof. split; vm_compute; reflexivity. Qed.

(** The four threads of a 2 x 2 launch of [add_kernel] on five elements
    store to [0, 4], [1], [2] and [3]; the stores can happen in index
    order, thread 0 being interrupted by the three others. *)
Example add_kernel_interleaved :
  Cuda.interleaving (AddKernel.writes 2 2 5 <$> Cuda.threads1 2 2)
                    [0; 1; 2; 3; 4]%nat /\
  AddKernel.run_stores [1; 2; 3; 4; 5] [10; 20; 30; 40; 50]
                       [0; 1; 2; 3; 4]%nat [0; 0; 0; 0; 0]
    = Some [11; 22; 33; 44; 55].
Proof.
  split; [|reflexivity].
  apply (Cuda.interleaving_step _ 0%nat 0%nat [4%nat]); [reflexivity|].
  apply (Cuda.interleaving_step _ 1%nat 1%nat []); [reflexivity|].
  apply (Cuda.interleaving_step _ 2%nat 2%nat []); [reflexivity|].
  apply (Cuda.interleaving_step _ 3%nat 3%nat []); [reflexivity|].
  apply (Cuda.interleaving_step _ 0%nat 4%nat []); [reflexivity|].
  apply Cuda.interleaving_done. repeat constructor.
Qed.

End Instances.

(** ** More on the Mandelbrot renderers *)

Module RendererFacts.
Import Mandelbrot.

Lemma paint_length color width writes data :
  length (paint color width writes data) = length data.
Proof.
  revert data. induction writes as [|pos ws IH]; intros data; [done|].
  rewrite RendererProofs.paint_cons, IH. apply length_insert.
Qed.

Section Generic.
Context {F : Type} `{Arith F}.

(** X3: The value of [mandelbrot] is an index of the loop or the sentinel 255. *)
Theorem mandelbrot_range (x y : F) (max_iters : Z) :
  0 <= mandelbrot x y max_iters < max_iters \/ mandelbrot x y max_iters = 255.
Proof.
  unfold mandelbrot.
  assert (Hloop : forall (n : nat) (c z : complex) (i : Z),
             i <= mandelbrot_loop c z i n < i + Z.of_nat n
             \/ mandelbrot_loop c z i n = 255).
  { induction n as [|n IH]; intros c z i; [by right|].
    cbn [mandelbrot_loop]. destruct (escaped _); [left; lia|].
    destruct (IH c (cadd (cmul z z) c) (i + 1)) as [Hin|Hout];
      [left; lia|by right]. }
  destruct (Hloop (Z.to_nat max_iters) (Complex x y) czero 0) as [Hin|Hout];
    [left; lia|by right].
Qed.

Lemma mandelbrot_loop_stable (n m : nat) (c z : complex) (i : Z) :
  (n <= m)%nat -> mandelbrot_loop c z i n <> 255 ->
  mandelbrot_loop c z i m = mandelbrot_loop c z i n.
Proof.
  revert m z i. induction n as [|n IH]; intros m z i Hle Hesc; [done|].
  destruct m as [|m]; [lia|]. cbn [mandelbrot_loop] in *.
  destruct (escaped _); [done|]. apply IH; [lia|done].
Qed.

(** X4: Once a point has escaped within [max_iters] iterations, allowing more
    iterations does not change its count. *)
Theorem mandelbrot_stable (x y : F) (max_iters more_iters : Z) :
  max_iters <= more_iters ->
  mandelbrot x y max_iters <> 255 ->
  mandelbrot x y more_iters = mandelbrot x y max_iters.
Proof.
  intros Hle Hesc. unfold mandelbrot in *.
  apply mandelbrot_loop_stable; [lia|done].
Qed.

(** X2: [create_fractal] stores in every pixel [image[y, x]] of a non-empty
    image the colour of that pixel's own point of the viewport, whatever
    the image held before. *)
Theorem create_fractal_pixels (min_x max_x min_y max_y : F)
    (image : ndarray) (iters : Z) :
  shape1 image <> 0%nat -> shape0 image <> 0%nat ->
  length (data image) = (shape0 image * shape1 image)%nat ->
  exists result : ndarray,
    create_fractal min_x max_x min_y max_y image iters = Some result /\
    shape0 result = shape0 image /\
    shape1 result = shape1 image /\
    length (data result) = length (data image) /\
    forall x y : nat,
      (x < shape1 image)%nat -> (y < shape0 image)%nat ->
      get_pixel result y x =
        Some (Int.uint8
                (mandelbrot
                   (fadd min_x
                      (fmul (of_int (Z.of_nat x))
                         (fdiv (fsub max_x min_x)
                               (of_int (Z.of_nat (shape1 image))))))
                   (fadd min_y
                      (fmul (of_int (Z.of_nat y))
                         (fdiv (fsub max_y min_y)
                               (of_int (Z.of_nat (shape0 image))))))
                   iters)).
Proof.
  intros Hw Hh Hlen. eexists. split.
  { by apply RendererProofs.create_fractal_paint. }
  cbn [shape0 shape1 data]. split; [done|]. split; [done|].
  split; [apply paint_length|].
  intros x y Hx Hy. unfold get_pixel. cbn [shape1 data].
  rewrite RendererProofs.paint_lookup
    by apply RendererProofs.column_major_in_width.
  assert (Hmod : ((y * shape1 image + x) mod shape1 image = x)%nat).
  { rewrite Nat.add_comm, Nat.Div0.mod_add. by apply Nat.mod_small. }
  assert (Hdiv : ((y * shape1 image + x) / shape1 image = y)%nat).
  { rewrite Nat.add_comm, Nat.div_add by done.
    rewrite Nat.div_small by done. done. }
  rewrite Hmod, Hdiv. rewrite decide_True; [reflexivity|].
  split; [nia|]. by apply RendererProofs.column_major_elem.
Qed.

(** X1: The launch of the notebook, [nthread] x [nthread] threads in each of
    [(width // nthread + 1, height // nthread + 1)] blocks, reaches every
    pixel: the kernel leaves the image [create_fractal] computes, in
    whatever order its threads run. *)
Theorem create_fractal_gpu_launch (min_x max_x min_y max_y : F) (iters : Z)
    (image : ndarray) (nthread : nat) (schedule : list (nat * nat)) :
  shape1 image <> 0%nat -> shape0 image <> 0%nat -> (0 < nthread)%nat ->
  schedule ≡ₚ Cuda.grid2 (shape1 image / nthread + 1,
                           shape0 image / nthread + 1)%nat
                          (nthread, nthread) ->
  create_fractal min_x max_x min_y max_y image iters =
    Some (Cuda.run (create_fractal_gpu min_x max_x min_y max_y iters)
                   schedule image).
Proof.
  intros Hw Hh Hn Hsched.
  apply RendererProofs.create_fractal_gpu_agrees; [done..|].
  intros x y Hx Hy. rewrite Hsched. apply CudaFacts.grid2_elem.
  cbn [fst snd].
  pose proof (Nat.div_mod_eq (shape1 image) nthread).
  pose proof (Nat.div_mod_eq (shape0 image) nthread).
  pose proof (Nat.mod_upper_bound (shape1 image) nthread ltac:(lia)).
  pose proof (Nat.mod_upper_bound (shape0 image) nthread ltac:(lia)).
  nia.
Qed.
End Generic.

Lemma mandelbrot_stable_witness :
  Mandelbrot.mandelbrot 0.5%float 0.5%float 40
  = Mandelbrot.mandelbrot 0.5%float 0.5%float 20.
Proof.
  apply (mandelbrot_stable 0.5%float 0.5%float 20 40).
  - lia.
  - vm_compute. discriminate.
Defined.

Lemma create_fractal_pixels_witness :
  exists result : ndarray,
    create_fractal (-2)%float 1%float (-1)%float 1%float
                   (NdArray 2 3 [7; 7; 7; 7; 7; 7]) 20 = Some result /\
    shape0 result = 2%nat /\
    shape1 result = 3%nat /\
    length (data result) = 6%nat /\
    forall x y : nat,
      (x < 3)%nat -> (y < 2)%nat ->
      get_pixel result y x =
        Some (Int.uint8
                (mandelbrot
                   (fadd (-2)%float
                      (fmul (of_int (Z.of_nat x))
                         (fdiv (fsub 1%float (-2)%float)
                               (of_int (Z.of_nat 3)))))
                   (fadd (-1)%float
                      (fmul (of_int (Z.of_nat y))
                         (fdiv (fsub 1%float (-1)%float)
                               (of_int (Z.of_nat 2)))))
                   20)).
Proof.
  apply (create_fractal_pixels (-2)%float 1%float (-1)%float 1%float
           (NdArray 2 3 [7; 7; 7; 7; 7; 7]) 20).
  - discriminate.
  - discriminate.
  - reflexivity.
Defined.

Lemma create_fractal_gpu_launch_witness :
  create_fractal (-2)%float 1%float (-1)%float 1%float
                 (NdArray 2 3 [0; 0; 0; 0; 0; 0]) 20 =
    Some (Cuda.run (create_fractal_gpu (-2)%float 1%float (-1)%float 1%float 20)
                   (rev (Cuda.grid2 (3 / 2 + 1, 2 / 2 + 1)%nat (2, 2)%nat))
                   (NdArray 2 3 [0; 0; 0; 0; 0; 0])).
Proof.
  apply (create_fractal_gpu_launch (-2)%float 1%float (-1)%float 1%float 20
           (NdArray 2 3 [0; 0; 0; 0; 0; 0]) 2).
  - discriminate.
  - discriminate.
  - lia.
  - symmetry. apply Permutation_rev.
Defined.

End RendererFacts.

(** ** The racy counter, in every interleaving *)

Module CounterRaceProofs.
Import Counter CounterRace.

Lemma stores_left_insert (ts : list thread) (k : nat) (t t' : thread) :
  ts !! k = Some t ->
  (stores_left (<[k := t']> ts)
   + (match code t with [] => 0 | _ :: _ => 1 end)
   = stores_left ts + (match code t' with [] => 0 | _ :: _ => 1 end))%nat.
Proof.
  revert k. induction ts as [|a ts IH]; intros [|k] Hk; try discriminate.
  - injection Hk as ->. cbn. lia.
  - specialize (IH k Hk).
    change (<[S k := t']> (a :: ts)) with (a :: <[k := t']> ts).
    cbn [stores_left]. lia.
Qed.

Lemma stores_left_finished (ts : list thread) :
  Forall (fun t => code t = []) ts -> stores_left ts = 0%nat.
Proof.
  induction 1 as [|t ts Ht _ IH]; [done|]. cbn. by rewrite Ht, IH.
Qed.

Lemma stores_left_replicate (n : nat) (t : thread) :
  code t <> [] -> stores_left (replicate n t) = n.
Proof.
  intros Ht. induction n as [|n IH]; [done|]. cbn [replicate stores_left].
  rewrite IH. destruct (code t); [done|lia].
Qed.

Lemma race_inv_step (n : nat) (m m' : machine) :
  Z.of_nat n < 2 ^ 31 ->
  race_inv n m -> step m m' -> race_inv n m'.
Proof.
  intros Hn (c & Hmem & Hc & Hsum & Hone & Hts) Hstep.
  destruct Hstep as [mem ts k i rest r r' mem' Hk Hexec]. cbn [fst snd] in *.
  subst mem.
  pose proof (proj1 (Forall_lookup _ _) Hts k _ Hk) as Ht. cbn [code reg] in Ht.
  pose proof (stores_left_insert ts k _ (Thread rest r') Hk) as Hleft.
  cbn [code] in Hleft.
  destruct Ht as [Ht|[[Ht Hr]|(Ht & Hr & Hrsum)]]; [discriminate| |].
  - (* the thread loads the counter *)
    injection Ht as -> ->. cbn in Hexec. injection Hexec as <- <-.
    exists c. cbn [fst snd]. cbn in Hleft.
    replace (stores_left (<[k := Thread [AddStore 0 1] c]> ts))
      with (stores_left ts) by lia.
    repeat split; try done.
    apply Forall_insert.
    + eapply Forall_impl; [exact Hts|]. intros t Ht. exact Ht.
    + right. right. cbn [code reg]. done.
  - (* the thread stores what it loaded, plus one *)
    injection Ht as -> ->. cbn in Hexec. injection Hexec as <- <-.
    cbn in Hleft.
    assert (Hdec : (stores_left (<[k := Thread [] r]> ts) + 1
                    = stores_left ts)%nat) by lia.
    assert (Hincr : Int.int32 (r + 1) = r + 1).
    { apply IntFacts.int32_id. unfold Int.is_int32. lia. }
    exists (r + 1). cbn [fst snd]. rewrite Hincr.
    split; [done|]. split; [lia|]. split; [lia|]. split; [lia|].
    apply Forall_insert; [|by left].
    eapply Forall_impl; [exact Hts|]. intros t Ht. cbn beta in Ht |- *.
    destruct Ht as [Ht|[Ht|(Ht & Hr' & Hrsum')]];
      [by left|by right; left|right; right].
    split; [done|]. split; [done|]. lia.
Qed.

Lemma race_inv_steps (n : nat) (m m' : machine) :
  Z.of_nat n < 2 ^ 31 ->
  race_inv n m -> rtc step m m' -> race_inv n m'.
Proof.
  intros Hn Hinv Hsteps. induction Hsteps as [|m1 m2 m3 Hstep _ IH]; [done|].
  apply IH. by apply (race_inv_step n m1).
Qed.

(** X5: However the loads and stores of [thread_counter_race_condition]
    interleave, a complete run leaves a counter between 1 and the number
    of threads: updates can be lost, never invented. *)
Theorem race_counter_bounds (blocks threads : nat) (m : machine) :
  (1 <= blocks * threads)%nat -> Z.of_nat (blocks * threads) < 2 ^ 31 ->
  rtc step (launch blocks threads thread_counter_race_condition [0]) m ->
  finished m ->
  exists c : Z, m.1 = [c] /\ 1 <= c <= Z.of_nat (blocks * threads).
Proof.
  intros Hpos Hn Hsteps Hfin.
  assert (Hinit : race_inv (blocks * threads)
                    (launch blocks threads thread_counter_race_condition [0])).
  { exists 0. unfold launch. cbn [fst snd].
    rewrite stores_left_replicate by done.
    repeat split; try done; try lia.
    apply Forall_replicate. right. left. done. }
  destruct (race_inv_steps _ _ _ Hn Hinit Hsteps)
    as (c & Hmem & Hc & Hsum & Hone & _).
  rewrite (stores_left_finished _ Hfin) in Hsum, Hone.
  exists c. split; [done|]. split; [apply Hone; lia|lia].
Qed.

Lemma step_to (m m' m'' : machine) :
  step m m' -> m' = m'' -> rtc step m m''.
Proof. intros Hstep <-. by apply rtc_once. Qed.

(** The state after the first [k] of [n] racy threads have each run their
    load and their store without being interrupted. *)
Lemma race_one_by_one (n k : nat) :
  (k <= n)%nat -> Z.of_nat n < 2 ^ 31 ->
  rtc step
      ([0], replicate n (Thread thread_counter_race_condition 0))
      ([Z.of_nat k],
       ((fun j => Thread [] (Z.of_nat j)) <$> seq 0 k)
         ++ replicate (n - k) (Thread thread_counter_race_condition 0)).
Proof.
  intros Hk Hn. induction k as [|k IH].
  - rewrite Nat.sub_0_r. apply rtc_refl.
  - etrans; [apply IH; lia|].
    assert (Hlen : length ((fun j => Thread [] (Z.of_nat j)) <$> seq 0 k) = k)
      by (by rewrite length_fmap, length_seq).
    replace (n - k)%nat with (S (n - S k)) by lia.
    eapply rtc_l.
    { eapply (step_thread _ _ k (Load 0) [AddStore 0 1] 0).
      - rewrite lookup_app_r by lia. rewrite Hlen, Nat.sub_diag. reflexivity.
      - reflexivity. }
    rewrite insert_app_r_alt by lia. rewrite Hlen, Nat.sub_diag.
    cbn [insert list_insert].
    eapply step_to.
    { eapply (step_thread _ _ k (AddStore 0 1) [] (Z.of_nat k)).
      - rewrite lookup_app_r by lia. rewrite Hlen, Nat.sub_diag. reflexivity.
      - reflexivity. }
    rewrite insert_app_r_alt by lia. rewrite Hlen, Nat.sub_diag.
    cbn [insert list_insert]. f_equal.
    + f_equal. rewrite IntFacts.int32_id; [lia|]. unfold Int.is_int32. lia.
    + rewrite seq_S, fmap_app, <- app_assoc. reflexivity.
Qed.

(** X6: When no two racy threads overlap, no update is lost: there is a
    complete run that leaves the number of threads in the counter. *)
Theorem race_without_overlap (blocks threads : nat) :
  Z.of_nat (blocks * threads) < 2 ^ 31 ->
  exists m : machine,
    rtc step (launch blocks threads thread_counter_race_condition [0]) m /\
    finished m /\ m.1 = [Z.of_nat (blocks * threads)].
Proof.
  intros Hn. eexists. split; [|split].
  - unfold launch.
    apply (race_one_by_one (blocks * threads) (blocks * threads));
      [lia|done].
  - unfold finished. cbn [snd]. rewrite Nat.sub_diag, app_nil_r.
    apply Forall_fmap, Forall_forall. done.
  - reflexivity.
Qed.

Lemma race_counter_bounds_witness :
  exists c : Z,
    (([2], [Thread [] 0; Thread [] 1]) : machine).1 = [c] /\
    1 <= c <= Z.of_nat (1 * 2).
Proof.
  apply (race_counter_bounds 1 2 ([2], [Thread [] 0; Thread [] 1])).
  - cbn. lia.
  - reflexivity.
  - apply (race_one_by_one 2 2); [lia|reflexivity].
  - repeat constructor.
Defined.

Lemma race_without_overlap_witness :
  exists m : machine,
    rtc step (launch 64 64 thread_counter_race_condition [0]) m /\
    finished m /\ m.1 = [Z.of_nat (64 * 64)].
Proof. apply (race_without_overlap 64 64). reflexivity. Defined.

End CounterRaceProofs.

(** ** More on the histograms *)

Module HistogramFacts.
Import Histogram.

(** Reading an array at the positions of a grid yields the elements the grid
    reaches: the first [G] of them. *)
Lemma omap_lookup_seq_take {A B} (g : A -> B) (x : list A) (s G : nat) :
  omap (fun i => g <$> x !! (i - s)%nat) (seq s G) = g <$> take G x.
Proof.
  revert s G. induction x as [|a x IH]; intros s G.
  - rewrite take_nil. generalize (seq s G). intros l.
    induction l as [|i l IHl]; [done|].
    cbn [omap list_omap]. by rewrite lookup_nil.
  - destruct G as [|G]; [done|].
    cbn [seq omap list_omap]. rewrite Nat.sub_diag. cbn. f_equal.
    rewrite <- (IH (S s) G).
    apply HistogramProofs.omap_ext_in. intros i Hi. apply elem_of_seq in Hi.
    replace (i - s)%nat with (S (i - S s)) by lia. done.
Qed.

Lemma tally_app (bins1 bins2 h : list Z) :
  tally (bins1 ++ bins2) h = tally bins2 (tally bins1 h).
Proof. unfold tally. apply foldl_app. Qed.

Section WithArith.
Context {F : Type} `{Arith F}.
Variables (xmin xmax : F).

(** X7: [cuda_histogram] has no grid-stride loop: a grid of [G] threads,
    in any order, bins the first [G] elements of [x] and ignores the rest;
    what it leaves is the guarded tally of the bin numbers
    [int32((x[i] - xmin) / bin_width)] of that prefix, in the arithmetic of
    the kernel. *)
Theorem cuda_histogram_prefix (x : list F) (histogram_out : list Z)
    (blocks threads : nat) (schedule : list nat) :
  schedule ≡ₚ Cuda.grid1 blocks threads ->
  Cuda.run (cuda_histogram x xmin xmax) schedule histogram_out
  = tally (map (fun element =>
                  to_int32
                    (fdiv (fsub element xmin)
                       (fdiv (fsub xmax xmin)
                          (of_int (Z.of_nat (length histogram_out))))))
               (take (blocks * threads) x))
          histogram_out.
Proof.
  intros Hsched.
  rewrite (HistogramProofs.cuda_histogram_run x xmin xmax schedule
             (length histogram_out)) by done.
  rewrite CudaFacts.grid1_seq in Hsched.
  rewrite (HistogramProofs.tally_perm _ _ _ (omap_Permutation _ _ _ Hsched)).
  f_equal.
  change (map ?f (take ?n ?l)) with (f <$> take n l).
  rewrite <- (omap_lookup_seq_take _ x 0 (blocks * threads)).
  apply HistogramProofs.omap_ext_in. intros i _. by rewrite Nat.sub_0_r.
Qed.

(** X8: A histogram can be filled chunk by chunk: binning [x1 ++ x2] is binning
    [x2] into the histogram that binning [x1] left. *)
Theorem cpu_histogram_app (x1 x2 : list F) (histogram_out : list Z) :
  (cpu_histogram (x1 ++ x2) xmin xmax histogram_out).2
  = (cpu_histogram x2 xmin xmax
       (cpu_histogram x1 xmin xmax histogram_out).2).2.
Proof.
  rewrite !HistogramProofs.cpu_histogram_tally.
  rewrite HistogramProofs.tally_length. unfold bins_of.
  by rewrite map_app, tally_app.
Qed.

(** X9: The histogram does not depend on the order of the elements of [x]. *)
Theorem cpu_histogram_perm (x x' : list F) (histogram_out : list Z) :
  x ≡ₚ x' ->
  (cpu_histogram x xmin xmax histogram_out).2
  = (cpu_histogram x' xmin xmax histogram_out).2.
Proof.
  intros Hperm. rewrite !HistogramProofs.cpu_histogram_tally.
  apply HistogramProofs.tally_perm. unfold bins_of.
  change (map ?f ?l) with (f <$> l). by rewrite Hperm.
Qed.
End WithArith.

Lemma cuda_histogram_prefix_witness :
  Cuda.run (cuda_histogram [-3.5; 0.125; 0.25; 3.75; 4.0]%float
                           (-4)%float 4%float)
           (rev (Cuda.grid1 1 3)) [0; 0; 0; 0; 0; 0; 0; 0; 0; 0]
  = tally (map (fun element : float =>
                  to_int32
                    (fdiv (fsub element (-4)%float)
                       (fdiv (fsub 4%float (-4)%float)
                          (of_int (Z.of_nat
                             (length [0; 0; 0; 0; 0; 0; 0; 0; 0; 0]))))))
               (take (1 * 3) [-3.5; 0.125; 0.25; 3.75; 4.0]%float))
          [0; 0; 0; 0; 0; 0; 0; 0; 0; 0].
Proof.
  apply (cuda_histogram_prefix (-4)%float 4%float
           [-3.5; 0.125; 0.25; 3.75; 4.0]%float
           [0; 0; 0; 0; 0; 0; 0; 0; 0; 0] 1 3 (rev (Cuda.grid1 1 3))).
  symmetry. apply Permutation_rev.
Defined.

Lemma cpu_histogram_perm_witness :
  (cpu_histogram [-3.5; 0.125; 0.25]%float (-4)%float 4%float
                 [0; 0; 0; 0; 0; 0; 0; 0; 0; 0]).2
  = (cpu_histogram (rev [-3.5; 0.125; 0.25]%float) (-4)%float 4%float
                   [0; 0; 0; 0; 0; 0; 0; 0; 0; 0]).2.
Proof.
  apply (cpu_histogram_perm (-4)%float 4%float [-3.5; 0.125; 0.25]%float
           (rev [-3.5; 0.125; 0.25]%float)).
  apply Permutation_rev.
Defined.

End HistogramFacts.

(** ** Grid-stride loops *)

Module GridStride.
Import AddKernel.

Lemma NoDup_flat_map {A B} (f : A -> list B) (l : list A) :
  NoDup l -> (forall a, a ∈ l -> NoDup (f a)) ->
  (forall a1 a2 b, a1 ∈ l -> a2 ∈ l -> b ∈ f a1 -> b ∈ f a2 -> a1 = a2) ->
  NoDup (flat_map f l).
Proof.
  induction l as [|a l IH]; intros Hl Hf Hdisj; [constructor|].
  apply NoDup_cons in Hl as [Ha Hl]. cbn [flat_map].
  apply NoDup_app. split; [|split].
  - apply Hf. left.
  - intros b Hb Hin. apply list_elem_of_In, in_flat_map in Hin as (a' & Ha' & Hb').
    apply list_elem_of_In in Ha', Hb'.
    assert (a = a') as -> by (apply (Hdisj a a' b); [left|by right|done|done]).
    done.
  - apply IH; [done| |].
    + intros a' Ha'. apply Hf. by right.
    + intros a1 a2 b H1 H2. apply Hdisj; by right.
Qed.

Lemma NoDup_threads1 (blocks threads : nat) :
  NoDup (Cuda.threads1 blocks threads).
Proof.
  unfold Cuda.threads1. apply NoDup_flat_map.
  - apply NoDup_seq.
  - intros ty _. apply (NoDup_fmap_2_strong (fun tx => (tx, ty))).
    + by intros tx1 tx2 _ _ [= ->].
    + apply NoDup_seq.
  - intros ty1 ty2 [tx ty] _ _ H1 H2.
    apply list_elem_of_fmap in H1 as (? & [= _ ->] & _).
    apply list_elem_of_fmap in H2 as (? & [= _ ->] & _). done.
Qed.

Lemma NoDup_range (start stop step : nat) :
  (1 <= step)%nat -> NoDup (Py.range start stop step).
Proof.
  intros Hstep. unfold Py.range.
  apply (NoDup_fmap_2_strong (fun k => start + k * step)%nat).
  - intros k1 k2 _ _ Heq. nia.
  - apply NoDup_seq.
Qed.

(** The loops of a launch share out the indices below [n]: each index is
    visited by one thread, once. *)
Lemma writes_partition (block_size grid_size n : nat) :
  (1 <= block_size * grid_size)%nat ->
  flat_map (writes block_size grid_size n)
           (Cuda.threads1 grid_size block_size) ≡ₚ seq 0 n.
Proof.
  intros Hgrid. apply NoDup_Permutation.
  - apply NoDup_flat_map.
    + apply NoDup_threads1.
    + intros [tx ty] _. unfold writes. apply NoDup_range. done.
    + intros [tx1 ty1] [tx2 ty2] i H1 H2 Hi1 Hi2.
      apply CudaFacts.threads1_elem in H1 as [Htx1 Hty1].
      apply CudaFacts.threads1_elem in H2 as [Htx2 Hty2].
      apply AddKernelProofs.writes_elem in Hi1 as [_ Hi1]; [|done..].
      apply AddKernelProofs.writes_elem in Hi2 as [_ Hi2]; [|done..].
      apply (AddKernelProofs.start_injective block_size); [done..|congruence].
  - apply NoDup_seq.
  - intros i. rewrite elem_of_seq, list_elem_of_In, in_flat_map. split.
    + intros ([tx ty] & Ht & Hi). apply list_elem_of_In in Ht, Hi.
      apply CudaFacts.threads1_elem in Ht as [Htx Hty].
      apply AddKernelProofs.writes_elem in Hi as [Hi _]; [lia|done..].
    + intros [_ Hi].
      destruct (AddKernelProofs.thread_of_start block_size grid_size
                  (i mod (block_size * grid_size))) as (Htx & Hty & Hs).
      { apply Nat.mod_upper_bound. lia. }
      eexists (_, _). split.
      * apply list_elem_of_In, CudaFacts.threads1_elem. split; [exact Htx|exact Hty].
      * apply list_elem_of_In, AddKernelProofs.writes_elem; [done..|]. split; [done|].
        by rewrite Hs.
Qed.

(** The same for the threads taken in any order. *)
Lemma writes_partition_perm (block_size grid_size n : nat)
    (schedule : list (nat * nat)) :
  (1 <= block_size * grid_size)%nat ->
  schedule ≡ₚ Cuda.threads1 grid_size block_size ->
  flat_map (writes block_size grid_size n) schedule ≡ₚ seq 0 n.
Proof.
  intros Hgrid Hsched.
  rewrite <- (writes_partition block_size grid_size n Hgrid).
  change (flat_map ?f ?l) with (l ≫= f). by rewrite Hsched.
Qed.

Lemma concat_insert_perm {A} (ts : list (list A)) (k : nat) (a : A)
    (t : list A) :
  ts !! k = Some (a :: t) -> concat ts ≡ₚ a :: concat (<[k := t]> ts).
Proof.
  revert k. induction ts as [|t0 ts IH]; intros [|k] Hk; try discriminate.
  - injection Hk as ->. done.
  - cbn [concat]. change (<[S k := t]> (t0 :: ts)) with (t0 :: <[k := t]> ts).
    cbn [concat]. rewrite (IH k Hk). symmetry. apply Permutation_middle.
Qed.

(** An interleaving carries out every operation of every thread once. *)
Lemma interleaving_perm {A} (ts : list (list A)) (trace : list A) :
  Cuda.interleaving ts trace -> trace ≡ₚ concat ts.
Proof.
  induction 1 as [ts Hts|ts k a t trace Hk _ IH].
  - induction Hts as [|t ts -> _ IH]; [done|]. exact IH.
  - rewrite (concat_insert_perm ts k a t Hk). by constructor.
Qed.

End GridStride.

(** ** The histogram kernel with a grid-stride loop *)

Module DebugHistogramProofs.
Import Histogram DebugHistogram.

Section WithArith.
Context {F : Type} `{Arith F}.
Variables (x : list F) (xmin xmax : F).

Lemma histogram_body_length (bin_width : F) (h : list Z) (i : nat) :
  length (histogram_body x xmin bin_width h i) = length h.
Proof.
  unfold histogram_body. destruct (x !! i); [|done].
  apply HistogramProofs.count_in_length.
Qed.

Lemma foldl_histogram_body (bin_width : F) (idxs : list nat) (h : list Z) :
  foldl (histogram_body x xmin bin_width) h idxs
  = tally (omap (fun i => bin_plus xmin bin_width <$> x !! i) idxs) h.
Proof.
  revert h. induction idxs as [|i idxs IH]; intros h; [done|].
  cbn [foldl omap list_omap]. rewrite IH. unfold histogram_body.
  destruct (x !! i); done.
Qed.

Lemma tally_omap_length {A} (f : A -> option Z) (l : list A) (h : list Z) :
  length (tally (omap f l) h) = length h.
Proof. apply HistogramProofs.tally_length. Qed.

(** A launch, thread after thread, tallies the bins of the indices the
    threads visit. *)
Lemma histogram_run (block_size grid_size : nat)
    (schedule : list (nat * nat)) (h : list Z) (nbins : nat) :
  length h = nbins ->
  Cuda.run (histogram block_size grid_size x xmin xmax) schedule h
  = tally (omap (fun i => bin_plus xmin (bin_width xmin xmax nbins) <$> x !! i)
                (flat_map (AddKernel.writes block_size grid_size (length x))
                          schedule)) h.
Proof.
  revert h. induction schedule as [|t schedule IH]; intros h Hlen; [done|].
  unfold Cuda.run in *. cbn [foldl flat_map].
  rewrite omap_app, HistogramFacts.tally_app.
  assert (Hone : histogram block_size grid_size x xmin xmax t h
     = tally (omap (fun i => bin_plus xmin (bin_width xmin xmax nbins) <$> x !! i)
                   (AddKernel.writes block_size grid_size (length x) t)) h).
  { unfold histogram. rewrite Hlen. apply foldl_histogram_body. }
  rewrite Hone. apply IH. by rewrite tally_omap_length.
Qed.

(** X10: Whatever the numbers of blocks and of threads, the grid-stride loops bin
    every element of [x], once: the launch leaves the tally of the bins
    [int32((x[i] + xmin) / bin_width)] of all elements, when the threads run
    one after the other in any order, and also when their atomic increments
    interleave in any way. *)
Theorem histogram_any_grid (block_size grid_size : nat)
    (schedule : list (nat * nat)) (histogram_out : list Z) :
  (1 <= block_size * grid_size)%nat ->
  schedule ≡ₚ Cuda.threads1 grid_size block_size ->
  Cuda.run (histogram block_size grid_size x xmin xmax) schedule histogram_out
  = tally (map (bin_plus xmin
                  (bin_width xmin xmax (length histogram_out))) x)
          histogram_out
  /\ forall trace : list nat,
       Cuda.interleaving
         (AddKernel.writes block_size grid_size (length x) <$> schedule)
         trace ->
       foldl (histogram_body x xmin
                (bin_width xmin xmax (length histogram_out)))
             histogram_out trace
       = tally (map (bin_plus xmin
                       (bin_width xmin xmax (length histogram_out))) x)
               histogram_out.
Proof.
  intros Hgrid Hsched.
  pose proof (GridStride.writes_partition_perm block_size grid_size
                (length x) schedule Hgrid Hsched) as Hperm.
  assert (Hall : forall idxs : list nat,
             idxs ≡ₚ seq 0 (length x) ->
             tally (omap (fun i => bin_plus xmin
                            (bin_width xmin xmax (length histogram_out))
                            <$> x !! i) idxs) histogram_out
             = tally (map (bin_plus xmin
                             (bin_width xmin xmax (length histogram_out))) x)
                     histogram_out).
  { intros idxs Hidxs.
    rewrite (HistogramProofs.tally_perm _ _ _ (omap_Permutation _ _ _ Hidxs)).
    f_equal.
    rewrite <- (firstn_all x) at 2.
    change (map ?f (firstn ?n ?l)) with (f <$> take n l).
    rewrite <- (HistogramFacts.omap_lookup_seq_take _ x 0 (length x)).
    apply HistogramProofs.omap_ext_in. intros i _. by rewrite Nat.sub_0_r. }
  split.
  - rewrite (histogram_run block_size grid_size schedule histogram_out
               (length histogram_out)) by done.
    by apply Hall.
  - intros trace Htrace. rewrite foldl_histogram_body. apply Hall.
    rewrite (GridStride.interleaving_perm _ _ Htrace).
    change (?f <$> schedule) with (map f schedule).
    by rewrite <- flat_map_concat_map.
Qed.
End WithArith.

Lemma histogram_any_grid_witness :
  Cuda.run (histogram 2 3 [-3.5; 0.125; 0.25; 3.75; 4.0; 1.5; -1.0]%float
                      (-4)%float 4%float)
           (rev (Cuda.threads1 3 2)) [0; 0; 0; 0; 0; 0; 0; 0; 0; 0]
  = tally (map (bin_plus (-4)%float (bin_width (-4)%float 4%float 10))
               [-3.5; 0.125; 0.25; 3.75; 4.0; 1.5; -1.0]%float)
          [0; 0; 0; 0; 0; 0; 0; 0; 0; 0]
  /\ forall trace : list nat,
       Cuda.interleaving
         (AddKernel.writes 2 3 7 <$> rev (Cuda.threads1 3 2)) trace ->
       foldl (histogram_body [-3.5; 0.125; 0.25; 3.75; 4.0; 1.5; -1.0]%float
                (-4)%float (bin_width (-4)%float 4%float 10))
             [0; 0; 0; 0; 0; 0; 0; 0; 0; 0] trace
       = tally (map (bin_plus (-4)%float (bin_width (-4)%float 4%float 10))
                    [-3.5; 0.125; 0.25; 3.75; 4.0; 1.5; -1.0]%float)
               [0; 0; 0; 0; 0; 0; 0; 0; 0; 0].
Proof.
  apply (histogram_any_grid [-3.5; 0.125; 0.25; 3.75; 4.0; 1.5; -1.0]%float
           (-4)%float 4%float 2 3 (rev (Cuda.threads1 3 2))
           [0; 0; 0; 0; 0; 0; 0; 0; 0; 0]).
  - cbn. lia.
  - symmetry. apply Permutation_rev.
Defined.

End DebugHistogramProofs.

(** ** Kernels that update one element per thread *)

Module PointwiseFacts.

(** Threads that each update their own element: after the launch an element
    is updated when its index is one of the threads', untouched
    otherwise. *)
Lemma foldl_alter_lookup {A} (f : A -> A) (idxs : list nat) (x : list A)
    (j : nat) :
  NoDup idxs ->
  foldl (fun x i => alter f i x) x idxs !! j
  = if decide (j ∈ idxs) then f <$> x !! j else x !! j.
Proof.
  revert x. induction idxs as [|i idxs IH]; intros x Hnd; [done|].
  apply NoDup_cons in Hnd as [Hi Hnd]. cbn [foldl]. rewrite IH by done.
  destruct (decide (j = i)) as [->|Hji].
  - rewrite (decide_False (P := i ∈ idxs)) by done.
    rewrite (decide_True (P := i ∈ i :: idxs)) by left.
    apply list_lookup_alter_eq.
  - rewrite list_lookup_alter_ne by done.
    destruct (decide (j ∈ idxs)) as [Hin|Hnin].
    + rewrite decide_True by (by right). done.
    + rewrite decide_False; [done|]. by intros [?|?]%elem_of_cons.
Qed.

Lemma foldl_alter_grid {A} (f : A -> A) (G : nat) (schedule : list nat)
    (x : list A) :
  schedule ≡ₚ seq 0 G ->
  foldl (fun x i => alter f i x) x schedule
  = (f <$> take G x) ++ drop G x.
Proof.
  intros Hsched. apply list_eq. intros j.
  rewrite foldl_alter_lookup by (rewrite Hsched; apply NoDup_seq).
  destruct (decide (j < G)%nat) as [Hj|Hj].
  - rewrite decide_True by (rewrite Hsched; apply elem_of_seq; lia).
    destruct (decide (j < length x)%nat) as [Hjx|Hjx].
    + rewrite lookup_app_l by (rewrite length_fmap, length_take; lia).
      rewrite list_lookup_fmap, lookup_take_lt by done. done.
    + rewrite (lookup_ge_None_2 x) by lia. symmetry.
      apply lookup_ge_None_2.
      rewrite length_app, length_fmap, length_take, length_drop. lia.
  - rewrite decide_False by (rewrite Hsched, elem_of_seq; lia).
    destruct (decide (G <= length x)%nat) as [HG|HG].
    + rewrite lookup_app_r by (rewrite length_fmap, length_take; lia).
      rewrite length_fmap, length_take, lookup_drop. f_equal. lia.
    + rewrite (lookup_ge_None_2 x) by lia. symmetry.
      apply lookup_ge_None_2.
      rewrite length_app, length_fmap, length_take, length_drop. lia.
Qed.

Lemma foldl_alter_length {A} (f : A -> A) (idxs : list nat) (x : list A) :
  length (foldl (fun x i => alter f i x) x idxs) = length x.
Proof.
  revert x. induction idxs as [|i idxs IH]; intros x; [done|].
  cbn [foldl]. by rewrite IH, length_alter.
Qed.

End PointwiseFacts.

(** ** The kernels of the porting notebook *)

Module PortingProofs.
Import Porting.

Lemma foldl_bind_None {A B} (k : B -> A -> option A) (l : list B) :
  foldl (fun d i => d ≫= k i) None l = None.
Proof. induction l as [|i l IH]; [done|]. exact IH. Qed.

Lemma increment_kernel_alter (inc_value : Z) (i : nat) (d : list Z) :
  increment_kernel inc_value i d
  = if decide (i < length d)%nat
    then Some (alter (fun v => Int.int32 (Int.int64 (v + inc_value))) i d)
    else None.
Proof.
  unfold increment_kernel. destruct (d !! i) as [v|] eqn:Hv; cbn.
  - rewrite decide_True by (by eapply lookup_lt_Some). f_equal.
    apply list_eq. intros j. destruct (decide (j = i)) as [->|Hj].
    + rewrite list_lookup_alter_eq, Hv. cbn.
      by rewrite list_lookup_insert_eq by (by eapply lookup_lt_Some).
    + by rewrite list_lookup_alter_ne, list_lookup_insert_ne by done.
  - rewrite decide_False; [done|]. apply lookup_ge_None in Hv. lia.
Qed.

(** A launch succeeds exactly when every thread is inside the array. *)
Lemma increment_launch_alter (inc_value : Z) (schedule : list nat)
    (d : list Z) :
  increment_launch inc_value schedule d
  = if decide (Forall (fun i => (i < length d)%nat) schedule)
    then Some (foldl (fun d i =>
                        alter (fun v => Int.int32 (Int.int64 (v + inc_value)))
                              i d) d schedule)
    else None.
Proof.
  unfold increment_launch, Cuda.run. revert d.
  induction schedule as [|i schedule IH]; intros d.
  - by rewrite decide_True by constructor.
  - cbn [foldl mbind option_bind]. rewrite increment_kernel_alter.
    destruct (decide (i < length d)%nat) as [Hi|Hi].
    + rewrite IH. rewrite length_alter.
      destruct (decide (Forall (fun i => (i < length d)%nat) schedule)).
      * rewrite decide_True by (by constructor). done.
      * rewrite decide_False; [done|]. by intros [_ ?]%Forall_cons.
    + rewrite foldl_bind_None.
      rewrite decide_False; [done|]. by intros [? _]%Forall_cons.
Qed.

(** X12: A launch of [increment_kernel] with [blocks * threads] threads, in any
    order: when the grid fits in the array every element the grid reaches
    has [inc_value] added (as an int64 sum cast to int32) and the others
    are kept; when the grid is larger than the array some thread accesses
    the array out of bounds. *)
Theorem increment_kernel_launch (inc_value : Z) (blocks threads : nat)
    (schedule : list nat) (g_data : list Z) :
  schedule ≡ₚ Cuda.grid1 blocks threads ->
  increment_launch inc_value schedule g_data
  = if decide (blocks * threads <= length g_data)%nat
    then Some (((fun v => Int.int32 (Int.int64 (v + inc_value)))
                  <$> take (blocks * threads) g_data)
               ++ drop (blocks * threads) g_data)
    else None.
Proof.
  intros Hsched. rewrite increment_launch_alter.
  rewrite CudaFacts.grid1_seq in Hsched.
  destruct (decide (blocks * threads <= length g_data)%nat) as [HG|HG].
  - rewrite decide_True.
    + f_equal. by apply PointwiseFacts.foldl_alter_grid.
    + rewrite Hsched. apply Forall_forall. intros i Hi%elem_of_seq. lia.
  - rewrite decide_False; [done|]. intros Hall.
    assert (Hin : length g_data ∈ schedule).
    { rewrite Hsched. apply elem_of_seq. lia. }
    pose proof (proj1 (Forall_forall _ _) Hall _ Hin) as Hlt.
    cbn beta in Hlt. lia.
Qed.

Lemma int32_int64 (z : Z) : Int.int32 (Int.int64 z) = Int.int32 z.
Proof.
  unfold Int.int32, Int.int64, Int.wrap_signed.
  change (2 ^ (32 - 1)) with 2147483648. change (2 ^ 32) with 4294967296.
  change (2 ^ (64 - 1)) with 9223372036854775808.
  change (2 ^ 64) with 18446744073709551616.
  f_equal.
  replace ((z + 9223372036854775808) mod 18446744073709551616
           - 9223372036854775808 + 2147483648)
    with ((z + 9223372036854775808) mod 18446744073709551616
          + (2147483648 - 9223372036854775808)) by lia.
  rewrite <- Zplus_mod_idemp_l.
  rewrite Z.mod_mod_divide by (exists 4294967296; lia).
  rewrite Zplus_mod_idemp_l. f_equal. lia.
Qed.

Lemma int32_undo (v value : Z) :
  Int.is_int32 v ->
  Int.int32 (Int.int64 (Int.int32 (Int.int64 (v + - value)) + value)) = v.
Proof.
  intros Hv. rewrite !int32_int64, IntFacts.int32_add_l.
  replace (v + - value + value) with v by lia.
  by apply IntFacts.int32_id.
Qed.

(** X13: The two warm-up launches of the notebook, [increment_kernel(d_a, -value)]
    then [increment_kernel(d_a, value)] on a grid of exactly one thread per
    element: the second undoes the first, whatever [value] is and even
    where the intermediate int32 wraps around. *)
Theorem increment_kernel_undo (value : Z) (blocks threads : nat)
    (schedule1 schedule2 : list nat) (g_data : list Z) :
  Forall Int.is_int32 g_data ->
  (blocks * threads)%nat = length g_data ->
  schedule1 ≡ₚ Cuda.grid1 blocks threads ->
  schedule2 ≡ₚ Cuda.grid1 blocks threads ->
  increment_launch (- value) schedule1 g_data
    ≫= increment_launch value schedule2
  = Some g_data.
Proof.
  intros Hdata HG Hs1 Hs2. rewrite CudaFacts.grid1_seq in Hs1, Hs2.
  assert (Hall : forall (s : list nat) (d : list Z),
             s ≡ₚ seq 0 (blocks * threads) -> length d = length g_data ->
             Forall (fun i => (i < length d)%nat) s).
  { intros s d Hs Hd. rewrite Hs. apply Forall_forall.
    intros i Hi%elem_of_seq. lia. }
  rewrite increment_launch_alter, decide_True by (by apply Hall).
  cbn [mbind option_bind].
  rewrite increment_launch_alter, decide_True
    by (apply Hall; [done|apply PointwiseFacts.foldl_alter_length]).
  f_equal.
  rewrite (PointwiseFacts.foldl_alter_grid _ (blocks * threads) schedule1)
    by done.
  rewrite (PointwiseFacts.foldl_alter_grid _ (blocks * threads) schedule2)
    by done.
  rewrite HG, !firstn_all, !drop_all, !app_nil_r.
  rewrite firstn_all2 by (by rewrite length_fmap).
  rewrite drop_ge by (by rewrite length_fmap). rewrite app_nil_r.
  rewrite <- list_fmap_compose.
  rewrite <- (list_fmap_id g_data) at 2.
  apply Forall_fmap_ext_1.
  eapply Forall_impl; [exact Hdata|]. intros v Hv. cbn.
  by apply int32_undo.
Qed.

Lemma add_one_alter (i : nat) (x : list Z) :
  add_one i x = alter (fun v => Int.int64 (v + 1)) i x.
Proof.
  unfold add_one. apply list_eq. intros j.
  destruct (Nat.ltb_spec i (length x)) as [Hi|Hi].
  - destruct (lookup_lt_is_Some_2 x i Hi) as [v Hv]. rewrite Hv.
    destruct (decide (j = i)) as [->|Hj].
    + by rewrite list_lookup_alter_eq, Hv, list_lookup_insert_eq.
    + by rewrite list_lookup_alter_ne, list_lookup_insert_ne.
  - destruct (decide (j = i)) as [->|Hj].
    + rewrite list_lookup_alter_eq. by rewrite (lookup_ge_None_2 x i).
    + by rewrite list_lookup_alter_ne.
Qed.

(** X14: A launch of [add_one] with [blocks * threads] threads, in any order,
    adds one to each of the first [blocks * threads] elements and keeps the
    others; with at least as many threads as elements (as in
    [add_one[1, 32]] on ten elements) it adds one to every element, the
    guard keeping the spare threads out. *)
Theorem add_one_launch (blocks threads : nat) (schedule : list nat)
    (x : list Z) :
  schedule ≡ₚ Cuda.grid1 blocks threads ->
  Cuda.run add_one schedule x
  = ((fun v => Int.int64 (v + 1)) <$> take (blocks * threads) x)
    ++ drop (blocks * threads) x
  /\ ((length x <= blocks * threads)%nat ->
      Cuda.run add_one schedule x = (fun v => Int.int64 (v + 1)) <$> x).
Proof.
  intros Hsched. rewrite CudaFacts.grid1_seq in Hsched.
  assert (Hrun : Cuda.run add_one schedule x
                 = foldl (fun x i => alter (fun v => Int.int64 (v + 1)) i x)
                         x schedule).
  { unfold Cuda.run. generalize x. clear Hsched.
    induction schedule as [|i schedule IH]; intros x0; [done|].
    cbn [foldl]. by rewrite add_one_alter, IH. }
  rewrite Hrun, (PointwiseFacts.foldl_alter_grid _ (blocks * threads)) by done.
  split; [done|]. intros Hlen.
  by rewrite firstn_all2, drop_ge, app_nil_r by lia.
Qed.

Lemma increment_kernel_launch_witness :
  increment_launch 26 (rev (Cuda.grid1 2 2)) [1; 2; 3; 2147483647; 5]
  = if decide (2 * 2 <= length [1; 2; 3; 2147483647; 5]%Z)%nat
    then Some (((fun v => Int.int32 (Int.int64 (v + 26)))
                  <$> take (2 * 2) [1; 2; 3; 2147483647; 5])
               ++ drop (2 * 2) [1; 2; 3; 2147483647; 5])
    else None.
Proof.
  apply (increment_kernel_launch 26 2 2 (rev (Cuda.grid1 2 2))
           [1; 2; 3; 2147483647; 5]).
  symmetry. apply Permutation_rev.
Defined.

Lemma increment_kernel_undo_witness :
  increment_launch (- 26) (rev (Cuda.grid1 2 2)) [1; -2147483648; 3; 0]
    ≫= increment_launch 26 (Cuda.grid1 2 2)
  = Some [1; -2147483648; 3; 0].
Proof.
  apply (increment_kernel_undo 26 2 2 (rev (Cuda.grid1 2 2)) (Cuda.grid1 2 2)
           [1; -2147483648; 3; 0]).
  - repeat constructor; cbv; discriminate.
  - reflexivity.
  - symmetry. apply Permutation_rev.
  - reflexivity.
Defined.

Lemma add_one_launch_witness :
  Cuda.run add_one (rev (Cuda.grid1 1 32)) [0; 1; 2; 3; 4; 5; 6; 7; 8; 9]
  = ((fun v => Int.int64 (v + 1))
       <$> take (1 * 32) [0; 1; 2; 3; 4; 5; 6; 7; 8; 9])
    ++ drop (1 * 32) [0; 1; 2; 3; 4; 5; 6; 7; 8; 9]
  /\ ((length [0; 1; 2; 3; 4; 5; 6; 7; 8; 9]%Z <= 1 * 32)%nat ->
      Cuda.run add_one (rev (Cuda.grid1 1 32)) [0; 1; 2; 3; 4; 5; 6; 7; 8; 9]
      = (fun v => Int.int64 (v + 1)) <$> [0; 1; 2; 3; 4; 5; 6; 7; 8; 9]).
Proof.
  apply (add_one_launch 1 32 (rev (Cuda.grid1 1 32))
           [0; 1; 2; 3; 4; 5; 6; 7; 8; 9]).
  symmetry. apply Permutation_rev.
Defined.

End PortingProofs.

(** ** [add_kernel] on arrays that are too short *)

Module AddKernelFacts.
Import AddKernel.

Section WithDType.
Context {T : Type} `{DType T}.
Variables (x y : list T).

(** Loop trips that all succeed stayed inside [y] and [out]. *)
Lemma foldl_add_body_Some (idxs : list nat) (out out' : list T) :
  foldl (fun out i => out ≫= add_body x y i) (Some out) idxs = Some out' ->
  Forall (fun i => (i < length y /\ i < length out)%nat) idxs.
Proof.
  revert out. induction idxs as [|i idxs IH]; intros out Hrun; [constructor|].
  cbn [foldl mbind option_bind] in Hrun.
  destruct (add_body x y i out) as [out1|] eqn:Hbody.
  - unfold add_body in Hbody.
    destruct (x !! i) as [xi|]; [|discriminate].
    destruct (y !! i) as [yi|] eqn:Hy; [|discriminate]. cbn in Hbody.
    destruct (decide (i < length out)%nat) as [Hi|]; [|discriminate].
    injection Hbody as <-. constructor.
    + split; [by eapply lookup_lt_Some|done].
    + apply IH in Hrun. rewrite length_insert in Hrun. exact Hrun.
  - by rewrite AddKernelProofs.foldl_add_body_None in Hrun.
Qed.

(** X11: [add_kernel] has no guard of its own: its loop runs over [x.shape[0]].
    When [y] or [out] is shorter than [x], every launch with at least one
    thread, in whatever order the threads run, makes an out-of-bounds
    access. *)
Theorem add_kernel_out_of_bounds (block_size grid_size : nat)
    (schedule : list (nat * nat)) (out : list T) :
  (1 <= block_size * grid_size)%nat ->
  schedule ≡ₚ Cuda.threads1 grid_size block_size ->
  (length y < length x \/ length out < length x)%nat ->
  launch block_size grid_size x y schedule out = None.
Proof.
  intros Hgrid Hsched Hshort. unfold launch.
  rewrite AddKernelProofs.launch_flat.
  destruct (foldl _ _ _) as [out'|] eqn:Hrun; [exfalso|done].
  apply foldl_add_body_Some in Hrun.
  pose proof (GridStride.writes_partition_perm block_size grid_size
                (length x) schedule Hgrid Hsched) as Hperm.
  rewrite Hperm in Hrun.
  assert (Hin : forall i, (i < length x)%nat ->
                  (i < length y /\ i < length out)%nat).
  { intros i Hi. apply (proj1 (Forall_forall _ _) Hrun i).
    apply elem_of_seq. lia. }
  destruct Hshort as [Hy|Hout].
  - destruct (Hin (length y) Hy). lia.
  - destruct (Hin (length out) Hout). lia.
Qed.
End WithDType.

Lemma add_kernel_out_of_bounds_witness :
  launch 2 2 [1; 2; 3; 4; 5] [10; 20; 30; 40; 50]
         (rev (Cuda.threads1 2 2)) [0; 0; 0; 0]
  = None.
Proof.
  apply (add_kernel_out_of_bounds [1; 2; 3; 4; 5] [10; 20; 30; 40; 50] 2 2
           (rev (Cuda.threads1 2 2)) [0; 0; 0; 0]).
  - cbn. lia.
  - symmetry. apply Permutation_rev.
  - right. cbn. lia.
Defined.

End AddKernelFacts.

(** ** Generalized ufuncs *)

Module GufuncProofs.
Import Gufunc.

Lemma g_loop (x res : list Z) (y0 : Z) (k : nat) :
  (k <= length x)%nat -> length res = length x ->
  foldl (g_body x [y0]) (Some res) (seq 0 k)
  = Some (((fun xi => Int.int64 (xi + y0)) <$> take k x) ++ drop k res).
Proof.
  intros Hk Hres. induction k as [|k IH]; [done|].
  rewrite seq_S, foldl_app, IH by lia. cbn [foldl Nat.add].
  destruct (lookup_lt_is_Some_2 x k) as [xi Hxi]; [lia|].
  unfold g_body. cbn [mbind option_bind]. rewrite Hxi. cbn.
  assert (Hlen : length ((fun xi => Int.int64 (xi + y0)) <$> take k x) = k).
  { rewrite length_fmap, length_take. lia. }
  rewrite decide_True by (rewrite length_app, Hlen, length_drop; lia).
  f_equal. rewrite (take_S_r x k xi) by done. rewrite fmap_app.
  destruct (lookup_lt_is_Some_2 res k) as [r Hr]; [lia|].
  rewrite (drop_S res r k) by done.
  rewrite insert_app_r_alt by lia. rewrite Hlen, Nat.sub_diag.
  by rewrite <- app_assoc.
Qed.

(** [g] writes every element of [res], so its result does not depend on what
    [res] held. *)
Lemma g_map (x res : list Z) (y0 : Z) :
  length res = length x ->
  g x [y0] res = Some ((fun xi => Int.int64 (xi + y0)) <$> x).
Proof.
  intros Hres. unfold g. rewrite g_loop by (lia || done).
  by rewrite firstn_all, drop_ge, app_nil_r by lia.
Qed.

(** X15: Two applications of [g] are one: adding [a], then [b], to every element
    is adding the int64 sum [a + b], whatever the output buffers held, and
    also where the intermediate sums wrap around. *)
Theorem g_compose (x res1 res2 res3 : list Z) (a b : Z) :
  length res1 = length x -> length res2 = length x ->
  length res3 = length x ->
  g x [a] res1 ≫= (fun x1 => g x1 [b] res2) = g x [Int.int64 (a + b)] res3
  /\ is_Some (g x [a] res1).
Proof.
  intros H1 H2 H3. rewrite !g_map by done. split; [|done].
  cbn [mbind option_bind]. rewrite g_map by (by rewrite length_fmap).
  f_equal. rewrite <- list_fmap_compose. apply list_fmap_ext.
  intros _ xi _. cbn.
  by rewrite IntFacts.int64_add_l, IntFacts.int64_add_r, Z.add_assoc.
Qed.

Lemma g_compose_witness :
  g [1; 2; 9223372036854775807] [5] [0; 0; 0]
    ≫= (fun x1 => g x1 [-7] [0; 0; 0])
  = g [1; 2; 9223372036854775807] [Int.int64 (5 + -7)] [4; 4; 4]
  /\ is_Some (g [1; 2; 9223372036854775807] [5] [0; 0; 0]).
Proof.
  apply (g_compose [1; 2; 9223372036854775807] [0; 0; 0] [0; 0; 0] [4; 4; 4]
           5 (-7)); reflexivity.
Defined.

Section MoveMean.
Context {F : Type} `{Arith F}.
Variables (a : list F).

Lemma foldl_fill_None (idxs : list nat) :
  foldl (fill_body a) None idxs = None.
Proof. induction idxs as [|i idxs IH]; [done|]. exact IH. Qed.

Lemma foldl_slide_None (w : nat) (idxs : list nat) :
  foldl (slide_body a w) None idxs = None.
Proof. induction idxs as [|i idxs IH]; [done|]. exact IH. Qed.

(** The mean the first loop stores at the index [i]. *)
Lemma fill_loop (out : list F) (k : nat) :
  (k <= length a)%nat -> length out = length a ->
  Z.of_nat (length a) < 2 ^ 63 ->
  exists out',
    foldl (fill_body a) (Some (of_int 0, 0, out)) (seq 0 k)
    = Some (sum_left (take k a), Z.of_nat k, out') /\
    length out' = length a /\
    forall i : nat, (i < k)%nat ->
      out' !! i = Some (fdiv (sum_left (take (S i) a))
                             (of_int (Z.of_nat (S i)))).
Proof.
  intros Hk Hout Hn. induction k as [|k IH].
  - exists out. repeat split; [done|]. intros i Hi. lia.
  - destruct IH as (out' & Hrun & Hlen & Hmeans); [lia|].
    destruct (lookup_lt_is_Some_2 a k) as [ak Hak]; [lia|].
    exists (<[k := fdiv (sum_left (take (S k) a)) (of_int (Z.of_nat (S k)))]> out').
    rewrite seq_S, foldl_app, Hrun. cbn [foldl Nat.add].
    unfold fill_body. cbn [mbind option_bind]. rewrite Hak. cbn.
    rewrite decide_True by lia.
    assert (Hcount : Int.int64 (Z.of_nat k + 1) = Z.of_nat (S k)).
    { unfold Int.int64, Int.wrap_signed.
      change (2 ^ (64 - 1)) with 9223372036854775808.
      change (2 ^ 63) with 9223372036854775808 in Hn.
      change (2 ^ 64) with 18446744073709551616.
      rewrite Z.mod_small by lia. lia. }
    assert (Hsum : fadd (sum_left (take k a)) ak = sum_left (take (S k) a)).
    { rewrite (take_S_r a k ak) by done. unfold sum_left.
      by rewrite foldl_app. }
    rewrite Hcount, Hsum. split; [done|]. split.
    + by rewrite length_insert.
    + intros i Hi. destruct (decide (i = k)) as [->|Hik].
      * by rewrite list_lookup_insert_eq by lia.
      * rewrite list_lookup_insert_ne by done. apply Hmeans. lia.
Qed.

(** The second loop stays inside the arrays and leaves the first
    [window_width] elements of [out] as they are. *)
Lemma slide_loop (w : nat) (idxs : list nat) (st : mean_state) :
  Forall (fun i => (w <= i < length a)%nat) idxs ->
  length st.2 = length a ->
  exists asum out',
    foldl (slide_body a w) (Some st) idxs = Some (asum, st.1.2, out') /\
    length out' = length a /\
    forall i : nat, (i < w)%nat -> out' !! i = st.2 !! i.
Proof.
  revert st. induction idxs as [|i idxs IH]; intros [[asum count] out] Hidx Hlen.
  - exists asum, out. done.
  - apply Forall_cons in Hidx as [Hi Hidx]. cbn [fst snd] in *.
    destruct (lookup_lt_is_Some_2 a i) as [ai Hai]; [lia|].
    destruct (lookup_lt_is_Some_2 a (i - w)) as [aw Haw]; [lia|].
    cbn [foldl]. unfold slide_body at 2. cbn [mbind option_bind].
    rewrite Hai. cbn. rewrite Haw. cbn. rewrite decide_True by lia.
    destruct (IH (fadd asum (fsub ai aw), count,
                  <[i := fdiv (fadd asum (fsub ai aw)) (of_int count)]> out))
      as (asum' & out' & Hrun & Hlen' & Hkeep);
      [done|cbn [snd]; by rewrite length_insert|].
    cbn [fst snd] in *.
    exists asum', out'. split; [exact Hrun|]. split; [done|].
    intros j Hj. rewrite Hkeep by done. cbn [snd].
    apply list_lookup_insert_ne. lia.
Qed.

(** X16: For a window that fits in the array, [move_mean] succeeds, fills [out],
    and the first [window_width] outputs are the means of the prefixes of
    [a]: [out[i] = (a[0] + ... + a[i]) / (i + 1)], with the sum added up
    from the left.  This holds in floating point as it stands. *)
Theorem move_mean_prefix (window_width : nat) (out : list F) :
  (1 <= window_width <= length a)%nat ->
  length out = length a ->
  Z.of_nat (length a) < 2 ^ 63 ->
  exists out',
    move_mean a window_width out = Some out' /\
    length out' = length a /\
    forall i : nat, (i < window_width)%nat ->
      out' !! i = Some (fdiv (sum_left (take (S i) a))
                             (of_int (Z.of_nat (S i)))).
Proof.
  intros Hw Hout Hn. unfold move_mean. cbv zeta.
  destruct (fill_loop out window_width) as (out1 & Hfill & Hlen1 & Hmeans);
    [lia|done|done|].
  rewrite Hfill.
  destruct (slide_loop window_width
              (seq window_width (length a - window_width))
              (sum_left (take window_width a), Z.of_nat window_width, out1))
    as (asum & out2 & Hslide & Hlen2 & Hkeep).
  { apply Forall_forall. intros i Hi%elem_of_seq. lia. }
  { done. }
  unfold mean_state in *. cbn [fst snd] in *.
  rewrite Hslide. exists out2. cbn. split; [done|]. split; [done|].
  intros i Hi. rewrite Hkeep by done. by apply Hmeans.
Qed.

(** X17: A window wider than the array makes the first loop read past the end of
    [a]. *)
Theorem move_mean_out_of_bounds (window_width : nat) (out : list F) :
  (length a < window_width)%nat ->
  move_mean a window_width out = None.
Proof.
  intros Hw. unfold move_mean. cbv zeta.
  assert (Hseq : seq 0 window_width
                 = seq 0 (length a)
                   ++ (0 + length a)%nat
                      :: seq (S (0 + length a)) (window_width - S (length a))).
  { change ((0 + length a)%nat
            :: seq (S (0 + length a)) (window_width - S (length a)))
      with (seq (0 + length a) (S (window_width - S (length a)))).
    rewrite <- seq_app. f_equal. lia. }
  rewrite Hseq, foldl_app. cbn [foldl].
  assert (Hstep : forall st, fill_body a st (0 + length a)%nat = None).
  { intros [[[asum count] out0]|]; [|done]. unfold fill_body.
    cbn [mbind option_bind].
    by rewrite (lookup_ge_None_2 a (0 + length a)) by lia. }
  rewrite Hstep, foldl_fill_None, foldl_slide_None. done.
Qed.

End MoveMean.

Lemma move_mean_prefix_witness :
  exists out' : list float,
    move_mean [0; 1; 2; 3; 4; 5; 6; 7; 8; 9]%float 3
              [0; 0; 0; 0; 0; 0; 0; 0; 0; 0]%float = Some out' /\
    length out' = length [0; 1; 2; 3; 4; 5; 6; 7; 8; 9]%float /\
    forall i : nat, (i < 3)%nat ->
      out' !! i
      = Some (fdiv (sum_left (take (S i) [0; 1; 2; 3; 4; 5; 6; 7; 8; 9]%float))
                   (of_int (Z.of_nat (S i)))).
Proof.
  apply (move_mean_prefix [0; 1; 2; 3; 4; 5; 6; 7; 8; 9]%float 3
           [0; 0; 0; 0; 0; 0; 0; 0; 0; 0]%float).
  - cbn. lia.
  - reflexivity.
  - reflexivity.
Defined.

Lemma move_mean_out_of_bounds_witness :
  move_mean [0; 1; 2]%float 4 [0; 0; 0]%float = None.
Proof.
  apply (move_mean_out_of_bounds [0; 1; 2]%float 4 [0; 0; 0]%float).
  cbn. lia.
Defined.

End GufuncProofs.

(** ** [rint] rounds to nearest, ties to even *)

Module RoundingProofs.
Import Rounding.

Lemma this_Q2Qc (q : Q) : (this (Q2Qc q) == q)%Q.
Proof. apply Qred_correct. Qed.

Lemma this_add (a b : Qc) : (this (a + b)%Qc == this a + this b)%Q.
Proof. apply Qred_correct. Qed.

Lemma this_sub (a b : Qc) : (this (a - b)%Qc == this a - this b)%Q.
Proof.
  unfold Qcminus. rewrite this_add. unfold Qcopp. rewrite this_Q2Qc.
  reflexivity.
Qed.

Lemma this_mul (a b : Qc) : (this (a * b)%Qc == this a * this b)%Q.
Proof. apply Qred_correct. Qed.

Lemma Q2Qc_inject_add (m n : Z) :
  (Q2Qc (inject_Z m) + Q2Qc (inject_Z n))%Qc = Q2Qc (inject_Z (m + n)).
Proof.
  apply Qc_is_canon. rewrite inject_Z_plus.
  eapply Qeq_trans; [apply this_add|].
  eapply Qeq_trans; [|apply Qeq_sym, this_Q2Qc].
  apply Qplus_comp; apply this_Q2Qc.
Qed.

Lemma Qfloor_half (f : Z) : Qfloor ((1 # 2) * inject_Z f) = f / 2.
Proof.
  unfold Qfloor, Qmult, inject_Z. cbn [Qnum Qden].
  rewrite Z.mul_1_l. reflexivity.
Qed.

Section Exact.
Local Existing Instance Exact.arith.
Local Existing Instance exact_floor.

Lemma fgt_spec (a b : Qc) : fgt a b = true <-> (this b < this a)%Q.
Proof.
  unfold fgt. cbn. rewrite andb_true_iff, negb_true_iff.
  rewrite Qle_bool_iff, <- not_true_iff_false, Qle_bool_iff. split.
  - intros [_ Hn]. by apply Qnot_le_lt.
  - intros Hlt. split; [by apply Qlt_le_weak|by apply Qlt_not_le].
Qed.

Lemma feq_spec (a b : Qc) : feq a b = true <-> (this a == this b)%Q.
Proof.
  unfold feq. cbn. rewrite andb_true_iff, !Qle_bool_iff. split.
  - intros [H1 H2]. by apply Qle_antisym.
  - intros Heq. split; rewrite Heq; apply Qle_refl.
Qed.

Lemma half_val : (this (half (F := Qc)) == 1 # 2)%Q.
Proof. reflexivity. Qed.

Lemma one_val : (this (of_int (F := Qc) 1) == 1)%Q.
Proof. reflexivity. Qed.

(** The remainder [y - 2 * floor(0.5 * y)] of an integer [y] is its
    parity. *)
Lemma parity_val (f : Z) :
  (this (fsub (Q2Qc (inject_Z f))
              (fmul (of_int 2) (ffloor (fmul half (Q2Qc (inject_Z f))))))
   == inject_Z (f mod 2))%Q.
Proof.
  cbn [fsub fmul of_int Exact.arith]. unfold ffloor, exact_floor.
  rewrite this_sub, this_mul, !this_Q2Qc.
  assert (Hfl : Qfloor (this (fmul half (Q2Qc (inject_Z f)))) = f / 2).
  { rewrite <- Qfloor_half. apply Qfloor_comp.
    cbn [fmul Exact.arith]. rewrite this_mul, this_Q2Qc.
    apply Qmult_comp; [apply half_val|reflexivity]. }
  cbn [fmul Exact.arith] in Hfl. rewrite Hfl.
  rewrite (Z.mod_eq f 2) by lia.
  unfold Z.sub. rewrite inject_Z_plus, inject_Z_opp, inject_Z_mult.
  reflexivity.
Qed.
(** X19: With the rationals in place of binary64, so that no operation
    rounds, [rint x] is an integer nearest to [x], and the even one of the
    two when [x] lies half-way between two integers. *)
Theorem rint_nearest_even (x : Qc) :
  exists n : Z,
    rint x = of_int n /\
    (inject_Z n - (1 # 2) <= x <= inject_Z n + (1 # 2))%Q /\
    ((x == inject_Z n - (1 # 2))%Q \/ (x == inject_Z n + (1 # 2))%Q ->
     Z.even n = true).
Proof.
  pose proof (Qfloor_le x) as Hlo. pose proof (Qlt_floor x) as Hhi.
  rewrite inject_Z_plus in Hhi. change (inject_Z 1) with 1%Q in Hhi.
  set (f := Qfloor x) in *.
  assert (Hr : (this (fsub x (ffloor x)) == x - inject_Z f)%Q).
  { cbn [fsub Exact.arith]. unfold ffloor, exact_floor. fold f.
    eapply Qeq_trans; [apply this_sub|].
    apply Qplus_comp; [reflexivity|]. apply Qopp_comp, this_Q2Qc. }
  pose proof half_val as Hhalf.
  unfold rint. cbv zeta.
  destruct (fgt (fsub x (ffloor x)) half) eqn:Hgt;
    destruct (feq (fsub x (ffloor x)) half) eqn:Heq.
  - apply fgt_spec in Hgt. apply feq_spec in Heq. lra.
  - apply fgt_spec in Hgt. exists (f + 1).
    rewrite inject_Z_plus. change (inject_Z 1) with 1%Q.
    split; [|split].
    + apply Q2Qc_inject_add.
    + lra.
    + intros [Htie|Htie]; lra.
  - apply feq_spec in Heq.
    assert (Hmod : 0 <= f mod 2 < 2) by (apply Z.mod_pos_bound; lia).
    pose proof (Z.div_mod f 2 ltac:(lia)) as Hdiv.
    change (ffloor x) with (Q2Qc (inject_Z f)).
    destruct (feq _ (of_int 1)) eqn:Hodd.
    + apply feq_spec in Hodd.
      assert (Hone : f mod 2 = 1).
      { apply inject_Z_injective.
        eapply Qeq_trans; [apply Qeq_sym, parity_val|].
        eapply Qeq_trans; [exact Hodd|]. reflexivity. }
      exists (f + 1). rewrite inject_Z_plus. change (inject_Z 1) with 1%Q.
      split; [|split].
      * apply Q2Qc_inject_add.
      * lra.
      * intros _. apply Z.even_spec. exists (f / 2 + 1). lia.
    + assert (Hzero : f mod 2 = 0).
      { destruct (decide (f mod 2 = 1)) as [Hone|Hone]; [|lia].
        exfalso. apply not_true_iff_false in Hodd. apply Hodd.
        apply feq_spec.
        eapply Qeq_trans; [apply parity_val|]. rewrite Hone. reflexivity. }
      exists f. split; [done|]. split; [lra|].
      intros _. apply Z.even_spec. exists (f / 2). lia.
  - assert (Hlt : (this (fsub x (ffloor x)) < 1 # 2)%Q).
    { apply not_true_iff_false in Hgt, Heq.
      rewrite fgt_spec in Hgt. rewrite feq_spec in Heq.
      destruct (Q_dec (this (fsub x (ffloor x))) (this half))
        as [[Hlt|Hgt']|Heq']; [lra|done|done]. }
    exists f. split; [done|]. split; [lra|].
    intros [Htie|Htie]; lra.
Qed.
End Exact.

(** The same function on binary64 floats. *)
Example rint_float64 :
  map rint [2.5; 3.5; 1.5; 0.5; 7; -2.5; 2.25; 2.75]%float
  = [2; 4; 2; 0; 7; -2; 2; 3]%float.
Proof. vm_compute. reflexivity. Qed.

End RoundingProofs.

(** ** The launch of [compute_pi] *)

Module MonteCarloPiLaunchProofs.
Import MonteCarloPi MonteCarloPiLaunch.

Section WithArith.
Context {F : Type} `{Arith F}.
Context {rng_state : Type} (next_float32 : rng_state -> rng_state * F).
Variable (iterations : Z).

(** Threads with distinct indices inside both arrays: each leaves its own
    stream advanced and its own estimate, and touches nothing else. *)
Lemma launch_distinct (schedule : list nat) (rng_states : list rng_state)
    (out : list F) :
  NoDup schedule ->
  Forall (fun tid => (tid < length rng_states /\ tid < length out)%nat)
         schedule ->
  exists rng_states' out',
    launch next_float32 rng_states iterations schedule out
    = Some (rng_states', out') /\
    length rng_states' = length rng_states /\
    length out' = length out /\
    (forall (tid : nat) (s : rng_state),
        tid ∈ schedule -> rng_states !! tid = Some s ->
        rng_states' !! tid
        = Some (draw_pairs next_float32 s (Z.to_nat iterations)).2 /\
        out' !! tid = Some (estimate next_float32 iterations s)) /\
    (forall tid : nat,
        tid ∉ schedule ->
        rng_states' !! tid = rng_states !! tid /\ out' !! tid = out !! tid).
Proof.
  unfold launch, Cuda.run. revert rng_states out.
  induction schedule as [|t schedule IH]; intros rng_states out Hnd Hin.
  - exists rng_states, out. split; [done|]. split; [done|]. split; [done|].
    split; [|done]. intros tid s Htid. by apply elem_of_nil in Htid.
  - apply NoDup_cons in Hnd as [Ht Hnd].
    apply Forall_cons in Hin as [[Hts Hto] Hin].
    destruct (lookup_lt_is_Some_2 rng_states t Hts) as [s Hs].
    cbn [foldl mbind option_bind].
    rewrite (MonteCarloPiProofs.compute_pi_runs next_float32 rng_states
               iterations t out s Hs Hto).
    cbv zeta. fold (estimate next_float32 iterations s).
    destruct (IH (<[t := (draw_pairs next_float32 s (Z.to_nat iterations)).2]>
                    rng_states)
                 (<[t := estimate next_float32 iterations s]> out))
      as (rs' & out' & Hrun & Hlr & Hlo & Hdone & Hkeep).
    { done. }
    { rewrite !length_insert. exact Hin. }
    exists rs', out'. rewrite length_insert in Hlr. rewrite length_insert in Hlo.
    split; [exact Hrun|]. split; [done|]. split; [done|]. split.
    + intros tid s' [->|Htid]%elem_of_cons Hs'.
      * destruct (Hkeep t Ht) as [Hr Ho]. rewrite Hr, Ho.
        rewrite !list_lookup_insert_eq by done.
        rewrite Hs in Hs'. by injection Hs' as ->.
      * apply Hdone; [done|].
        rewrite list_lookup_insert_ne; [done|]. by intros ->.
    + intros tid Htid. apply not_elem_of_cons in Htid as [Hne Htid].
      destruct (Hkeep tid Htid) as [Hr Ho]. rewrite Hr, Ho.
      by rewrite !list_lookup_insert_ne by done.
Qed.

(** X20: A launch whose grid fits in both arrays succeeds whatever the order of
    the threads, and the threads do not disturb each other: the entry
    [out[tid]] of every thread of the grid is the estimate computed from the
    stream [rng_states[tid]] as it was before the launch, that stream is
    left advanced by [iterations] pairs, and the entries beyond the grid are
    as before. *)
Theorem compute_pi_launch (blocks threads : nat) (schedule : list nat)
    (rng_states : list rng_state) (out : list F) :
  schedule ≡ₚ Cuda.grid1 blocks threads ->
  (blocks * threads <= length rng_states)%nat ->
  (blocks * threads <= length out)%nat ->
  exists rng_states' out',
    launch next_float32 rng_states iterations schedule out
    = Some (rng_states', out') /\
    length rng_states' = length rng_states /\
    length out' = length out /\
    (forall (tid : nat) (s : rng_state),
        (tid < blocks * threads)%nat -> rng_states !! tid = Some s ->
        rng_states' !! tid
        = Some (draw_pairs next_float32 s (Z.to_nat iterations)).2 /\
        out' !! tid = Some (estimate next_float32 iterations s)) /\
    (forall tid : nat,
        (blocks * threads <= tid)%nat ->
        rng_states' !! tid = rng_states !! tid /\ out' !! tid = out !! tid).
Proof.
  intros Hsched Hrs Hout. rewrite CudaFacts.grid1_seq in Hsched.
  destruct (launch_distinct schedule rng_states out)
    as (rs' & out' & Hrun & Hlr & Hlo & Hdone & Hkeep).
  { rewrite Hsched. apply NoDup_seq. }
  { rewrite Hsched. apply Forall_forall. intros tid Htid%elem_of_seq. lia. }
  exists rs', out'. split; [exact Hrun|]. split; [done|]. split; [done|].
  split.
  - intros tid s Htid. apply Hdone. rewrite Hsched. apply elem_of_seq. lia.
  - intros tid Htid. apply Hkeep. rewrite Hsched, elem_of_seq. lia.
Qed.

Lemma pi_loop_no_stream (n tid : nat) (rng_states : list rng_state)
    (inside : Z) :
  rng_states !! tid = None ->
  pi_loop next_float32 (S n) tid rng_states inside = None.
Proof.
  intros Hs. cbn [pi_loop].
  assert (Hdraw : xoroshiro128p_uniform_float32 next_float32 rng_states tid
                  = None).
  { unfold xoroshiro128p_uniform_float32. by rewrite Hs. }
  by rewrite Hdraw.
Qed.

(** A thread that runs without fault was inside both arrays, and keeps
    their lengths. *)
Lemma compute_pi_Some (rng_states rs1 : list rng_state) (tid : nat)
    (out out1 : list F) :
  1 <= iterations ->
  compute_pi next_float32 rng_states iterations tid out = Some (rs1, out1) ->
  (tid < length rng_states /\ tid < length out)%nat /\
  length rs1 = length rng_states /\ length out1 = length out.
Proof.
  intros Hit Hstep. unfold compute_pi in Hstep.
  destruct (rng_states !! tid) as [s|] eqn:Hs.
  - rewrite (MonteCarloPiProofs.pi_loop_counts next_float32 _ _ _ s 0 Hs)
      in Hstep.
    cbn [mbind option_bind] in Hstep.
    destruct (decide (tid < length out)%nat) as [Ho|]; [|discriminate].
    injection Hstep as <- <-. rewrite !length_insert.
    split; [|done]. split; [by eapply lookup_lt_Some|done].
  - destruct (Z.to_nat iterations) as [|n] eqn:Hn; [lia|].
    by rewrite (pi_loop_no_stream n tid rng_states 0 Hs) in Hstep.
Qed.

(** X21: The kernel has no guard: a grid with more threads than there are
    streams, or than [out] has entries, makes an out-of-bounds access. *)
Theorem compute_pi_out_of_bounds (blocks threads : nat)
    (schedule : list nat) (rng_states : list rng_state) (out : list F) :
  schedule ≡ₚ Cuda.grid1 blocks threads ->
  (length rng_states < blocks * threads
   \/ length out < blocks * threads)%nat ->
  1 <= iterations ->
  launch next_float32 rng_states iterations schedule out = None.
Proof.
  intros Hsched Hshort Hit. rewrite CudaFacts.grid1_seq in Hsched.
  assert (Hstuck : exists tid, tid ∈ schedule /\
            (length rng_states <= tid \/ length out <= tid)%nat).
  { destruct Hshort as [Hr|Ho].
    - exists (length rng_states). split; [|lia].
      rewrite Hsched. apply elem_of_seq. lia.
    - exists (length out). split; [|lia].
      rewrite Hsched. apply elem_of_seq. lia. }
  clear Hsched Hshort. destruct Hstuck as (tid & Htid & Hbad).
  unfold launch, Cuda.run. revert rng_states out Hbad.
  induction schedule as [|t schedule IH]; intros rng_states out Hbad.
  - by apply elem_of_nil in Htid.
  - cbn [foldl mbind option_bind].
    destruct (compute_pi next_float32 rng_states iterations t out)
      as [[rs1 out1]|] eqn:Hstep.
    + apply compute_pi_Some in Hstep as ([Hr Ho] & Hlr & Hlo); [|done].
      apply elem_of_cons in Htid as [->|Htid]; [lia|].
      apply IH; [done|]. rewrite Hlr, Hlo. exact Hbad.
    + clear. induction schedule as [|t' schedule IH]; [done|]. exact IH.
Qed.
End WithArith.

Lemma compute_pi_launch_witness :
  exists (rng_states' : list Z) (out' : list float),
    launch MonteCarloPi.lcg_next_float [1; 2; 3; 4; 5] 8
           (rev (Cuda.grid1 2 2)) [0; 0; 0; 0; 0]%float
    = Some (rng_states', out') /\
    length rng_states' = length [1; 2; 3; 4; 5] /\
    length out' = length [0; 0; 0; 0; 0]%float /\
    (forall (tid : nat) (s : Z),
        (tid < 2 * 2)%nat -> [1; 2; 3; 4; 5] !! tid = Some s ->
        rng_states' !! tid
        = Some (draw_pairs MonteCarloPi.lcg_next_float s (Z.to_nat 8)).2 /\
        out' !! tid = Some (estimate MonteCarloPi.lcg_next_float 8 s)) /\
    (forall tid : nat,
        (2 * 2 <= tid)%nat ->
        rng_states' !! tid = [1; 2; 3; 4; 5] !! tid /\
        out' !! tid = [0; 0; 0; 0; 0]%float !! tid).
Proof.
  apply (compute_pi_launch MonteCarloPi.lcg_next_float 8 2 2
           (rev (Cuda.grid1 2 2)) [1; 2; 3; 4; 5] [0; 0; 0; 0; 0]%float).
  - symmetry. apply Permutation_rev.
  - cbn. lia.
  - cbn. lia.
Defined.

Lemma compute_pi_out_of_bounds_witness :
  launch MonteCarloPi.lcg_next_float [1; 2; 3] 8
         (rev (Cuda.grid1 2 2)) [0; 0; 0; 0]%float
  = None.
Proof.
  apply (compute_pi_out_of_bounds MonteCarloPi.lcg_next_float 8 2 2
           (rev (Cuda.grid1 2 2)) [1; 2; 3] [0; 0; 0; 0]%float).
  - symmetry. apply Permutation_rev.
  - left. cbn. lia.
  - lia.
Defined.

End MonteCarloPiLaunchProofs.

(** ** The moving mean of integer-valued data *)

Module MoveMeanFacts.
Import Gufunc.

Lemma zsum_app (l1 l2 : list Z) : zsum (l1 ++ l2) = zsum l1 + zsum l2.
Proof.
  unfold zsum. induction l1 as [|v l1 IH]; cbn [app foldr]; [done|].
  rewrite IH. lia.
Qed.

Lemma abs_sum_nonneg (l : list Z) : 0 <= abs_sum l.
Proof. unfold abs_sum. induction l as [|v l IH]; cbn [foldr]; lia. Qed.

Lemma abs_sum_app (l1 l2 : list Z) :
  abs_sum (l1 ++ l2) = abs_sum l1 + abs_sum l2.
Proof.
  unfold abs_sum. induction l1 as [|v l1 IH]; cbn [app foldr]; [done|].
  rewrite IH. lia.
Qed.

Lemma abs_zsum (l : list Z) : Z.abs (zsum l) <= abs_sum l.
Proof.
  unfold zsum, abs_sum. induction l as [|v l IH]; cbn [foldr]; lia.
Qed.

Lemma abs_sum_take (k : nat) (l : list Z) : abs_sum (take k l) <= abs_sum l.
Proof.
  rewrite <- (take_drop k l) at 2. rewrite abs_sum_app.
  pose proof (abs_sum_nonneg (drop k l)). lia.
Qed.

Lemma abs_sum_drop (k : nat) (l : list Z) : abs_sum (drop k l) <= abs_sum l.
Proof.
  rewrite <- (take_drop k l) at 2. rewrite abs_sum_app.
  pose proof (abs_sum_nonneg (take k l)). lia.
Qed.

(** Two elements at different positions weigh no more than the whole. *)
Lemma abs_sum_two (l : list Z) (j w : nat) (y x : Z) :
  l !! j = Some y -> l !! (S (j + w)) = Some x ->
  Z.abs y + Z.abs x <= abs_sum l.
Proof.
  intros Hy Hx. pose proof (abs_sum_drop j l) as Hd.
  rewrite (drop_S l y j Hy) in Hd. cbn [abs_sum foldr] in Hd.
  fold (abs_sum (drop (S j) l)) in Hd.
  pose proof (abs_sum_drop w (drop (S j) l)) as Hd'.
  assert (Hx' : drop (S j) l !! w = Some x).
  { rewrite lookup_drop, <- Hx. first [done | f_equal; lia]. }
  rewrite (drop_S _ x w Hx') in Hd'. cbn [abs_sum foldr] in Hd'.
  pose proof (abs_sum_nonneg (drop (S w) (drop (S j) l))).
  unfold abs_sum in *. lia.
Qed.

(** Sliding a window of [w] elements by one position. *)
Lemma zsum_slide (l : list Z) (m w : nat) (y x : Z) :
  l !! m = Some y -> l !! (S (m + w)) = Some x ->
  zsum (take (S w) (drop (S m) l))
  = zsum (take (S w) (drop m l)) + (x - y).
Proof.
  intros Hy Hx. rewrite (drop_S l y m Hy). rewrite firstn_cons.
  assert (Hx' : drop (S m) l !! w = Some x).
  { rewrite lookup_drop, <- Hx. first [done | f_equal; lia]. }
  rewrite (take_S_r _ w x Hx'), zsum_app. unfold zsum. cbn [foldr]. lia.
Qed.

Section WithArith.
Context {F : Type} `{Arith F}.
Variables (ints : list Z) (bound : Z).
Hypothesis exact : exact_on_integers H bound.
Hypothesis small : abs_sum ints <= bound.

(** Adding up small integers from the left is exact. *)
Lemma foldl_fadd_exact (z : Z) (l : list Z) :
  Z.abs z + abs_sum l <= bound ->
  foldl fadd (of_int z) (of_int <$> l) = of_int (z + zsum l).
Proof.
  revert z. induction l as [|v l IH]; intros z Hz.
  - cbn. by rewrite Z.add_0_r.
  - change (abs_sum (v :: l)) with (Z.abs v + abs_sum l) in Hz.
    pose proof (abs_sum_nonneg l) as Hl.
    cbn [fmap list_fmap foldl].
    assert (Hz1 : Z.abs z <= bound) by lia.
    assert (Hv1 : Z.abs v <= bound) by lia.
    destruct (exact z v Hz1 Hv1) as [Hadd _]. rewrite Hadd by lia.
    rewrite IH by lia.
    change (zsum (v :: l)) with (v + zsum l). f_equal. lia.
Qed.

Lemma sum_left_exact (k : nat) :
  sum_left (take k (of_int <$> ints)) = of_int (zsum (take k ints)).
Proof.
  unfold sum_left. rewrite <- fmap_take, foldl_fadd_exact; [done|].
  pose proof (abs_sum_take k ints). lia.
Qed.

Lemma window_bound (w m : nat) :
  Z.abs (zsum (take w (drop m ints))) <= bound.
Proof.
  pose proof (abs_zsum (take w (drop m ints))).
  pose proof (abs_sum_take w (drop m ints)).
  pose proof (abs_sum_drop m ints). lia.
Qed.

(** The update [asum += a[i] - a[i - w]] keeps [asum] the sum of the
    window, without error. *)
Lemma window_update (w m : nat) (y x : Z) :
  ints !! m = Some y -> ints !! (S (m + w)) = Some x ->
  fadd (of_int (zsum (take (S w) (drop m ints))))
       (fsub (of_int x) (of_int y))
  = of_int (zsum (take (S w) (drop (S m) ints))).
Proof.
  intros Hy Hx.
  pose proof (abs_sum_two ints m w y x Hy Hx) as Hxy.
  pose proof (window_bound (S w) m) as Hm.
  pose proof (window_bound (S w) (S m)) as HSm.
  rewrite (zsum_slide ints m w y x Hy Hx) in HSm |- *.
  assert (Hx1 : Z.abs x <= bound) by lia.
  assert (Hy1 : Z.abs y <= bound) by lia.
  assert (Hd1 : Z.abs (x - y) <= bound) by lia.
  destruct (exact x y Hx1 Hy1) as [_ Hsub]. rewrite Hsub by lia.
  destruct (exact (zsum (take (S w) (drop m ints))) (x - y) Hm Hd1)
    as [Hadd _].
  by rewrite Hadd by lia.
Qed.
Lemma slide_loop_int (w m : nat) (count : Z) (out : list F) :
  (S w + m <= length ints)%nat -> length out = length ints ->
  exists out',
    foldl (slide_body (of_int <$> ints) (S w))
          (Some (of_int (zsum (take (S w) ints)), count, out)) (seq (S w) m)
    = Some (of_int (zsum (take (S w) (drop m ints))), count, out') /\
    length out' = length ints /\
    forall i : nat, (S w <= i < S w + m)%nat ->
      out' !! i
      = Some (fdiv (of_int (zsum (take (S w) (drop (S i - S w) ints))))
                   (of_int count)).
Proof.
  intros Hm Hout. induction m as [|m IH].
  - exists out. rewrite drop_0. split; [done|]. split; [done|].
    intros i Hi. lia.
  - destruct IH as (out' & Hrun & Hlen & Hmeans); [lia|].
    destruct (lookup_lt_is_Some_2 ints (S (m + w))) as [x Hx]; [lia|].
    destruct (lookup_lt_is_Some_2 ints m) as [y Hy]; [lia|].
    exists (<[(S w + m)%nat :=
              fdiv (of_int (zsum (take (S w) (drop (S m) ints))))
                   (of_int count)]> out').
    rewrite seq_S, foldl_app. unfold mean_state in *. rewrite Hrun.
    cbn [foldl]. unfold slide_body. cbn [mbind option_bind].
    replace (S w + m)%nat with (S (m + w)) by lia.
    replace (S (m + w) - S w)%nat with m by lia.
    rewrite !list_lookup_fmap, Hx, Hy.
    cbn [fmap option_fmap option_map mbind option_bind].
    rewrite decide_True by lia.
    rewrite (window_update w m y x Hy Hx).
    split; [done|]. split.
    + by rewrite length_insert.
    + intros i Hi. destruct (decide (i = S (m + w))) as [->|Hik].
      * rewrite list_lookup_insert_eq by lia.
        by replace (S (S (m + w)) - S w)%nat with (S m) by lia.
      * rewrite list_lookup_insert_ne by done. apply Hmeans. lia.
Qed.

(** X18: for integer-valued data small enough that the arithmetic adds and
    subtracts it without error (in binary64: magnitudes adding up to no more
    than [2^53]), [move_mean] succeeds for a window that fits in the array
    and every output from the index [window_width] on is the quotient of
    the exact sum of the last [window_width] elements by [window_width]:
    the incremental update [asum += a[i] - a[i - w]] keeps [asum] the sum
    of the window. *)
Theorem move_mean_window (window_width : nat) (out : list F) :
  (1 <= window_width <= length ints)%nat ->
  length out = length ints ->
  Z.of_nat (length ints) < 2 ^ 63 ->
  exists out',
    move_mean (of_int <$> ints) window_width out = Some out' /\
    forall i : nat, (window_width <= i < length ints)%nat ->
      out' !! i
      = Some (fdiv (of_int (zsum (take window_width
                                       (drop (S i - window_width) ints))))
                   (of_int (Z.of_nat window_width))).
Proof.
  intros Hw Hout Hn. unfold move_mean. cbv zeta.
  destruct (GufuncProofs.fill_loop (of_int <$> ints) out window_width)
    as (out1 & Hfill & Hlen1 & _);
    [rewrite length_fmap; lia|by rewrite length_fmap
    |by rewrite length_fmap|].
  rewrite sum_left_exact in Hfill. rewrite length_fmap in Hlen1.
  unfold mean_state in *. rewrite Hfill, length_fmap.
  destruct window_width as [|w]; [lia|].
  destruct (slide_loop_int w (length ints - S w) (Z.of_nat (S w)) out1)
    as (out2 & Hslide & Hlen2 & Hmeans); [lia|done|].
  unfold mean_state in *. rewrite Hslide. exists out2. split; [done|].
  intros i Hi. apply Hmeans. lia.
Qed.
End WithArith.

Lemma small_cases (m : Z) :
  Z.abs m <= 10 -> exists k : nat, (k <= 20)%nat /\ m = Z.of_nat k - 10.
Proof. intros Hm. exists (Z.to_nat (m + 10)). lia. Qed.

(** Binary64 adds and subtracts the integers up to 10 without error, as it
    does all integers up to [2^53]: checked case by case. *)
Lemma float64_exact_10 : exact_on_integers Float64.arith 10.
Proof.
  intros m n Hm Hn.
  destruct (small_cases m Hm) as (i & Hi & ->).
  destruct (small_cases n Hn) as (j & Hj & ->). clear Hm Hn.
  do 21 (destruct i as [|i];
         [do 21 (destruct j as [|j];
                 [split; intros Hb;
                  first [exfalso; cbn in Hb; lia | vm_compute; reflexivity]|]);
          lia|]).
  lia.
Qed.

Lemma move_mean_window_witness :
  exists out' : list float,
    move_mean (of_int <$> [0; 1; 2; 3; 4]) 2 [0; 0; 0; 0; 0]%float
    = Some out' /\
    forall i : nat,
      (2 <= i < length [0; 1; 2; 3; 4]%Z)%nat ->
      out' !! i
      = Some (fdiv (of_int (zsum (take 2 (drop (S i - 2) [0; 1; 2; 3; 4]))))
                   (of_int (Z.of_nat 2))).
Proof.
  apply (@move_mean_window float Float64.arith [0; 1; 2; 3; 4] 10
           float64_exact_10).
  - vm_compute. discriminate.
  - cbn. lia.
  - reflexivity.
  - reflexivity.
Defined.

End MoveMeanFacts.
